(** * saga-go: the orchestration engine and its recovery loop

    A shallow embedding of [types.go], [storage.go] (the in-memory storage
    and the recovery manager), [orchestrator.go], [builder.go] and the
    in-memory pub/sub, followed by the properties of the saga state machine
    proved on it.

    Conventions of the embedding.
    - Go pointers are addresses into an explicit heap.  [MemoryStorage]
      stores pointers, not copies, so a [*Step] obtained from [GetStep] may
      be the very element [saga.Steps[i]] of a stored saga; writes through
      it are visible through the saga, as in the Go program.
    - [time.Now()] is the next reading of a wall clock [wall]; [uuid.New()]
      is the next value of a generator [uuid].  Both are parameters.
    - Instants and durations are integers (nanoseconds); [Sub] is exact
      subtraction.  The saturation of [time.Duration] at about 292 years is
      outside the model.
    - [map[string]interface{}] values are finite maps with value semantics;
      [None] is the nil map.  Writing into a nil map panics.
    - The pub/sub transport is observed through the sequence of [Publish]
      calls; the orchestrator never branches on the result of [Publish].
      [serve] runs the goroutines that the in-memory pub/sub starts for
      these calls, one after the other.
    - Every operation runs to completion on its own: interleavings of
      goroutines are not modelled. *)

From stdpp Require Import gmap strings list fin_maps pretty.

(** ** types.go *)

Inductive Status :=
  | StatusPending
  | StatusProcessing
  | StatusCompleted
  | StatusFailed
  | StatusCompensated.

#[global] Instance Status_eq_dec : EqDecision Status.
Proof. solve_decision. Defined.

(** The dynamic values held by a [map[string]interface{}]. *)
Inductive Value :=
  | VNil
  | VBool (b : bool)
  | VNum (z : Z)
  | VStr (s : string).

Abbreviation Instant := Z (only parsing).
Abbreviation Duration := Z (only parsing).
Abbreviation DataMap := (option (gmap string Value)) (only parsing).

Definition IsZero (t : Instant) : bool := Z.eqb t 0.
Definition Sub (t u : Instant) : Duration := (t - u)%Z.

Record Step := mkStep {
  Step_ID : string;
  Step_SagaID : string;
  Step_Name : string;
  Step_Status : Status;
  Step_Data : DataMap;
  Step_Error : string;
  Step_CompensateID : string;
  Step_StartedAt : option Instant;
  Step_CreatedAt : Instant;
  Step_UpdatedAt : Instant }.

Record Saga := mkSaga {
  Saga_ID : string;
  Saga_Name : string;
  Saga_Status : Status;
  Saga_Steps : list Step;
  Saga_Data : DataMap;
  Saga_Error : string;
  Saga_CreatedAt : Instant;
  Saga_UpdatedAt : Instant }.

Record Message := mkMessage {
  Msg_Type : string;
  Msg_SagaID : string;
  Msg_StepID : string;
  Msg_Data : DataMap }.

(** Field assignments [x.F = v]. *)
Definition set_Step_Status (v : Status) (s : Step) : Step :=
  mkStep (Step_ID s) (Step_SagaID s) (Step_Name s) v (Step_Data s) (Step_Error s)
         (Step_CompensateID s) (Step_StartedAt s) (Step_CreatedAt s) (Step_UpdatedAt s).
Definition set_Step_Data (v : DataMap) (s : Step) : Step :=
  mkStep (Step_ID s) (Step_SagaID s) (Step_Name s) (Step_Status s) v (Step_Error s)
         (Step_CompensateID s) (Step_StartedAt s) (Step_CreatedAt s) (Step_UpdatedAt s).
Definition set_Step_Error (v : string) (s : Step) : Step :=
  mkStep (Step_ID s) (Step_SagaID s) (Step_Name s) (Step_Status s) (Step_Data s) v
         (Step_CompensateID s) (Step_StartedAt s) (Step_CreatedAt s) (Step_UpdatedAt s).
Definition set_Step_StartedAt (v : option Instant) (s : Step) : Step :=
  mkStep (Step_ID s) (Step_SagaID s) (Step_Name s) (Step_Status s) (Step_Data s) (Step_Error s)
         (Step_CompensateID s) v (Step_CreatedAt s) (Step_UpdatedAt s).
Definition set_Step_CreatedAt (v : Instant) (s : Step) : Step :=
  mkStep (Step_ID s) (Step_SagaID s) (Step_Name s) (Step_Status s) (Step_Data s) (Step_Error s)
         (Step_CompensateID s) (Step_StartedAt s) v (Step_UpdatedAt s).
Definition set_Step_UpdatedAt (v : Instant) (s : Step) : Step :=
  mkStep (Step_ID s) (Step_SagaID s) (Step_Name s) (Step_Status s) (Step_Data s) (Step_Error s)
         (Step_CompensateID s) (Step_StartedAt s) (Step_CreatedAt s) v.

Definition set_Saga_Status (v : Status) (g : Saga) : Saga :=
  mkSaga (Saga_ID g) (Saga_Name g) v (Saga_Steps g) (Saga_Data g) (Saga_Error g)
         (Saga_CreatedAt g) (Saga_UpdatedAt g).
Definition set_Saga_Steps (v : list Step) (g : Saga) : Saga :=
  mkSaga (Saga_ID g) (Saga_Name g) (Saga_Status g) v (Saga_Data g) (Saga_Error g)
         (Saga_CreatedAt g) (Saga_UpdatedAt g).
Definition set_Saga_Data (v : DataMap) (g : Saga) : Saga :=
  mkSaga (Saga_ID g) (Saga_Name g) (Saga_Status g) (Saga_Steps g) v (Saga_Error g)
         (Saga_CreatedAt g) (Saga_UpdatedAt g).
Definition set_Saga_CreatedAt (v : Instant) (g : Saga) : Saga :=
  mkSaga (Saga_ID g) (Saga_Name g) (Saga_Status g) (Saga_Steps g) (Saga_Data g) (Saga_Error g)
         v (Saga_UpdatedAt g).
Definition set_Saga_UpdatedAt (v : Instant) (g : Saga) : Saga :=
  mkSaga (Saga_ID g) (Saga_Name g) (Saga_Status g) (Saga_Steps g) (Saga_Data g) (Saga_Error g)
         (Saga_CreatedAt g) v.

(** [StepHandler]: the forward and the compensating action.  A handler
    receives the execution map, may write into it, and returns an [error]
    ([None] is Go's [nil]). *)
Record StepHandler := mkStepHandler {
  Execute : gmap string Value → gmap string Value * option string;
  Compensate : gmap string Value → gmap string Value * option string }.

(** [StepFunc]: a handler from two optional functions; a nil function
    succeeds without doing anything. *)
Record StepFunc := mkStepFunc {
  ExecFn : option (gmap string Value → gmap string Value * option string);
  CompensateFn : option (gmap string Value → gmap string Value * option string) }.

Definition StepFunc_Execute (f : StepFunc) (data : gmap string Value)
  : gmap string Value * option string :=
  match ExecFn f with
  | None => (data, None)
  | Some fn => fn data
  end.

Definition StepFunc_Compensate (f : StepFunc) (data : gmap string Value)
  : gmap string Value * option string :=
  match CompensateFn f with
  | None => (data, None)
  | Some fn => fn data
  end.

Definition StepFunc_handler (f : StepFunc) : StepHandler :=
  mkStepHandler (StepFunc_Execute f) (StepFunc_Compensate f).

(** ** The Go heap *)

Abbreviation addr := nat (only parsing).

(** A [*Step] is either the address of an element of a saga's step array
    ([&saga.Steps[i]]) or the address of a [Step] variable of its own. *)
Inductive StepPtr :=
  | InSaga (a : addr) (i : nat)
  | Cell (c : addr).

#[global] Instance StepPtr_eq_dec : EqDecision StepPtr.
Proof. solve_decision. Defined.

Record Heap := mkHeap {
  sagaObjs : gmap nat Saga;
  stepCells : gmap nat Step }.

Definition deref (h : Heap) (p : StepPtr) : option Step :=
  match p with
  | InSaga a i =>
      match sagaObjs h !! a with
      | Some g => Saga_Steps g !! i
      | None => None
      end
  | Cell c => stepCells h !! c
  end.

Definition storeStep (h : Heap) (p : StepPtr) (s : Step) : Heap :=
  match p with
  | InSaga a i =>
      match sagaObjs h !! a with
      | Some g =>
          mkHeap (<[a := set_Saga_Steps (<[i := s]> (Saga_Steps g)) g]> (sagaObjs h))
                 (stepCells h)
      | None => h
      end
  | Cell c => mkHeap (sagaObjs h) (<[c := s]> (stepCells h))
  end.

Definition storeSaga (h : Heap) (a : addr) (g : Saga) : Heap :=
  mkHeap (<[a := g]> (sagaObjs h)) (stepCells h).

(** ** Computations with state and panics *)

Inductive outcome (A : Type) :=
  | Return (a : A)
  | Panic (msg : string).
Arguments Return {A} a.
Arguments Panic {A} msg.

Definition Run (St A : Type) : Type := St → St * outcome A.

Definition ret {St A} (a : A) : Run St A := fun s => (s, Return a).
Definition panic {St A} (msg : string) : Run St A := fun s => (s, Panic msg).
Definition bind {St A B} (c : Run St A) (k : A → Run St B) : Run St B :=
  fun s =>
    match c s with
    | (s', Return a) => k a s'
    | (s', Panic msg) => (s', Panic msg)
    end.

Notation "'let*' x ':=' c 'in' k" := (bind c (fun x => k))
  (at level 10, x pattern, c at level 100, k at level 200).

Definition when {St} (b : bool) (c : Run St unit) : Run St unit :=
  if b then c else ret tt.

Fixpoint forEach {St A} (l : list A) (body : A → Run St unit) : Run St unit :=
  match l with
  | [] => ret tt
  | x :: rest => bind (body x) (fun _ => forEach rest body)
  end.

Definition nilDeref : string := "invalid memory address or nil pointer dereference".

(** What a storage backend can see and change: the heap, its own state
    and the clock. *)
Record Machine (S : Type) := mkMachine {
  heap : Heap;
  db : S;
  ticks : nat }.
Arguments mkMachine {S} _ _ _.
Arguments heap {S} _.
Arguments db {S} _.
Arguments ticks {S} _.

Section MachineOps.
Context {S : Type}.
Variable wall : nat → Instant.

Definition timeNow : Run (Machine S) Instant :=
  fun m => (mkMachine (heap m) (db m) (Datatypes.S (ticks m)), Return (wall (ticks m))).

Definition loadSaga (a : addr) : Run (Machine S) Saga :=
  fun m =>
    match sagaObjs (heap m) !! a with
    | Some g => (m, Return g)
    | None => (m, Panic nilDeref)
    end.

Definition loadStep (p : StepPtr) : Run (Machine S) Step :=
  fun m =>
    match deref (heap m) p with
    | Some s => (m, Return s)
    | None => (m, Panic nilDeref)
    end.

Definition modifySaga (a : addr) (f : Saga → Saga) : Run (Machine S) unit :=
  fun m =>
    match sagaObjs (heap m) !! a with
    | Some g => (mkMachine (storeSaga (heap m) a (f g)) (db m) (ticks m), Return tt)
    | None => (m, Panic nilDeref)
    end.

Definition modifyStep (p : StepPtr) (f : Step → Step) : Run (Machine S) unit :=
  fun m =>
    match deref (heap m) p with
    | Some s => (mkMachine (storeStep (heap m) p (f s)) (db m) (ticks m), Return tt)
    | None => (m, Panic nilDeref)
    end.

Definition getDB : Run (Machine S) S := fun m => (m, Return (db m)).

Definition modifyDB (f : S → S) : Run (Machine S) unit :=
  fun m => (mkMachine (heap m) (f (db m)) (ticks m), Return tt).

(** [new(Saga)] and [new(Step)]: a fresh address. *)
Definition newSaga (g : Saga) : Run (Machine S) addr :=
  fun m =>
    let a := fresh (dom (sagaObjs (heap m))) in
    (mkMachine (storeSaga (heap m) a g) (db m) (ticks m), Return a).

Definition newStep (s : Step) : Run (Machine S) StepPtr :=
  fun m =>
    let c := fresh (dom (stepCells (heap m))) in
    (mkMachine (storeStep (heap m) (Cell c) s) (db m) (ticks m), Return (Cell c)).
End MachineOps.

(** ** The [Storage] interface (types.go) *)

Record Storage (S : Type) := mkStorage {
  SaveSaga : addr → Run (Machine S) (option string);
  GetSaga : string → Run (Machine S) (string + addr);
  UpdateStep : StepPtr → Run (Machine S) (option string);
  GetStep : string → Run (Machine S) (string + StepPtr);
  GetPendingSteps : Run (Machine S) (string + list Step);
  GetStuckSteps : Duration → Run (Machine S) (string + list Step) }.
Arguments SaveSaga {S} _ _ _.
Arguments GetSaga {S} _ _ _.
Arguments UpdateStep {S} _ _ _.
Arguments GetStep {S} _ _ _.
Arguments GetPendingSteps {S} _ _.
Arguments GetStuckSteps {S} _ _ _.

(** ** MemoryStorage (storage.go) *)

Record MemDB := mkMemDB {
  sagas : gmap string nat;
  steps : gmap string StepPtr }.

Definition NewMemoryStorage : MemDB := mkMemDB ∅ ∅.

Section MemoryStorage.
Variable wall : nat → Instant.
(** The order in which [range] visits the entries of [m.steps]. *)
Variable visit : list (string * StepPtr) → list (string * StepPtr).

(** The body of [for i := range saga.Steps] in [SaveSaga]. *)
Definition saveStep (saga : addr) (i : nat) : Run (Machine MemDB) unit :=
  let step := InSaga saga i in
  let* s := loadStep step in
  let* _ := when (IsZero (Step_CreatedAt s))
              (let* now := timeNow wall in modifyStep step (set_Step_CreatedAt now)) in
  let* now := timeNow wall in
  let* _ := modifyStep step (set_Step_UpdatedAt now) in
  let* s := loadStep step in
  modifyDB (fun m => mkMemDB (sagas m) (<[Step_ID s := step]> (steps m))).

Definition MemoryStorage_SaveSaga (saga : addr) : Run (Machine MemDB) (option string) :=
  let* now := timeNow wall in
  let* _ := modifySaga saga (set_Saga_UpdatedAt now) in
  let* g := loadSaga saga in
  let* _ := when (IsZero (Saga_CreatedAt g))
              (let* now := timeNow wall in modifySaga saga (set_Saga_CreatedAt now)) in
  let* g := loadSaga saga in
  let* _ := modifyDB (fun m => mkMemDB (<[Saga_ID g := saga]> (sagas m)) (steps m)) in
  let* _ := forEach (seq 0 (length (Saga_Steps g))) (saveStep saga) in
  ret None.

Definition MemoryStorage_GetSaga (id : string) : Run (Machine MemDB) (string + addr) :=
  let* m := getDB in
  match sagas m !! id with
  | None => ret (inl "saga not found")
  | Some saga => ret (inr saga)
  end.

(** [for i := range saga.Steps { if saga.Steps[i].ID == step.ID
    { saga.Steps[i] = *step; break } }] *)
Fixpoint copyIntoSaga (saga : addr) (step : StepPtr) (idxs : list nat)
  : Run (Machine MemDB) unit :=
  match idxs with
  | [] => ret tt
  | i :: rest =>
      let* si := loadStep (InSaga saga i) in
      let* s := loadStep step in
      if decide (Step_ID si = Step_ID s)
      then modifyStep (InSaga saga i) (fun _ => s)
      else copyIntoSaga saga step rest
  end.

Definition MemoryStorage_UpdateStep (step : StepPtr) : Run (Machine MemDB) (option string) :=
  let* now := timeNow wall in
  let* _ := modifyStep step (set_Step_UpdatedAt now) in
  let* s := loadStep step in
  let* _ := modifyDB (fun m => mkMemDB (sagas m) (<[Step_ID s := step]> (steps m))) in
  let* m := getDB in
  let* _ := match sagas m !! Step_SagaID s with
            | Some saga =>
                let* g := loadSaga saga in
                let* _ := copyIntoSaga saga step (seq 0 (length (Saga_Steps g))) in
                let* now := timeNow wall in
                modifySaga saga (set_Saga_UpdatedAt now)
            | None => ret tt
            end in
  ret None.

Definition MemoryStorage_GetStep (id : string) : Run (Machine MemDB) (string + StepPtr) :=
  let* m := getDB in
  match steps m !! id with
  | None => ret (inl "step not found")
  | Some step => ret (inr step)
  end.

Fixpoint pendingLoop (entries : list (string * StepPtr)) (pending : list Step)
  : Run (Machine MemDB) (list Step) :=
  match entries with
  | [] => ret pending
  | (_, step) :: rest =>
      let* s := loadStep step in
      if decide (Step_Status s = StatusPending)
      then pendingLoop rest (pending ++ [s])
      else pendingLoop rest pending
  end.

Definition MemoryStorage_GetPendingSteps : Run (Machine MemDB) (string + list Step) :=
  let* m := getDB in
  let* pending := pendingLoop (visit (map_to_list (steps m))) [] in
  ret (inr pending).

Fixpoint stuckLoop (now : Instant) (timeout : Duration)
    (entries : list (string * StepPtr)) (stuck : list Step)
  : Run (Machine MemDB) (list Step) :=
  match entries with
  | [] => ret stuck
  | (_, step) :: rest =>
      let* s := loadStep step in
      match Step_Status s with
      | StatusPending =>
          if (timeout <? Sub now (Step_UpdatedAt s))%Z
          then stuckLoop now timeout rest (stuck ++ [s])
          else stuckLoop now timeout rest stuck
      | StatusProcessing =>
          match Step_StartedAt s with
          | Some started =>
              if (timeout <? Sub now started)%Z
              then stuckLoop now timeout rest (stuck ++ [s])
              else stuckLoop now timeout rest stuck
          | None => stuckLoop now timeout rest stuck
          end
      | _ => stuckLoop now timeout rest stuck
      end
  end.

Definition MemoryStorage_GetStuckSteps (timeout : Duration)
  : Run (Machine MemDB) (string + list Step) :=
  let* m := getDB in
  let* now := timeNow wall in
  let* stuck := stuckLoop now timeout (visit (map_to_list (steps m))) [] in
  ret (inr stuck).

Definition MemoryStorage : Storage MemDB :=
  mkStorage MemDB
    MemoryStorage_SaveSaga MemoryStorage_GetSaga MemoryStorage_UpdateStep
    MemoryStorage_GetStep MemoryStorage_GetPendingSteps MemoryStorage_GetStuckSteps.
End MemoryStorage.

(** ** The world an orchestrator runs in *)

(** Besides the machine: the [Publish] calls made so far, each with its
    topic, and the number of identifiers drawn from [uuid.New()]. *)
Record World (S : Type) := mkWorld {
  machine : Machine S;
  published : list (string * Message);
  uuids : nat }.
Arguments mkWorld {S} _ _ _.
Arguments machine {S} _.
Arguments published {S} _.
Arguments uuids {S} _.

#[global] Instance Value_eq_dec : EqDecision Value.
Proof. solve_decision. Defined.

Section WorldOps.
Context {S : Type}.
Variable uuid : nat → string.

Definition onMachine {A} (c : Run (Machine S) A) : Run (World S) A :=
  fun w =>
    match c (machine w) with
    | (m, r) => (mkWorld m (published w) (uuids w), r)
    end.

Definition Publish (topic : string) (msg : Message) : Run (World S) unit :=
  fun w => (mkWorld (machine w) (published w ++ [(topic, msg)]) (uuids w), Return tt).

Definition uuidNew : Run (World S) string :=
  fun w => (mkWorld (machine w) (published w) (Datatypes.S (uuids w)), Return (uuid (uuids w))).

(** [steps[i]], with Go's bounds check. *)
Definition index (l : list Step) (i : nat) : Run (World S) Step :=
  match l !! i with
  | Some s => ret s
  | None => panic "index out of range"
  end.
End WorldOps.

(** [for k, v := range src { dst[k] = v }] on a map [dst] that is not nil. *)
Definition copyInto (src dst : gmap string Value) : gmap string Value := src ∪ dst.

(** [range] over a nil map visits nothing. *)
Definition entriesOf (d : DataMap) : gmap string Value := default ∅ d.

(** ** Orchestrator (orchestrator.go) *)

(** The scan of [continueOrComplete]:
    [for i, step := range saga.Steps { if step.Status == StatusCompleted
    { currentIndex = i } else { break } }], entered at index [i]. *)
Fixpoint scanCompleted (l : list Step) (i : Z) (currentIndex : Z) : Z :=
  match l with
  | [] => currentIndex
  | step :: rest =>
      if decide (Step_Status step = StatusCompleted)
      then scanCompleted rest (i + 1)%Z i
      else currentIndex
  end.

Record Orchestrator (S : Type) := mkOrchestrator {
  storage : Storage S;
  handlers : gmap string StepHandler }.
Arguments mkOrchestrator {S} _ _.
Arguments storage {S} _.
Arguments handlers {S} _.

Definition NewOrchestrator {S} (st : Storage S) : Orchestrator S := mkOrchestrator st ∅.

Definition RegisterHandler {S} (o : Orchestrator S) (stepName : string) (handler : StepHandler)
  : Orchestrator S :=
  mkOrchestrator (storage o) (<[stepName := handler]> (handlers o)).

Section Orchestrator.
Context {S : Type}.
Variable wall : nat → Instant.
Variable uuid : nat → string.

(** The body of [for _, stepName := range steps] in [StartSaga]. *)
Definition appendStep (sagaID : string) (saga : addr) (stepName : string)
  : Run (World S) unit :=
  let* stepID := uuidNew uuid in
  let* created := onMachine (timeNow wall) in
  let* updated := onMachine (timeNow wall) in
  let step := mkStep stepID sagaID stepName StatusPending (Some ∅) "" ""
                     None created updated in
  onMachine (modifySaga saga (fun g => set_Saga_Steps (Saga_Steps g ++ [step]) g)).

Definition StartSaga (o : Orchestrator S) (name : string) (stepNames : list string)
    (data : DataMap) : Run (World S) (string + addr) :=
  let* sagaID := uuidNew uuid in
  let* created := onMachine (timeNow wall) in
  let* updated := onMachine (timeNow wall) in
  let* saga := onMachine (newSaga
                 (mkSaga sagaID name StatusPending [] data "" created updated)) in
  let* _ := forEach stepNames (appendStep sagaID saga) in
  let* err := onMachine (SaveSaga (storage o) saga) in
  match err with
  | Some e => ret (inl ("failed to save saga: " +:+ e))
  | None =>
      let* g := onMachine (loadSaga saga) in
      let* _ := when (0 <? length (Saga_Steps g))%nat
                  (let* first := index (Saga_Steps g) 0 in
                   Publish "saga_events"
                     (mkMessage "step_execute" sagaID (Step_ID first) data)) in
      ret (inr saga)
  end.

Definition continueOrComplete (o : Orchestrator S) (saga : addr) : Run (World S) unit :=
  let* g := onMachine (loadSaga saga) in
  let currentIndex := scanCompleted (Saga_Steps g) 0 (-1) in
  if (currentIndex + 1 <? Z.of_nat (length (Saga_Steps g)))%Z
  then
    let* nextStep := index (Saga_Steps g) (Z.to_nat (currentIndex + 1)) in
    Publish "saga_events"
      (mkMessage "step_execute" (Saga_ID g) (Step_ID nextStep) (Saga_Data g))
  else
    let* _ := onMachine (modifySaga saga (set_Saga_Status StatusCompleted)) in
    let* _ := onMachine (SaveSaga (storage o) saga) in
    ret tt.

(** [for i := len(saga.Steps) - 1; i >= 0; i--], with [n] standing for
    [i + 1]. *)
Fixpoint compensateFrom (saga : addr) (n : nat) : Run (World S) unit :=
  match n with
  | O => ret tt
  | Datatypes.S i =>
      let* g := onMachine (loadSaga saga) in
      let* step := index (Saga_Steps g) i in
      let* _ := when (bool_decide (Step_Status step = StatusCompleted))
                  (Publish "saga_events"
                     (mkMessage "step_compensate" (Saga_ID g) (Step_ID step) (Saga_Data g))) in
      compensateFrom saga i
  end.

Definition startCompensation (o : Orchestrator S) (saga : addr) : Run (World S) unit :=
  let* _ := onMachine (modifySaga saga (set_Saga_Status StatusFailed)) in
  let* _ := onMachine (SaveSaga (storage o) saga) in
  let* g := onMachine (loadSaga saga) in
  compensateFrom saga (length (Saga_Steps g)).

(** [for k, v := range execData { saga.Data[k] = v }] *)
Definition writeBack (saga : addr) (execData : gmap string Value) : Run (World S) unit :=
  let* g := onMachine (loadSaga saga) in
  match Saga_Data g with
  | Some d => onMachine (modifySaga saga (set_Saga_Data (Some (copyInto execData d))))
  | None =>
      if decide (execData = ∅) then ret tt
      else panic "assignment to entry in nil map"
  end.

Definition ExecuteStep (o : Orchestrator S) (stepID : string) : Run (World S) (option string) :=
  let* r := onMachine (GetStep (storage o) stepID) in
  match r with
  | inl err => ret (Some ("failed to get step: " +:+ err))
  | inr step =>
      let* s := onMachine (loadStep step) in
      if negb (bool_decide (Step_Status s = StatusPending)) then ret None
      else
        match handlers o !! Step_Name s with
        | None => ret (Some ("no handler for step: " +:+ Step_Name s))
        | Some handler =>
            let* now := onMachine (timeNow wall) in
            let* _ := onMachine (modifyStep step (set_Step_Status StatusProcessing)) in
            let* _ := onMachine (modifyStep step (set_Step_StartedAt (Some now))) in
            let* err := onMachine (UpdateStep (storage o) step) in
            match err with
            | Some e => ret (Some ("failed to mark step as processing: " +:+ e))
            | None =>
                let* s := onMachine (loadStep step) in
                let* r := onMachine (GetSaga (storage o) (Step_SagaID s)) in
                match r with
                | inl e => ret (Some ("failed to get saga: " +:+ e))
                | inr saga =>
                    let* g := onMachine (loadSaga saga) in
                    let* s := onMachine (loadStep step) in
                    let execData :=
                      copyInto (entriesOf (Step_Data s))
                        (copyInto (entriesOf (Saga_Data g)) ∅) in
                    match Execute handler execData with
                    | (_, Some e) =>
                        let* _ := onMachine (modifyStep step (set_Step_Status StatusFailed)) in
                        let* _ := onMachine (modifyStep step (set_Step_Error e)) in
                        let* _ := onMachine (UpdateStep (storage o) step) in
                        let* _ := startCompensation o saga in
                        ret None
                    | (execData, None) =>
                        let* _ := onMachine (modifyStep step
                                               (set_Step_Status StatusCompleted)) in
                        let* _ := onMachine (modifyStep step
                                               (set_Step_Data (Some execData))) in
                        let* _ := onMachine (UpdateStep (storage o) step) in
                        let* _ := writeBack saga execData in
                        let* _ := onMachine (SaveSaga (storage o) saga) in
                        let* _ := continueOrComplete o saga in
                        ret None
                    end
                end
            end
        end
  end.

Definition CompensateStep (o : Orchestrator S) (stepID : string)
  : Run (World S) (option string) :=
  let* r := onMachine (GetStep (storage o) stepID) in
  match r with
  | inl err => ret (Some ("failed to get step: " +:+ err))
  | inr step =>
      let* s := onMachine (loadStep step) in
      if negb (bool_decide (Step_Status s = StatusCompleted)) then ret None
      else
        match handlers o !! Step_Name s with
        | None => ret (Some ("no handler for step: " +:+ Step_Name s))
        | Some handler =>
            let* r := onMachine (GetSaga (storage o) (Step_SagaID s)) in
            match r with
            | inl e => ret (Some ("failed to get saga: " +:+ e))
            | inr saga =>
                let* g := onMachine (loadSaga saga) in
                let* s := onMachine (loadStep step) in
                let execData :=
                  copyInto (entriesOf (Step_Data s))
                    (copyInto (entriesOf (Saga_Data g)) ∅) in
                let* _ := match snd (Compensate handler execData) with
                          | Some e => onMachine (modifyStep step (set_Step_Error e))
                          | None => ret tt
                          end in
                let* _ := onMachine (modifyStep step (set_Step_Status StatusCompensated)) in
                let* _ := onMachine (UpdateStep (storage o) step) in
                ret None
            end
        end
  end.

(** The subscription callback installed by [StartListener]. *)
Definition dispatch (o : Orchestrator S) (msg : Message) : Run (World S) unit :=
  if decide (Msg_Type msg = "step_execute")
  then let* _ := ExecuteStep o (Msg_StepID msg) in ret tt
  else if decide (Msg_Type msg = "step_compensate")
  then let* _ := CompensateStep o (Msg_StepID msg) in ret tt
  else ret tt.
End Orchestrator.

(** ** RecoveryManager (storage.go) *)

Record RecoveryManager (S : Type) := mkRecoveryManager {
  rm_storage : Storage S;
  interval : Duration;
  stepTimeout : Duration;
  running : bool }.
Arguments mkRecoveryManager {S} _ _ _ _.
Arguments rm_storage {S} _.
Arguments interval {S} _.
Arguments stepTimeout {S} _.
Arguments running {S} _.

Definition Second : Duration := 1000000000%Z.

Definition NewRecoveryManager {S} (st : Storage S) : RecoveryManager S :=
  mkRecoveryManager st (5 * Second)%Z (10 * Second)%Z false.

Section RecoveryManager.
Context {S : Type}.

(** The body of the loop over the stuck steps.  [step] is the loop
    variable, a copy of the element; [&step] is the address of that copy,
    a variable of its own for each iteration (Go 1.22 and later). *)
Definition recoverStep (r : RecoveryManager S) (step : Step) : Run (World S) unit :=
  let* step :=
    match Step_Status step with
    | StatusProcessing =>
        let step := set_Step_Status StatusPending step in
        let step := set_Step_StartedAt None step in
        let* p := onMachine (newStep step) in
        let* _ := onMachine (UpdateStep (rm_storage r) p) in
        onMachine (loadStep p)
    | _ => ret step
    end in
  Publish "saga_events" (mkMessage "step_execute" (Step_SagaID step) (Step_ID step) None).

Definition recoverStuckSteps (r : RecoveryManager S) : Run (World S) unit :=
  let* res := onMachine (GetStuckSteps (rm_storage r) (stepTimeout r)) in
  match res with
  | inl _ => ret tt
  | inr stuckSteps => forEach stuckSteps (recoverStep r)
  end.
End RecoveryManager.

(** ** Builder (builder.go) *)

Record builderStep := mkBuilderStep {
  bs_name : string;
  bs_handler : StepHandler }.

Record Builder := mkBuilder {
  b_name : string;
  b_steps : list builderStep;
  b_data : gmap string Value }.

Definition NewBuilder (name : string) : Builder := mkBuilder name [] ∅.

Definition NewStepHandler
    (execute compensate : option (gmap string Value → gmap string Value * option string))
  : StepHandler :=
  StepFunc_handler (mkStepFunc execute compensate).

Definition Builder_Step (b : Builder) (name : string)
    (execute compensate : option (gmap string Value → gmap string Value * option string))
  : Builder :=
  mkBuilder (b_name b)
            (b_steps b ++ [mkBuilderStep name (NewStepHandler execute compensate)])
            (b_data b).

Definition Builder_WithData (b : Builder) (key : string) (value : Value) : Builder :=
  mkBuilder (b_name b) (b_steps b) (<[key := value]> (b_data b)).

Section Builder.
Context {S : Type}.
Variable wall : nat → Instant.
Variable uuid : nat → string.

(** [b.orchestrator] is a pointer: the handlers registered here stay
    registered, so the orchestrator is returned along with the result. *)
Definition Builder_Execute (b : Builder) (o : Orchestrator S)
  : Run (World S) (Orchestrator S * (string + addr)) :=
  if decide (length (b_steps b) = 0) then
    ret (o, inl "saga must have at least one step")
  else
    let o' := foldl (fun o step => RegisterHandler o (bs_name step) (bs_handler step))
                    o (b_steps b) in
    let stepNames := bs_name <$> b_steps b in
    let* r := StartSaga wall uuid o' (b_name b) stepNames (Some (b_data b)) in
    ret (o', r).
End Builder.

Definition emptyWorld : World MemDB :=
  mkWorld (mkMachine (mkHeap ∅ ∅) NewMemoryStorage 0) [] 0.

(** ** MemoryPubSub *)

(** A subscriber is a callback [func(Message)]; [go handler(msg)] starts a
    goroutine of type [G].  [Publish] is described by the goroutines it
    starts, in the order of the [for] loop, and the error it returns. *)
Record MemoryPubSub (G : Type) := mkMemoryPubSub {
  subscribers : gmap string (list (Message → G));
  closed : bool }.
Arguments mkMemoryPubSub {G} _ _.
Arguments subscribers {G} _.
Arguments closed {G} _.

Definition NewMemoryPubSub {G} : MemoryPubSub G := mkMemoryPubSub ∅ false.

Definition MemoryPubSub_Publish {G} (m : MemoryPubSub G) (topic : string) (msg : Message)
  : list G * option string :=
  if closed m then ([], None)
  else
    match subscribers m !! topic with
    | None => ([], None)
    | Some handlers => ((fun handler => handler msg) <$> handlers, None)
    end.

(** [m.subscribers[topic]] of a topic without entry is the nil slice. *)
Definition MemoryPubSub_Subscribe {G} (m : MemoryPubSub G) (topic : string)
    (handler : Message → G) : MemoryPubSub G * option string :=
  if closed m then (m, None)
  else
    (mkMemoryPubSub
       (<[topic := default [] (subscribers m !! topic) ++ [handler]]> (subscribers m))
       (closed m),
     None).

Definition MemoryPubSub_Close {G} (m : MemoryPubSub G) : MemoryPubSub G * option string :=
  (mkMemoryPubSub ∅ true, None).

(** ** The listener (orchestrator.go) *)

Section Listener.
Context {S : Type}.
Variable wall : nat → Instant.

Definition StartListener (o : Orchestrator S) (bus : MemoryPubSub (Run (World S) unit))
  : MemoryPubSub (Run (World S) unit) * option string :=
  MemoryPubSub_Subscribe bus "saga_events" (dispatch wall o).

(** One schedule of the goroutines started by [Publish]: the calls of
    [Publish] are served in the order they were made, and the goroutines
    of one call run one after the other, each to its end, before the next
    call is served.  [next] counts the calls served so far; the result is
    the count reached when no call is left or [fuel] calls were served.
    A panic in a goroutine ends the program. *)
Fixpoint serve (fuel : nat) (bus : MemoryPubSub (Run (World S) unit)) (next : nat)
  : Run (World S) nat :=
  match fuel with
  | O => ret next
  | Datatypes.S fuel =>
      fun w =>
        match published w !! next with
        | None => (w, Return next)
        | Some (topic, msg) =>
            (let* _ := forEach (fst (MemoryPubSub_Publish bus topic msg)) (fun g => g) in
             serve fuel bus (Datatypes.S next)) w
        end
  end.
End Listener.

(** ** Start and Stop of the recovery manager (storage.go) *)

Inductive chan :=
  | ChanOpen
  | ChanClosed.

(** A manager with its [stopCh] and the number of [recoveryLoop]
    goroutines started so far. *)
Record Lifecycle (S : Type) := mkLifecycle {
  manager : RecoveryManager S;
  stopCh : chan;
  loopsStarted : nat }.
Arguments mkLifecycle {S} _ _ _.
Arguments manager {S} _.
Arguments stopCh {S} _.
Arguments loopsStarted {S} _.

Definition set_running {S} (v : bool) (r : RecoveryManager S) : RecoveryManager S :=
  mkRecoveryManager (rm_storage r) (interval r) (stepTimeout r) v.

Definition NewLifecycle {S} (st : Storage S) : Lifecycle S :=
  mkLifecycle (NewRecoveryManager st) ChanOpen 0.

Definition RecoveryManager_Start {S} (l : Lifecycle S) : Lifecycle S :=
  if running (manager l) then l
  else mkLifecycle (set_running true (manager l)) (stopCh l) (Datatypes.S (loopsStarted l)).

(** [close] of a closed channel panics. *)
Definition RecoveryManager_Stop {S} (l : Lifecycle S) : Lifecycle S * outcome unit :=
  if negb (running (manager l)) then (l, Return tt)
  else
    let r := set_running false (manager l) in
    match stopCh l with
    | ChanOpen => (mkLifecycle r ChanClosed (loopsStarted l), Return tt)
    | ChanClosed => (mkLifecycle r ChanClosed (loopsStarted l), Panic "close of closed channel")
    end.

(** The case taken by one [select] of [recoveryLoop]. *)
Inductive selected :=
  | CtxDone
  | StopCh
  | TickerC.

(** [recoveryLoop] along the cases its [select] takes; at the end of the
    list the loop is waiting. *)
Fixpoint recoveryLoop {S} (r : RecoveryManager S) (cases : list selected)
  : Run (World S) unit :=
  match cases with
  | [] => ret tt
  | TickerC :: rest => let* _ := recoverStuckSteps r in recoveryLoop r rest
  | _ :: _ => ret tt
  end.

(** ** Vocabulary of the statements *)

(** A step, and a saga, up to the timestamps the storage maintains. *)
Definition stepCore (s : Step) : Step := set_Step_UpdatedAt 0 (set_Step_CreatedAt 0 s).
Definition sagaCore (g : Saga) : Saga :=
  set_Saga_UpdatedAt 0 (set_Saga_CreatedAt 0 (set_Saga_Steps (stepCore <$> Saga_Steps g) g)).

(** The index [m.steps] after [SaveSaga] has visited the steps [l], the first
    of which is element [i] of the saga at [saga]. *)
Fixpoint saveIndex (saga : addr) (i : nat) (l : list Step) (idx : gmap string StepPtr)
  : gmap string StepPtr :=
  match l with
  | [] => idx
  | s :: rest => saveIndex saga (S i) rest (<[Step_ID s := InSaga saga i]> idx)
  end.

Definition sagaMeta (g : Saga) : Saga :=
  set_Saga_UpdatedAt 0 (set_Saga_CreatedAt 0 (set_Saga_Steps [] g)).

Definition stepIDs (g : Saga) : list string := Step_ID <$> Saga_Steps g.

(** [h'] differs from [h] at most in steps whose identifier is [id] (which
    keep it) and in the timestamps of sagas. *)
Definition stepFrame (id : string) (h h' : Heap) : Prop :=
  (∀ a, sagaMeta <$> sagaObjs h' !! a = sagaMeta <$> sagaObjs h !! a)
  ∧ (∀ a, stepIDs <$> sagaObjs h' !! a = stepIDs <$> sagaObjs h !! a)
  ∧ (∀ q sq, deref h q = Some sq → Step_ID sq ≠ id → deref h' q = Some sq).

(** The steps held by [m.steps], in the order of [map_to_list]. *)
Definition storedSteps (m : Machine MemDB) : list Step :=
  omap (λ e, deref (heap m) e.2) (map_to_list (steps (db m))).

(** "Stuck" in the words of the storage contract: pending and last updated
    before [now - timeout], or processing and started before
    [now - timeout]. *)
Definition isStuck (now : Instant) (timeout : Duration) (s : Step) : Prop :=
  (Step_Status s = StatusPending ∧ (Step_UpdatedAt s < now - timeout)%Z)
  ∨ (Step_Status s = StatusProcessing
     ∧ ∃ started, Step_StartedAt s = Some started ∧ (started < now - timeout)%Z).

#[global] Instance isStuck_dec now timeout s : Decision (isStuck now timeout s).
Proof.
  unfold isStuck.
  destruct (Step_StartedAt s) as [t|].
  - destruct (decide (Step_Status s = StatusProcessing ∧ (t < now - timeout)%Z)) as [H|H].
    + left. right. destruct H. eauto.
    + destruct (decide (Step_Status s = StatusPending
                        ∧ (Step_UpdatedAt s < now - timeout)%Z)) as [H'|H'].
      * left. by left.
      * right. intros [?|(? & t' & [= <-] & ?)]; tauto.
  - destruct (decide (Step_Status s = StatusPending
                      ∧ (Step_UpdatedAt s < now - timeout)%Z)) as [H'|H'].
    + left. by left.
    + right. intros [?|(? & t' & [=] & ?)]. tauto.
Defined.

(** The steps [StartSaga] builds for [names], drawing identifiers from
    [uuid u] on and clock readings from [wall t] on. *)
Fixpoint newSteps (wall : nat → Instant) (uuid : nat → string) (sagaID : string)
    (names : list string) (u t : nat) : list Step :=
  match names with
  | [] => []
  | name :: rest =>
      mkStep (uuid u) sagaID name StatusPending (Some ∅) "" "" None (wall t) (wall (S t))
      :: newSteps wall uuid sagaID rest (S u) (S (S t))
  end.

(** The saga [StartSaga] hands to [SaveSaga]. *)
Definition newSagaValue (wall : nat → Instant) (uuid : nat → string) (name : string)
    (names : list string) (data : DataMap) (u t : nat) : Saga :=
  mkSaga (uuid u) name StatusPending
         (newSteps wall uuid (uuid u) names (S u) (S (S t)))
         data "" (wall t) (wall (S t)).

(** What [StartSaga] publishes: the execution of step 0, when there is one. *)
Definition firstMessage (uuid : nat → string) (names : list string) (data : DataMap)
    (u : nat) : list (string * Message) :=
  match names with
  | [] => []
  | _ :: _ => [("saga_events", mkMessage "step_execute" (uuid u) (uuid (S u)) data)]
  end.

(** The [step_compensate] messages for the completed steps of a saga, the
    last step first. *)
Definition compensations (g : Saga) : list (string * Message) :=
  (λ s, ("saga_events",
         mkMessage "step_compensate" (Saga_ID g) (Step_ID s) (Saga_Data g)))
  <$> filter (λ s, Step_Status s = StatusCompleted) (reverse (Saga_Steps g)).



(** Every saga the in-memory index points to is live. *)
Definition sagasLive (m : Machine MemDB) : Prop :=
  map_Forall (λ _ a, is_Some (sagaObjs (heap m) !! a)) (sagas (db m)).

(** No saga of [h'] has an error text that it did not already have in [h]:
    each one is either new with an empty error, or has the error field it
    had in [h]. *)
Definition errorsKept (h h' : Heap) : Prop :=
  ∀ a g', sagaObjs h' !! a = Some g' →
          Saga_Error g' = "" ∨ ∃ g, sagaObjs h !! a = Some g ∧ Saga_Error g' = Saga_Error g.

(** A computation that keeps the saga errors of the heap seen through
    [proj]. *)
Definition keeps {St A} (proj : St → Heap) (c : Run St A) : Prop :=
  ∀ s, errorsKept (proj s) (proj (fst (c s))).

(** One operation of an orchestrator, a builder or a recovery manager run
    against the in-memory storage, with any handlers and in any order of
    visit of the maps. *)
Inductive operation (wall : nat → Instant) (uuid : nat → string)
  : World MemDB → World MemDB → Prop :=
  | op_StartSaga visit hs name names data w :
      operation wall uuid w
        (fst (StartSaga wall uuid (mkOrchestrator (MemoryStorage wall visit) hs)
                name names data w))
  | op_ExecuteStep visit hs stepID w :
      operation wall uuid w
        (fst (ExecuteStep wall (mkOrchestrator (MemoryStorage wall visit) hs) stepID w))
  | op_CompensateStep visit hs stepID w :
      operation wall uuid w
        (fst (CompensateStep (mkOrchestrator (MemoryStorage wall visit) hs) stepID w))
  | op_dispatch visit hs msg w :
      operation wall uuid w
        (fst (dispatch wall (mkOrchestrator (MemoryStorage wall visit) hs) msg w))
  | op_Builder_Execute visit hs b w :
      operation wall uuid w
        (fst (Builder_Execute wall uuid b
                (mkOrchestrator (MemoryStorage wall visit) hs) w))
  | op_recoverStuckSteps visit every timeout active w :
      operation wall uuid w
        (fst (recoverStuckSteps
                (mkRecoveryManager (MemoryStorage wall visit) every timeout active) w)).

(** The states reached from the empty storage. *)
Definition reachable (wall : nat → Instant) (uuid : nat → string) (w : World MemDB) : Prop :=
  rtc (operation wall uuid) emptyWorld w.

(** ** Vocabulary of the further properties *)

(** The element [s] of a saga after the body of the loop of [SaveSaga]
    entered at clock reading number [t], and the number of the next
    reading. *)
Definition stampStep (wall : nat → Instant) (t : nat) (s : Step) : Step * nat :=
  if IsZero (Step_CreatedAt s)
  then (set_Step_UpdatedAt (wall (S t)) (set_Step_CreatedAt (wall t) s), S (S t))
  else (set_Step_UpdatedAt (wall t) s, S t).

Fixpoint stampSteps (wall : nat → Instant) (t : nat) (l : list Step) : list Step * nat :=
  match l with
  | [] => ([], t)
  | s :: rest =>
      let '(s', t1) := stampStep wall t s in
      let '(rest', t2) := stampSteps wall t1 rest in
      (s' :: rest', t2)
  end.

(** What [continueOrComplete] publishes for a saga: the execution of its
    first step that is not completed, when there is one. *)
Definition nextMessage (g : Saga) : list (string * Message) :=
  match list_find (λ s, Step_Status s ≠ StatusCompleted) (Saga_Steps g) with
  | Some (_, s) =>
      [("saga_events", mkMessage "step_execute" (Saga_ID g) (Step_ID s) (Saga_Data g))]
  | None => []
  end.

(** A pending step as a successful [ExecuteStep] that started at clock
    reading [now] and got the data [d] from the handler leaves it, up to
    [UpdatedAt]. *)
Definition completedStep (now : Instant) (d : gmap string Value) (s : Step) : Step :=
  set_Step_Data (Some d)
    (set_Step_Status StatusCompleted (set_Step_StartedAt (Some now) s)).

(** The saga stored at address [a] under the identifier [sid]: its steps
    have the names [names] and the identifiers [ids], step [i] has the
    status [st i], belongs to the saga and is indexed by the address of
    element [i] of the saga's array, and a pending step has empty data.
    The saga has the data [sd], the status [sst] and no error text. *)
Definition shaped (a : nat) (sid : string) (names ids : list string) (st : nat → Status)
    (sd : gmap string Value) (sst : Status) (w : World MemDB) : Prop :=
  ∃ g, sagaObjs (heap (machine w)) !! a = Some g
       ∧ sagas (db (machine w)) !! sid = Some a
       ∧ Saga_ID g = sid
       ∧ Saga_Data g = Some sd
       ∧ Saga_Status g = sst
       ∧ Saga_Error g = ""
       ∧ Step_ID <$> Saga_Steps g = ids
       ∧ Step_Name <$> Saga_Steps g = names
       ∧ ∀ i s, Saga_Steps g !! i = Some s →
                Step_SagaID s = sid
                ∧ Step_Status s = st i
                ∧ (st i = StatusPending → Step_Data s = Some ∅)
                ∧ steps (db (machine w)) !! Step_ID s = Some (InSaga a i).

(** The first [k] steps are completed and the others are pending. *)
Definition upTo (k : nat) (i : nat) : Status :=
  if decide (i < k) then StatusCompleted else StatusPending.

(** The data of a saga after the forward actions of the steps named
    [names] have succeeded one after the other on the data [d]: each
    action gets the data left by the actions before it, and what it
    leaves is written over them. *)
Definition forward (hs : gmap string StepHandler) (names : list string)
    (d : gmap string Value) : gmap string Value :=
  foldl (λ d name,
           match hs !! name with
           | Some h => copyInto (Execute h d).1 d
           | None => d
           end) d names.

(** Topic, type, saga and step of a published message. *)
Definition header (tm : string * Message) : string * string * string * string :=
  (tm.1, Msg_Type tm.2, Msg_SagaID tm.2, Msg_StepID tm.2).

(** A pending step as [ExecuteStep] leaves it when its forward action,
    started at clock reading [now], fails with the text [e], up to
    [UpdatedAt]. *)
Definition failedStep (now : Instant) (e : string) (s : Step) : Step :=
  set_Step_Error e (set_Step_Status StatusFailed (set_Step_StartedAt (Some now) s)).

(** A completed step as [CompensateStep] leaves it when the compensating
    action returns [err], up to [UpdatedAt]. *)
Definition compensatedStep (err : option string) (s : Step) : Step :=
  set_Step_Status StatusCompensated
    match err with
    | Some e => set_Step_Error e s
    | None => s
    end.

(** The first [j] steps are completed, the steps from [j] up to [k] are
    compensated, step [k] has failed and the others are pending. *)
Definition undoneTo (j k : nat) (i : nat) : Status :=
  if decide (i < j) then StatusCompleted
  else if decide (i < k) then StatusCompensated
  else if decide (i = k) then StatusFailed
  else StatusPending.

(** Every entry of the two indexes of the in-memory storage leads to a
    live object that carries the identifier it is filed under. *)
Definition indexed (m : Machine MemDB) : Prop :=
  (∀ id a, sagas (db m) !! id = Some a →
           ∃ g, sagaObjs (heap m) !! a = Some g ∧ Saga_ID g = id)
  ∧ (∀ id p, steps (db m) !! id = Some p →
             ∃ s, deref (heap m) p = Some s ∧ Step_ID s = id).

(** A computation that keeps the indexes consistent, on the machine seen
    through [proj]. *)
Definition sound {St A} (proj : St → Machine MemDB) (c : Run St A) : Prop :=
  ∀ s, indexed (proj s) → indexed (proj (c s).1).

(** ** A concrete scenario *)

(** The clock, the identifier generator and the handlers used to
    exercise the statements on a saga of three steps: [a] succeeds, [b]
    fails with ["boom"], [c] has no handler. *)
Definition wall0 (n : nat) : Z := (1000 + Z.of_nat n)%Z.
Definition uuid0 (n : nat) : string := "id" +:+ pretty n.
Definition okHandler : StepHandler :=
  mkStepHandler (fun d => (<["done" := VBool true]> d, None)) (fun d => (d, None)).
Definition boomHandler : StepHandler :=
  mkStepHandler (fun d => (d, Some "boom")) (fun d => (d, Some "undo failed")).
Definition handlers0 : gmap string StepHandler :=
  <["b" := boomHandler]> (<["a" := okHandler]> ∅).
Definition visit0 (l : list (string * StepPtr)) : list (string * StepPtr) := l.
Definition orch0 : Orchestrator MemDB :=
  mkOrchestrator (MemoryStorage wall0 visit0) handlers0.
Definition world1 : World MemDB :=
  fst (StartSaga wall0 uuid0 orch0 "order" ["a"; "b"; "c"] (Some ∅) emptyWorld).
Definition world2 : World MemDB := fst (ExecuteStep wall0 orch0 "id1" world1).
Definition world3 : World MemDB := fst (ExecuteStep wall0 orch0 "id2" world2).

(** A storage backend that is down: every operation fails and changes
    nothing. *)
Definition brokenStorage : Storage unit :=
  mkStorage unit
    (fun _ => ret (Some "disk full"))
    (fun _ => ret (inl "unavailable"))
    (fun _ => ret (Some "unavailable"))
    (fun _ => ret (inl "unavailable"))
    (ret (inl "unavailable"))
    (fun _ => ret (inl "unavailable")).

Definition brokenWorld : World unit := mkWorld (mkMachine (mkHeap ∅ ∅) tt 0) [] 0.



(** * Proofs *)

(** ** Running computations *)

Section RunLemmas.
Context {St A B : Type}.

Lemma bind_Return (c : Run St A) (k : A → Run St B) s s' a :
  c s = (s', Return a) → bind c k s = k a s'.
Proof. intros H. unfold bind. by rewrite H. Qed.

End RunLemmas.

Lemma onMachine_Return {S A} (c : Run (Machine S) A) (w : World S) m a :
  c (machine w) = (m, Return a) →
  onMachine c w = (mkWorld m (published w) (uuids w), Return a).
Proof. intros H. unfold onMachine. by rewrite H. Qed.

Lemma deref_InSaga h a i g :
  sagaObjs h !! a = Some g → deref h (InSaga a i) = Saga_Steps g !! i.
Proof. intros H. simpl. by rewrite H. Qed.

Lemma storeStep_InSaga h a i g s :
  sagaObjs h !! a = Some g →
  storeStep h (InSaga a i) s = storeSaga h a (set_Saga_Steps (<[i := s]> (Saga_Steps g)) g).
Proof. intros H. simpl. by rewrite H. Qed.

Lemma storeSaga_lookup h a g : sagaObjs (storeSaga h a g) !! a = Some g.
Proof. apply lookup_insert_eq. Qed.


Lemma storeSaga_storeSaga h a g g' : storeSaga (storeSaga h a g) a g' = storeSaga h a g'.
Proof. unfold storeSaga. simpl. by rewrite insert_insert_eq. Qed.

Lemma deref_storeSaga h a g i : deref (storeSaga h a g) (InSaga a i) = Saga_Steps g !! i.
Proof. apply deref_InSaga, storeSaga_lookup. Qed.

Lemma storeStep_storeSaga h a g i s :
  storeStep (storeSaga h a g) (InSaga a i) s
  = storeSaga h a (set_Saga_Steps (<[i := s]> (Saga_Steps g)) g).
Proof.
  rewrite (storeStep_InSaga _ _ _ g) by apply storeSaga_lookup.
  apply storeSaga_storeSaga.
Qed.


Section MachineLemmas.
Context {S : Type}.
Implicit Types m : Machine S.

Lemma loadSaga_run m a g :
  sagaObjs (heap m) !! a = Some g → loadSaga a m = (m, Return g).
Proof. intros H. unfold loadSaga. by rewrite H. Qed.

Lemma modifySaga_run m a g f :
  sagaObjs (heap m) !! a = Some g →
  modifySaga a f m = (mkMachine (storeSaga (heap m) a (f g)) (db m) (ticks m), Return tt).
Proof. intros H. unfold modifySaga. by rewrite H. Qed.

Lemma loadStep_run m p s :
  deref (heap m) p = Some s → loadStep p m = (m, Return s).
Proof. intros H. unfold loadStep. by rewrite H. Qed.

Lemma modifyStep_run m p s f :
  deref (heap m) p = Some s →
  modifyStep p f m = (mkMachine (storeStep (heap m) p (f s)) (db m) (ticks m), Return tt).
Proof. intros H. unfold modifyStep. by rewrite H. Qed.
End MachineLemmas.

Section SaveSaga.
Variable wall : nat → Z.

Lemma saveStep_spec (m : Machine MemDB) a i g s :
  sagaObjs (heap m) !! a = Some g →
  Saga_Steps g !! i = Some s →
  ∃ s' t',
    saveStep wall a i m
    = (mkMachine (storeSaga (heap m) a (set_Saga_Steps (<[i := s']> (Saga_Steps g)) g))
                 (mkMemDB (sagas (db m)) (<[Step_ID s := InSaga a i]> (steps (db m))))
                 t', Return tt)
    ∧ stepCore s' = stepCore s ∧ (ticks m ≤ t')%nat.
Proof.
  intros Hg Hs.
  assert (Hi : i < length (Saga_Steps g)) by (by eapply lookup_lt_Some).
  destruct (IsZero (Step_CreatedAt s)) eqn:Hz; eexists _, _;
    unfold saveStep, bind, loadStep, when, timeNow, modifyStep, modifyDB, ret;
    rewrite (deref_InSaga _ _ _ _ Hg), Hs, Hz; cbn [heap db ticks];
    rewrite ?(deref_InSaga _ _ _ _ Hg), ?Hs; cbn [heap db ticks];
    rewrite (storeStep_InSaga _ _ _ _ _ Hg);
    repeat first
      [ rewrite deref_storeSaga
      | rewrite storeStep_storeSaga
      | rewrite list_lookup_insert_eq by done
      | rewrite list_insert_insert_eq
      | progress cbn [heap db ticks Saga_Steps set_Saga_Steps] ].
  all: (split; [reflexivity|]; split; [reflexivity | lia]).
Qed.

Lemma storeSaga_id h a g : sagaObjs h !! a = Some g → storeSaga h a g = h.
Proof. intros H. destruct h. unfold storeSaga. simpl in *. by rewrite insert_id. Qed.

Lemma saveLoop_spec a rest : ∀ done (m : Machine MemDB) g,
  sagaObjs (heap m) !! a = Some g →
  Saga_Steps g = done ++ rest →
  ∃ rest' t',
    forEach (seq (length done) (length rest)) (saveStep wall a) m
    = (mkMachine (storeSaga (heap m) a (set_Saga_Steps (done ++ rest') g))
                 (mkMemDB (sagas (db m)) (saveIndex a (length done) rest (steps (db m))))
                 t', Return tt)
    ∧ stepCore <$> rest' = stepCore <$> rest ∧ (ticks m ≤ t')%nat.
Proof.
  induction rest as [|s rest IH]; intros done m g Hg Hsteps.
  - exists [], (ticks m). split; [|done].
    simpl. unfold ret. rewrite app_nil_r in *. rewrite <- Hsteps.
    replace (set_Saga_Steps (Saga_Steps g) g) with g by (by destruct g).
    rewrite storeSaga_id by done. by destruct m as [? [] ?].
  - assert (Hs : Saga_Steps g !! length done = Some s)
      by (rewrite Hsteps; apply list_lookup_middle; done).
    destruct (saveStep_spec m a _ g s Hg Hs) as (s' & t1 & Hrun & Hcore & Ht).
    simpl. rewrite (bind_Return _ _ _ _ _ Hrun).
    set (g1 := set_Saga_Steps (<[length done := s']> (Saga_Steps g)) g) in *.
    assert (Hsteps1 : Saga_Steps g1 = (done ++ [s']) ++ rest).
    { subst g1. simpl. rewrite Hsteps, insert_app_r_alt, Nat.sub_diag by done.
      simpl. by rewrite <- app_assoc. }
    match type of Hrun with _ = (?m1, _) =>
      destruct (IH (done ++ [s']) m1 g1 (storeSaga_lookup _ _ _) Hsteps1)
        as (rest' & t' & Hloop & Hcores & Ht')
    end.
    rewrite length_app, Nat.add_1_r in Hloop. simpl in Hloop.
    exists (s' :: rest'), t'. split; [|split].
    + rewrite Hloop. rewrite storeSaga_storeSaga. rewrite <- app_assoc. reflexivity.
    + rewrite !fmap_cons, Hcore. f_equal. exact Hcores.
    + simpl in Ht'. lia.
Qed.

Lemma SaveSaga_spec (m : Machine MemDB) a g :
  sagaObjs (heap m) !! a = Some g →
  ∃ g' t',
    MemoryStorage_SaveSaga wall a m
    = (mkMachine (storeSaga (heap m) a g')
                 (mkMemDB (<[Saga_ID g := a]> (sagas (db m)))
                          (saveIndex a 0 (Saga_Steps g) (steps (db m))))
                 t', Return None)
    ∧ sagaCore g' = sagaCore g ∧ (ticks m ≤ t')%nat.
Proof.
  intros Hg. unfold MemoryStorage_SaveSaga.
  unfold bind at 1. unfold timeNow at 1.
  erewrite bind_Return by (by apply modifySaga_run).
  erewrite bind_Return by (apply loadSaga_run, storeSaga_lookup).
  cbn [Saga_CreatedAt set_Saga_UpdatedAt].
  set (g1 := set_Saga_UpdatedAt _ g).
  assert (∃ g2 t2,
    when (IsZero (Saga_CreatedAt g))
      (let* now := timeNow wall in modifySaga a (set_Saga_CreatedAt now))
      (mkMachine (storeSaga (heap m) a g1) (db m) (Datatypes.S (ticks m)))
    = (mkMachine (storeSaga (heap m) a g2) (db m) t2, Return tt)
    ∧ sagaCore g2 = sagaCore g ∧ Saga_Steps g2 = Saga_Steps g
    ∧ Saga_ID g2 = Saga_ID g ∧ (ticks m ≤ t2)%nat) as (g2 & t2 & Hw & Hc2 & Hst2 & Hid2 & Ht2).
  { destruct (IsZero (Saga_CreatedAt g)); simpl.
    - unfold bind at 1. unfold timeNow at 1.
      erewrite modifySaga_run by apply storeSaga_lookup. cbn [heap db ticks].
      rewrite storeSaga_storeSaga. eexists _, _. split; [reflexivity|].
      repeat split; try reflexivity. lia.
    - unfold ret. eexists _, _. split; [reflexivity|].
      repeat split; try reflexivity. lia. }
  rewrite (bind_Return _ _ _ _ _ Hw).
  erewrite bind_Return by (apply loadSaga_run, storeSaga_lookup).
  unfold bind at 1. unfold modifyDB at 1. cbn [heap db ticks].
  match goal with |- context [bind (forEach _ _) _ ?m1] =>
    destruct (saveLoop_spec a (Saga_Steps g2) [] m1 g2 (storeSaga_lookup _ _ _) eq_refl)
      as (rest' & t' & Hloop & Hcores & Ht')
  end.
  simpl length in Hloop at 1. rewrite (bind_Return _ _ _ _ _ Hloop).
  cbn [heap db ticks sagas steps] in *. rewrite storeSaga_storeSaga.
  eexists _, _. split; [|split].
  - unfold ret. rewrite Hid2, Hst2. reflexivity.
  - rewrite <- Hc2. unfold sagaCore. simpl. by rewrite Hcores.
  - lia.
Qed.
End SaveSaga.

(** ** Frames on the heap *)

Lemma stepFrame_refl id h : stepFrame id h h.
Proof. by repeat split. Qed.

Lemma stepFrame_trans id h1 h2 h3 :
  stepFrame id h1 h2 → stepFrame id h2 h3 → stepFrame id h1 h3.
Proof.
  intros (A1 & B1 & C1) (A2 & B2 & C2). repeat split.
  - intros a. by rewrite A2, A1.
  - intros a. by rewrite B2, B1.
  - intros q sq H Hne. apply C2; [|done]. by apply C1.
Qed.

Lemma deref_storeStep_same h p s :
  is_Some (deref h p) → deref (storeStep h p s) p = Some s.
Proof.
  intros [s0 H]. destruct p as [a i|c]; simpl in *.
  - destruct (sagaObjs h !! a) as [g|] eqn:Hg; [|done].
    simpl. rewrite lookup_insert_eq. simpl.
    apply list_lookup_insert_eq. by eapply lookup_lt_Some.
  - apply lookup_insert_eq.
Qed.

Lemma deref_storeStep_ne h p q s :
  p ≠ q → deref (storeStep h p s) q = deref h q.
Proof.
  intros Hne. destruct p as [a i|c], q as [a' j|c']; simpl.
  - destruct (sagaObjs h !! a) as [g|] eqn:Hg; [|done]. simpl.
    destruct (decide (a = a')) as [<-|Ha].
    + rewrite lookup_insert_eq, Hg. simpl.
      apply list_lookup_insert_ne. congruence.
    + by rewrite lookup_insert_ne.
  - by destruct (sagaObjs h !! a).
  - done.
  - apply lookup_insert_ne. congruence.
Qed.

Lemma storeStep_frame h p s0 s :
  deref h p = Some s0 → Step_ID s = Step_ID s0 → stepFrame (Step_ID s0) h (storeStep h p s).
Proof.
  intros Hp Hid. repeat split.
  - intros a. destruct p as [a' i|c]; simpl in *; [|done].
    destruct (sagaObjs h !! a') as [g|] eqn:Hg; [|done]. simpl.
    destruct (decide (a' = a)) as [<-|Ha].
    + by rewrite lookup_insert_eq, Hg.
    + by rewrite lookup_insert_ne.
  - intros a. destruct p as [a' i|c]; simpl in *; [|done].
    destruct (sagaObjs h !! a') as [g|] eqn:Hg; [|done]. simpl.
    destruct (decide (a' = a)) as [<-|Ha].
    + rewrite lookup_insert_eq, Hg. simpl. f_equal. unfold stepIDs. simpl.
      rewrite list_fmap_insert, Hid. apply list_insert_id.
      by rewrite list_lookup_fmap, Hp.
    + by rewrite lookup_insert_ne.
  - intros q sq Hq Hne. destruct (decide (p = q)) as [<-|Hpq].
    + congruence.
    + by rewrite deref_storeStep_ne.
Qed.

Lemma storeSaga_frame id h a g g' :
  sagaObjs h !! a = Some g → sagaMeta g' = sagaMeta g → Saga_Steps g' = Saga_Steps g →
  stepFrame id h (storeSaga h a g').
Proof.
  intros Hg Hm Hs. repeat split.
  - intros a'. unfold storeSaga. cbn [sagaObjs].
    destruct (decide (a = a')) as [<-|Ha].
    + rewrite lookup_insert_eq, Hg. cbn [fmap option_fmap option_map]. by rewrite Hm.
    + by rewrite lookup_insert_ne.
  - intros a'. unfold storeSaga. cbn [sagaObjs].
    destruct (decide (a = a')) as [<-|Ha].
    + rewrite lookup_insert_eq, Hg. cbn [fmap option_fmap option_map].
      unfold stepIDs. by rewrite Hs.
    + by rewrite lookup_insert_ne.
  - intros [a' i|c] sq; simpl; [|done].
    destruct (decide (a = a')) as [<-|Ha].
    + rewrite lookup_insert_eq, Hg. by rewrite Hs.
    + by rewrite lookup_insert_ne.
Qed.

(** ** UpdateStep *)

Lemma copyIntoSaga_spec a p s' l : ∀ k (m : Machine MemDB) g,
  sagaObjs (heap m) !! a = Some g →
  deref (heap m) p = Some s' →
  drop k (Saga_Steps g) = l →
  copyIntoSaga a p (seq k (length l)) m
  = (mkMachine
       match list_find (λ x, Step_ID x = Step_ID s') l with
       | Some (i, _) => storeStep (heap m) (InSaga a (k + i)) s'
       | None => heap m
       end (db m) (ticks m), Return tt).
Proof.
  induction l as [|x l IH]; intros k m g Hg Hp Hdrop.
  - by destruct m.
  - assert (Hx : Saga_Steps g !! k = Some x).
    { rewrite <- (Nat.add_0_r k), <- lookup_drop, Hdrop. done. }
    assert (Hdrop' : drop (S k) (Saga_Steps g) = l).
    { rewrite (drop_S _ _ _ Hx) in Hdrop. congruence. }
    cbn [length seq copyIntoSaga].
    erewrite bind_Return by (apply loadStep_run; by rewrite (deref_InSaga _ _ _ _ Hg)).
    erewrite bind_Return by (by apply loadStep_run).
    cbn [list_find]. destruct (decide (Step_ID x = Step_ID s')) as [Heq|Hne].
    + erewrite modifyStep_run by (by rewrite (deref_InSaga _ _ _ _ Hg)).
      by rewrite Nat.add_0_r.
    + rewrite (IH (S k) m g Hg Hp Hdrop').
      destruct (list_find _ l) as [[i y]|]; simpl; [|done].
      by rewrite Nat.add_succ_r.
Qed.

Section UpdateStep.
Variable wall : nat → Z.

Lemma UpdateStep_spec (m : Machine MemDB) p s :
  deref (heap m) p = Some s →
  (∀ a, sagas (db m) !! Step_SagaID s = Some a → is_Some (sagaObjs (heap m) !! a)) →
  let s' := set_Step_UpdatedAt (wall (ticks m)) s in
  ∃ h' t',
    MemoryStorage_UpdateStep wall p m
    = (mkMachine h' (mkMemDB (sagas (db m)) (<[Step_ID s := p]> (steps (db m)))) t',
       Return None)
    ∧ deref h' p = Some s'
    ∧ stepFrame (Step_ID s) (heap m) h'
    ∧ (∀ a g i si,
         sagas (db m) !! Step_SagaID s = Some a →
         sagaObjs (heap m) !! a = Some g →
         Saga_Steps g !! i = Some si →
         Step_ID si = Step_ID s →
         NoDup (stepIDs g) →
         deref h' (InSaga a i) = Some s')
    ∧ (ticks m ≤ t')%nat.
Proof.
  intros Hp Hvalid s'.
  unfold MemoryStorage_UpdateStep.
  unfold bind at 1. unfold timeNow at 1.
  erewrite bind_Return by (by apply modifyStep_run). fold s'.
  set (h1 := storeStep (heap m) p s').
  assert (Hp1 : deref h1 p = Some s') by (apply deref_storeStep_same; eauto).
  assert (Hf1 : stepFrame (Step_ID s) (heap m) h1) by (by apply storeStep_frame).
  erewrite bind_Return by (by apply loadStep_run).
  unfold bind at 1. unfold modifyDB at 1. unfold bind at 1. unfold getDB at 1.
  cbn [heap db ticks sagas steps Step_ID Step_SagaID set_Step_UpdatedAt s'].
  destruct (sagas (db m) !! Step_SagaID s) as [a|] eqn:Ha.
  - destruct (Hvalid a eq_refl) as [g Hg].
    destruct Hf1 as (Hm1 & Hi1 & Ho1).
    destruct (sagaObjs h1 !! a) as [g1|] eqn:Hg1.
    2:{ specialize (Hm1 a). rewrite Hg1, Hg in Hm1. done. }
    assert (Hids : stepIDs g1 = stepIDs g).
    { specialize (Hi1 a). rewrite Hg1, Hg in Hi1. by injection Hi1. }
    assert (Hlen : length (Saga_Steps g1) = length (Saga_Steps g)).
    { unfold stepIDs in Hids. by rewrite <- (length_fmap Step_ID), Hids, length_fmap. }
    unfold bind at 1.
    erewrite bind_Return by (by apply loadSaga_run).
    erewrite bind_Return; cycle 1.
    { erewrite (copyIntoSaga_spec a p s' _ 0) by (cbn [heap]; eauto). reflexivity. }
    cbn [heap db ticks]. fold h1.
    set (h2 := match list_find _ (Saga_Steps g1) with
               | Some (i, _) => storeStep h1 (InSaga a (0 + i)) s'
               | None => h1
               end).
    assert (Hh2 : deref h2 p = Some s' ∧ stepFrame (Step_ID s) h1 h2).
    { subst h2. destruct (list_find _ _) as [[i x]|] eqn:Hfind.
      - apply list_find_Some in Hfind as (Hx & Hidx & _). simpl in Hidx.
        assert (Hdx : deref h1 (InSaga a i) = Some x)
          by (by rewrite (deref_InSaga _ _ _ _ Hg1)).
        split.
        + destruct (decide (InSaga a i = p)) as [<-|Hne].
          * apply deref_storeStep_same. eauto.
          * by rewrite deref_storeStep_ne.
        + rewrite <- Hidx. apply storeStep_frame; [done|]. by rewrite Hidx.
      - split; [done | apply stepFrame_refl]. }
    destruct Hh2 as (Hp2 & Hf2).
    assert (Hf02 : stepFrame (Step_ID s) (heap m) h2).
    { eapply stepFrame_trans; [|exact Hf2]. by repeat split. }
    destruct (sagaObjs h2 !! a) as [g2|] eqn:Hg2.
    2:{ destruct Hf02 as (Hm2 & _). specialize (Hm2 a). rewrite Hg2, Hg in Hm2. done. }
    unfold bind at 1. unfold timeNow at 1. cbv beta iota. cbn [heap db ticks].
    erewrite modifySaga_run by (cbn [heap]; exact Hg2).
    cbn [heap db ticks]. unfold ret.
    eexists _, _. split; [reflexivity|].
    assert (Hf3 : stepFrame (Step_ID s) h2
              (storeSaga h2 a (set_Saga_UpdatedAt (wall (S (ticks m))) g2)))
      by (by eapply storeSaga_frame).
    assert (Hd3 : ∀ q, deref (storeSaga h2 a (set_Saga_UpdatedAt (wall (S (ticks m))) g2)) q
                       = deref h2 q).
    { intros [a' j|c]; simpl; [|done].
      destruct (decide (a = a')) as [<-|Hne].
      - by rewrite lookup_insert_eq, Hg2.
      - by rewrite lookup_insert_ne. }
    split; [by rewrite Hd3|]. split; [by eapply stepFrame_trans|]. split; [|lia].
    intros a0 g0 i si Ha0 Hg0 Hsi Hidsi Hnd.
    assert (a0 = a) as -> by congruence. assert (g0 = g) as -> by congruence.
    rewrite Hd3. subst h2.
    assert (Hi : stepIDs g1 !! i = Some (Step_ID s)).
    { rewrite Hids. unfold stepIDs. by rewrite list_lookup_fmap, Hsi, <- Hidsi. }
    destruct (list_find _ _) as [[i0 x]|] eqn:Hfind.
    + apply list_find_Some in Hfind as (Hx & Hidx & _). simpl in Hidx.
      assert (i0 = i) as ->.
      { eapply NoDup_lookup; [by rewrite <- Hids in Hnd| |exact Hi].
        unfold stepIDs. rewrite list_lookup_fmap, Hx. simpl. by rewrite Hidx. }
      apply deref_storeStep_same. rewrite (deref_InSaga _ _ _ _ Hg1). eauto.
    + apply list_find_None in Hfind.
      unfold stepIDs in Hi. rewrite list_lookup_fmap in Hi.
      destruct (Saga_Steps g1 !! i) as [x|] eqn:Hx; [|done].
      rewrite Forall_forall in Hfind. exfalso. apply (Hfind x).
      * apply list_elem_of_In. rewrite <- list_elem_of_In. by eapply list_elem_of_lookup_2.
      * simpl in *. congruence.
  - unfold ret. eexists _, _. split; [reflexivity|].
    split; [done|]. split; [by repeat split; apply Hf1|]. split; [|lia].
    intros. congruence.
Qed.
End UpdateStep.

(** ** The guards of ExecuteStep and CompensateStep *)

Lemma onMachine_same {S A} (c : Run (Machine S) A) (w : World S) r :
  c (machine w) = (machine w, r) → onMachine c w = (w, r).
Proof. intros H. unfold onMachine. rewrite H. by destruct w. Qed.

Lemma GetStep_run (m : Machine MemDB) id p :
  steps (db m) !! id = Some p → MemoryStorage_GetStep id m = (m, Return (inr p)).
Proof. intros H. unfold MemoryStorage_GetStep, bind, getDB. by rewrite H. Qed.

Lemma GetSaga_run (m : Machine MemDB) id a :
  sagas (db m) !! id = Some a → MemoryStorage_GetSaga id m = (m, Return (inr a)).
Proof. intros H. unfold MemoryStorage_GetSaga, bind, getDB. by rewrite H. Qed.

(** One step of a computation whose first action is known. *)
Ltac run_with tac := erewrite bind_Return by tac; cbv beta iota.
Ltac on_memory :=
  cbn [storage handlers GetStep UpdateStep GetSaga SaveSaga GetStuckSteps
       GetPendingSteps MemoryStorage].

Section Guards.
Variable wall : nat → Z.
Variable visit : list (string * StepPtr) → list (string * StepPtr).
Variable hs : gmap string StepHandler.

(** C3: on a step that is not pending, [ExecuteStep] returns nil, leaves
    the storage, the clock and the published messages exactly as they
    were, and so does the delivery of a [step_execute] message for it;
    hence delivering the message again, once a first delivery has left
    the step completed (or in any status but pending), ends in the state
    the first delivery ended in. *)
Theorem ExecuteStep_not_pending_is_noop (w : World MemDB) stepID p s :
  steps (db (machine w)) !! stepID = Some p →
  deref (heap (machine w)) p = Some s →
  Step_Status s ≠ StatusPending →
  let o := mkOrchestrator (MemoryStorage wall visit) hs in
  ExecuteStep wall o stepID w = (w, Return None)
  ∧ ∀ msg,
      Msg_Type msg = "step_execute" →
      Msg_StepID msg = stepID →
      dispatch wall o msg w = (w, Return tt)
      ∧ ∀ w0, w = fst (dispatch wall o msg w0) →
              fst (dispatch wall o msg (fst (dispatch wall o msg w0)))
              = fst (dispatch wall o msg w0).
Proof.
  intros Hp Hs Hst o.
  assert (Hexec : ExecuteStep wall o stepID w = (w, Return None)).
  { unfold ExecuteStep. subst o. on_memory.
    run_with ltac:(apply onMachine_same, GetStep_run, Hp).
    run_with ltac:(apply onMachine_same, loadStep_run, Hs).
    by rewrite bool_decide_eq_false_2. }
  split; [done|]. intros msg Hty Hmid.
  assert (Hdisp : dispatch wall o msg w = (w, Return tt)).
  { unfold dispatch. rewrite decide_True by done.
    rewrite Hmid. by rewrite (bind_Return _ _ _ _ _ Hexec). }
  split; [done|]. intros w0 <-. by rewrite Hdisp.
Qed.

(** C9: when no handler is registered for the name of the step,
    [ExecuteStep] on a pending step and [CompensateStep] on a completed
    step return an error and leave the storage, the clock and the
    published messages exactly as they were. *)
Theorem missing_handler_is_an_error (w : World MemDB) stepID p s :
  steps (db (machine w)) !! stepID = Some p →
  deref (heap (machine w)) p = Some s →
  hs !! Step_Name s = None →
  let o := mkOrchestrator (MemoryStorage wall visit) hs in
  (Step_Status s = StatusPending →
     ExecuteStep wall o stepID w
     = (w, Return (Some ("no handler for step: " +:+ Step_Name s))))
  ∧ (Step_Status s = StatusCompleted →
     CompensateStep o stepID w
     = (w, Return (Some ("no handler for step: " +:+ Step_Name s)))).
Proof.
  intros Hp Hs Hh o. split; intros Hst.
  - unfold ExecuteStep. subst o. on_memory.
    run_with ltac:(apply onMachine_same, GetStep_run, Hp).
    run_with ltac:(apply onMachine_same, loadStep_run, Hs).
    rewrite bool_decide_eq_true_2 by done. cbn [negb]. by rewrite Hh.
  - unfold CompensateStep. subst o. on_memory.
    run_with ltac:(apply onMachine_same, GetStep_run, Hp).
    run_with ltac:(apply onMachine_same, loadStep_run, Hs).
    rewrite bool_decide_eq_true_2 by done. cbn [negb]. by rewrite Hh.
Qed.
End Guards.

Lemma ExecuteStep_not_pending_is_noop_witness :
  let msg := mkMessage "step_execute" "id0" "id1" None in
  (∃ s, steps (db (machine (fst (dispatch wall0 orch0 msg world1)))) !! "id1"
        ≫= deref (heap (machine (fst (dispatch wall0 orch0 msg world1)))) = Some s
        ∧ Step_Status s = StatusCompleted)
  ∧ fst (dispatch wall0 orch0 msg (fst (dispatch wall0 orch0 msg world1)))
    = fst (dispatch wall0 orch0 msg world1).
Proof.
  intros msg. split.
  - eexists. split; vm_compute; reflexivity.
  - edestruct (ExecuteStep_not_pending_is_noop wall0 visit0 handlers0
                 (fst (dispatch wall0 orch0 msg world1)) "id1") as (_ & Hmsg);
      [vm_compute; reflexivity | vm_compute; reflexivity | vm_compute; discriminate |].
    destruct (Hmsg msg eq_refl eq_refl) as (_ & Hagain).
    exact (Hagain world1 eq_refl).
Defined.

Lemma missing_handler_is_an_error_witness :
  ExecuteStep wall0 (mkOrchestrator (MemoryStorage wall0 visit0) ∅) "id2" world2
  = (world2, Return (Some "no handler for step: b"))
  ∧ CompensateStep (mkOrchestrator (MemoryStorage wall0 visit0) ∅) "id1" world2
    = (world2, Return (Some "no handler for step: a")).
Proof.
  split.
  - edestruct (missing_handler_is_an_error wall0 visit0 ∅ world2 "id2") as [Hexec _];
      [vm_compute; reflexivity | vm_compute; reflexivity | reflexivity |].
    exact (Hexec eq_refl).
  - edestruct (missing_handler_is_an_error wall0 visit0 ∅ world2 "id1") as [_ Hcomp];
      [vm_compute; reflexivity | vm_compute; reflexivity | reflexivity |].
    exact (Hcomp eq_refl).
Defined.

(** ** GetStuckSteps *)

Section GetStuckSteps.
Variable wall : nat → Z.
Variable visit : list (string * StepPtr) → list (string * StepPtr).

Lemma stuckLoop_spec now timeout (m : Machine MemDB) entries : ∀ stuck,
  Forall (λ e, is_Some (deref (heap m) e.2)) entries →
  stuckLoop now timeout entries stuck m
  = (m, Return (stuck ++ filter (isStuck now timeout)
                            (omap (λ e, deref (heap m) e.2) entries))).
Proof.
  induction entries as [|[id p] entries IH]; intros stuck Hall.
  - simpl. unfold ret. by rewrite app_nil_r.
  - apply Forall_cons in Hall as [[s Hs] Hall]. simpl in Hs.
    cbn [stuckLoop omap list_omap]. cbn [snd]. rewrite Hs.
    rewrite (bind_Return _ _ _ _ _ (loadStep_run m p s Hs)).
    rewrite filter_cons. unfold Sub.
    destruct (decide (isStuck now timeout s)) as [Hstuck|Hnot].
    + assert (Hgo : stuckLoop now timeout entries (stuck ++ [s]) m
                    = (m, Return (stuck ++ s :: filter (isStuck now timeout)
                                     (omap (λ e, deref (heap m) e.2) entries)))).
      { rewrite IH by done. by rewrite <- app_assoc. }
      destruct Hstuck as [[Hst Hlt]|(Hst & t & Ht & Hlt)]; rewrite Hst.
      * rewrite (proj2 (Z.ltb_lt _ _)) by lia. exact Hgo.
      * rewrite Ht. rewrite (proj2 (Z.ltb_lt _ _)) by lia. exact Hgo.
    + specialize (IH stuck Hall).
      destruct (Step_Status s) eqn:Hst; try exact IH.
      * destruct (Z.ltb_spec timeout (now - Step_UpdatedAt s)); [|exact IH].
        exfalso. apply Hnot. left. split; [done | lia].
      * destruct (Step_StartedAt s) as [t|] eqn:Ht; [|exact IH].
        destruct (Z.ltb_spec timeout (now - t)); [|exact IH].
        exfalso. apply Hnot. right. split; [done|]. exists t. split; [done | lia].
Qed.

(** C7: the in-memory storage returns as stuck exactly the stored steps
    that are pending and were last updated before [now - timeout], or
    are processing with a start time before [now - timeout]; a step in
    any other status is never returned.  [now] is the reading of the
    clock taken by the call, and the order of the result is that of the
    visit of the map. *)
Theorem GetStuckSteps_returns_exactly_the_stuck_steps
    (timeout : Z) (m : Machine MemDB) :
  (∀ l, visit l ≡ₚ l) →
  map_Forall (λ _ p, is_Some (deref (heap m) p)) (steps (db m)) →
  let now := wall (ticks m) in
  ∃ stuck,
    MemoryStorage_GetStuckSteps wall visit timeout m
    = (mkMachine (heap m) (db m) (S (ticks m)), Return (inr stuck))
    ∧ stuck ≡ₚ filter (isStuck now timeout) (storedSteps m)
    ∧ (∀ s, s ∈ stuck ↔
            (∃ id p, steps (db m) !! id = Some p ∧ deref (heap m) p = Some s)
            ∧ isStuck now timeout s)
    ∧ (∀ s, s ∈ stuck →
            Step_Status s = StatusPending ∨ Step_Status s = StatusProcessing).
Proof.
  intros Hvisit Hvalid now.
  set (entries := visit (map_to_list (steps (db m)))).
  assert (Hall : Forall (λ e, is_Some (deref (heap m) e.2)) entries).
  { apply Forall_forall. intros [id p] Hin. simpl.
    apply (Hvalid id). apply elem_of_map_to_list.
    subst entries. by rewrite Hvisit in Hin. }
  exists (filter (isStuck now timeout) (omap (λ e, deref (heap m) e.2) entries)).
  assert (Hperm : filter (isStuck now timeout) (omap (λ e, deref (heap m) e.2) entries)
                  ≡ₚ filter (isStuck now timeout) (storedSteps m)).
  { unfold storedSteps. subst entries. by rewrite Hvisit. }
  split; [|split; [done|split]].
  - unfold MemoryStorage_GetStuckSteps.
    unfold bind at 1. unfold getDB at 1. unfold bind at 1. unfold timeNow at 1.
    fold entries. fold now.
    erewrite bind_Return; [reflexivity|].
    rewrite stuckLoop_spec by done. reflexivity.
  - intros s. rewrite Hperm. unfold storedSteps.
    rewrite list_elem_of_filter, list_elem_of_omap. split.
    + intros (Hstuck & [id p] & Hin & Hd). split; [|done].
      exists id, p. split; [|done]. by apply elem_of_map_to_list.
    + intros ((id & p & Hin & Hd) & Hstuck). split; [done|].
      exists (id, p). split; [|done]. by apply elem_of_map_to_list.
  - intros s Hin. apply list_elem_of_filter in Hin as [Hstuck _].
    destruct Hstuck as [[? _]|[? _]]; auto.
Qed.
End GetStuckSteps.

Lemma GetStuckSteps_returns_exactly_the_stuck_steps_witness :
  ∃ stuck,
    MemoryStorage_GetStuckSteps wall0 visit0 0 (machine world2)
    = (mkMachine (heap (machine world2)) (db (machine world2)) (S (ticks (machine world2))),
       Return (inr stuck))
    ∧ Step_ID <$> stuck = ["id3"; "id2"].
Proof.
  destruct (GetStuckSteps_returns_exactly_the_stuck_steps wall0 visit0 0 (machine world2))
    as (stuck & Hrun & _).
  - intros l. reflexivity.
  - apply (bool_decide_unpack _). vm_compute. exact I.
  - exists stuck. split; [exact Hrun|].
    vm_compute in Hrun. injection Hrun as <-. vm_compute. reflexivity.
Defined.

(** ** The continuation scan *)

Lemma scanCompleted_spec l : ∀ (i c : Z),
  c = (i - 1)%Z →
  let k := scanCompleted l i c in
  (i - 1 ≤ k < i + Z.of_nat (length l))%Z
  ∧ (∀ j s, l !! j = Some s → (i + Z.of_nat j ≤ k)%Z → Step_Status s = StatusCompleted)
  ∧ (∀ s, l !! Z.to_nat (k + 1 - i) = Some s → Step_Status s ≠ StatusCompleted).
Proof.
  induction l as [|x l IH]; intros i c -> k; subst k; cbn [scanCompleted].
  - simpl. split; [lia|]. split; [done|]. intros s. by rewrite lookup_nil.
  - destruct (decide (Step_Status x = StatusCompleted)) as [Hx|Hx].
    + destruct (IH (i + 1)%Z i ltac:(lia)) as (Hr & Hpre & Hnext).
      cbn [length]. split; [lia|]. split.
      * intros [|j] s Hs Hle; simpl in Hs.
        -- by injection Hs as <-.
        -- apply (Hpre j s Hs). lia.
      * intros s Hs. apply Hnext.
        replace (Z.to_nat (scanCompleted l (i + 1) i + 1 - i))
          with (S (Z.to_nat (scanCompleted l (i + 1) i + 1 - (i + 1)))) in Hs by lia.
        exact Hs.
    + cbn [length]. split; [lia|]. split.
      * intros j s _ Hle. lia.
      * intros s. replace (i - 1 + 1 - i)%Z with 0%Z by lia. simpl.
        by intros [= <-].
Qed.

Section Continuation.
Variable wall : nat → Z.
Variable visit : list (string * StepPtr) → list (string * StepPtr).
Variable hs : gmap string StepHandler.

(** C2: the continuation scan yields the last index [k] of the longest
    prefix of completed steps ([-1] when step 0 is not completed).  When
    step [k+1] exists, exactly one [step_execute] message for it is
    published and nothing else changes, the status of the saga included;
    otherwise the saga is marked completed and saved. *)
Theorem continueOrComplete_advances_or_completes (w : World MemDB) (saga : nat) g :
  sagaObjs (heap (machine w)) !! saga = Some g →
  let o := mkOrchestrator (MemoryStorage wall visit) hs in
  let n := Z.of_nat (length (Saga_Steps g)) in
  let k := scanCompleted (Saga_Steps g) 0 (-1) in
  (-1 ≤ k < n)%Z
  ∧ (∀ i s, Saga_Steps g !! i = Some s → (Z.of_nat i ≤ k)%Z →
            Step_Status s = StatusCompleted)
  ∧ (∀ s, Saga_Steps g !! Z.to_nat (k + 1) = Some s → Step_Status s ≠ StatusCompleted)
  ∧ ((k + 1 < n)%Z →
     ∃ nextStep,
       Saga_Steps g !! Z.to_nat (k + 1) = Some nextStep
       ∧ continueOrComplete o saga w
         = (mkWorld (machine w)
              (published w ++
                 [("saga_events",
                   mkMessage "step_execute" (Saga_ID g) (Step_ID nextStep) (Saga_Data g))])
              (uuids w),
            Return tt))
  ∧ (¬ (k + 1 < n)%Z →
     ∃ w' g',
       continueOrComplete o saga w = (w', Return tt)
       ∧ published w' = published w
       ∧ sagaObjs (heap (machine w')) !! saga = Some g'
       ∧ Saga_Status g' = StatusCompleted
       ∧ sagaCore g' = sagaCore (set_Saga_Status StatusCompleted g)
       ∧ sagas (db (machine w')) !! Saga_ID g = Some saga).
Proof.
  intros Hg o n k.
  destruct (scanCompleted_spec (Saga_Steps g) 0 (-1) eq_refl) as (Hr & Hpre & Hnext).
  fold k in Hr, Hpre, Hnext. rewrite Z.sub_0_r in Hnext.
  split; [subst n; lia|]. split; [intros i s Hs Hle; apply (Hpre i s Hs); lia|].
  split; [done|]. split.
  - intros Hlt.
    destruct (Saga_Steps g !! Z.to_nat (k + 1)) as [nextStep|] eqn:Hn.
    2:{ apply lookup_ge_None in Hn. subst n. lia. }
    exists nextStep. split; [done|].
    unfold continueOrComplete.
    run_with ltac:(apply onMachine_same, loadSaga_run, Hg).
    fold k. fold n. rewrite (proj2 (Z.ltb_lt _ _) Hlt).
    unfold index. rewrite Hn. unfold bind, ret. reflexivity.
  - intros Hge.
    unfold continueOrComplete.
    run_with ltac:(apply onMachine_same, loadSaga_run, Hg).
    fold k. fold n. rewrite (proj2 (Z.ltb_ge _ _)) by lia.
    run_with ltac:(apply onMachine_Return, modifySaga_run, Hg).
    subst o. on_memory.
    match goal with |- context [bind (onMachine (MemoryStorage_SaveSaga _ _)) _ ?w1] =>
      destruct (SaveSaga_spec wall (machine w1) saga (set_Saga_Status StatusCompleted g))
        as (g' & t' & Hsave & Hcore & Ht)
    end.
    { apply storeSaga_lookup. }
    run_with ltac:(apply onMachine_Return, Hsave).
    unfold ret. eexists _, g'. split; [reflexivity|].
    cbn [published machine heap db sagas].
    split; [done|]. split; [apply storeSaga_lookup|]. split.
    + by apply (f_equal Saga_Status) in Hcore.
    + split; [done|]. cbn [Saga_ID set_Saga_Status]. apply lookup_insert_eq.
Qed.
End Continuation.

Lemma continueOrComplete_advances_or_completes_witness :
  published (fst (continueOrComplete orch0 0 world2))
  = published world2
    ++ [("saga_events",
         mkMessage "step_execute" "id0" "id2" (Some (<["done" := VBool true]> ∅)))].
Proof.
  assert (Hg : sagaObjs (heap (machine world2)) !! 0
               = Some (mkSaga "id0" "order" StatusPending
                   [mkStep "id1" "id0" "a" StatusCompleted
                      (Some (<["done" := VBool true]> ∅)) "" "" (Some 1012%Z) 1002%Z 1018%Z;
                    mkStep "id2" "id0" "b" StatusPending (Some ∅) "" "" None 1004%Z 1019%Z;
                    mkStep "id3" "id0" "c" StatusPending (Some ∅) "" "" None 1006%Z 1020%Z]
                   (Some (<["done" := VBool true]> ∅)) "" 1000%Z 1017%Z))
    by (vm_compute; reflexivity).
  destruct (continueOrComplete_advances_or_completes wall0 visit0 handlers0 world2 0 _ Hg)
    as (_ & _ & _ & Hnext & _).
  destruct Hnext as (nextStep & Hn & Hrun); [vm_compute; reflexivity|].
  vm_compute in Hn. injection Hn as <-.
  fold orch0 in Hrun. rewrite Hrun. reflexivity.
Defined.

(** ** StartSaga *)

Section StartSaga.
Context {S : Type}.
Variable wall : nat → Z.
Variable uuid : nat → string.

Lemma appendStep_loop sagaID (saga : nat) names : ∀ (w : World S) g,
  sagaObjs (heap (machine w)) !! saga = Some g →
  forEach names (appendStep wall uuid sagaID saga) w
  = (mkWorld
       (mkMachine
          (storeSaga (heap (machine w)) saga
             (set_Saga_Steps
                (Saga_Steps g
                 ++ newSteps wall uuid sagaID names (uuids w) (ticks (machine w))) g))
          (db (machine w)) (ticks (machine w) + 2 * length names))
       (published w) (uuids w + length names),
     Return tt).
Proof.
  induction names as [|name names IH]; intros w g Hg.
  - simpl. unfold ret. rewrite app_nil_r, !Nat.add_0_r.
    replace (set_Saga_Steps (Saga_Steps g) g) with g by (by destruct g).
    rewrite storeSaga_id by done. by destruct w as [[] ? ?].
  - cbn [forEach]. unfold appendStep at 1.
    unfold bind at 2. unfold uuidNew at 1.
    unfold bind at 2. unfold onMachine at 1, timeNow at 1. cbn [machine heap db ticks].
    unfold bind at 2. unfold onMachine at 1, timeNow at 1. cbn [machine heap db ticks].
    erewrite bind_Return; cycle 1.
    { apply onMachine_Return, modifySaga_run. cbn [machine heap]. exact Hg. }
    cbn [machine heap db ticks published uuids].
    erewrite IH by (cbn [machine heap]; apply storeSaga_lookup).
    cbn [machine heap db ticks published uuids Saga_Steps set_Saga_Steps newSteps length].
    rewrite storeSaga_storeSaga, <- app_assoc. cbn [app].
    change (set_Saga_Steps ?x (set_Saga_Steps ?y g)) with (set_Saga_Steps x g).
    replace (Datatypes.S (Datatypes.S (ticks (machine w))) + 2 * length names)
      with (ticks (machine w) + 2 * Datatypes.S (length names)) by lia.
    replace (Datatypes.S (uuids w) + length names)
      with (uuids w + Datatypes.S (length names)) by lia.
    reflexivity.
Qed.

Variable st : Storage S.
Variable hs : gmap string StepHandler.

Lemma StartSaga_unfold name names data (w : World S) :
  let o := mkOrchestrator st hs in
  let saga := fresh (dom (sagaObjs (heap (machine w)))) in
  let g0 := newSagaValue wall uuid name names data (uuids w) (ticks (machine w)) in
  let m0 := mkMachine (storeSaga (heap (machine w)) saga g0) (db (machine w))
                      (ticks (machine w) + 2 + 2 * length names) in
  let u' := uuids w + 1 + length names in
  StartSaga wall uuid o name names data w
  = match SaveSaga st saga m0 with
    | (m1, Return (Some e)) =>
        (mkWorld m1 (published w) u', Return (inl ("failed to save saga: " +:+ e)))
    | (m1, Return None) =>
        (let* g := onMachine (loadSaga saga) in
         let* _ := when (0 <? length (Saga_Steps g))
                     (let* first := index (Saga_Steps g) 0 in
                      Publish "saga_events"
                        (mkMessage "step_execute" (uuid (uuids w)) (Step_ID first) data)) in
         ret (inr saga)) (mkWorld m1 (published w) u')
    | (m1, Panic msg) => (mkWorld m1 (published w) u', Panic msg)
    end.
Proof.
  intros o saga g0 m0 u'. unfold StartSaga.
  unfold bind at 1. unfold uuidNew at 1.
  unfold bind at 1. unfold onMachine at 1, timeNow at 1. cbn [machine heap db ticks].
  unfold bind at 1. unfold onMachine at 1, timeNow at 1. cbn [machine heap db ticks].
  unfold bind at 1. unfold onMachine at 1, newSaga at 1.
  cbn [machine heap db ticks published uuids]. fold saga.
  erewrite bind_Return; cycle 1.
  { apply appendStep_loop. cbn [machine heap]. apply storeSaga_lookup. }
  cbn [machine heap db ticks published uuids Saga_Steps set_Saga_Steps app].
  rewrite storeSaga_storeSaga.
  replace (Datatypes.S (Datatypes.S (ticks (machine w))) + 2 * length names)
    with (ticks (machine w) + 2 + 2 * length names) by lia.
  replace (Datatypes.S (uuids w) + length names) with u' by (subst u'; lia).
  change (set_Saga_Steps _ _) with g0. fold m0.
  unfold bind at 1. unfold onMachine at 1. cbn [machine published uuids storage SaveSaga o].
  destruct (SaveSaga st saga m0) as [m1 [[e|]|msg]]; reflexivity.
Qed.
End StartSaga.
Lemma newSteps_length wall uuid sagaID names : ∀ u t,
  length (newSteps wall uuid sagaID names u t) = length names.
Proof. induction names as [|n names IH]; intros u t; simpl; [done|]. by rewrite IH. Qed.

Lemma newSteps_lookup wall uuid sagaID names : ∀ u t i name,
  names !! i = Some name →
  ∃ s, newSteps wall uuid sagaID names u t !! i = Some s
       ∧ stepCore s = mkStep (uuid (u + i)) sagaID name StatusPending (Some ∅) "" "" None 0 0.
Proof.
  induction names as [|n names IH]; intros u t i name Hi; [done|].
  destruct i as [|i]; simpl in *.
  - injection Hi as ->. eexists. split; [done|]. by rewrite Nat.add_0_r.
  - destruct (IH (S u) (S (S t)) i name Hi) as (s & Hs & Hc).
    exists s. split; [done|]. rewrite Hc. by rewrite Nat.add_succ_r.
Qed.

Section StartSagaMemory.
Variable wall : nat → Z.
Variable uuid : nat → string.
Variable visit : list (string * StepPtr) → list (string * StepPtr).
Variable hs : gmap string StepHandler.

Lemma StartSaga_memory name names data (w : World MemDB) :
  let o := mkOrchestrator (MemoryStorage wall visit) hs in
  let saga := fresh (dom (sagaObjs (heap (machine w)))) in
  let g0 := newSagaValue wall uuid name names data (uuids w) (ticks (machine w)) in
  ∃ g' t',
    StartSaga wall uuid o name names data w
    = (mkWorld
         (mkMachine (storeSaga (heap (machine w)) saga g')
            (mkMemDB (<[uuid (uuids w) := saga]> (sagas (db (machine w))))
                     (saveIndex saga 0 (Saga_Steps g0) (steps (db (machine w)))))
            t')
         (published w ++ firstMessage uuid names data (uuids w))
         (uuids w + 1 + length names),
       Return (inr saga))
    ∧ sagaCore g' = sagaCore g0.
Proof.
  intros o saga g0. subst o. rewrite StartSaga_unfold. fold saga. fold g0. on_memory.
  match goal with |- context [MemoryStorage_SaveSaga _ _ ?m0] =>
    destruct (SaveSaga_spec wall m0 saga g0 (storeSaga_lookup _ _ _))
      as (g' & t' & Hsave & Hcore & _)
  end.
  rewrite Hsave. cbn [heap db sagas steps]. rewrite storeSaga_storeSaga.
  exists g', t'. split; [|done].
  run_with ltac:(apply onMachine_same, loadSaga_run, storeSaga_lookup).
  assert (Hsteps : stepCore <$> Saga_Steps g' = stepCore <$> Saga_Steps g0)
    by (by apply (f_equal Saga_Steps) in Hcore).
  destruct names as [|n names].
  - destruct (Saga_Steps g') as [|? ?]; [|done].
    cbn [length Nat.ltb Nat.leb when firstMessage]. unfold bind, ret. cbn [Saga_ID g0 newSagaValue].
    by rewrite app_nil_r.
  - destruct (Saga_Steps g') as [|s0 rest]; [done|].
    cbn [length Nat.ltb Nat.leb when firstMessage index lookup list_lookup].
    assert (Hs0 : Step_ID s0 = uuid (Datatypes.S (uuids w))).
    { rewrite !fmap_cons in Hsteps.
      apply (f_equal (λ l, Step_ID <$> head l)) in Hsteps. simpl in Hsteps.
      by injection Hsteps. }
    unfold bind, ret, Publish. cbn [Saga_ID g0 newSagaValue published machine uuids].
    by rewrite Hs0.
Qed.
End StartSagaMemory.

(** C4, with the empty list of step names set apart: [StartSaga] draws
    the saga's identifier and then one identifier per step name from the
    generator, builds one pending step
    per name, in order, with an empty data map, and hands the saga to
    [SaveSaga].  On the in-memory storage the saga is stored under its
    identifier and returned with a nil error; a [step_execute] message for
    step 0 is then published on [saga_events] when there is a step 0, and
    nothing is published for an empty list of names.  On any storage,
    [StartSaga] returns an error exactly when [SaveSaga] does, and then
    publishes nothing. *)
Theorem StartSaga_builds_saves_and_publishes (wall : nat → Z) (uuid : nat → string) :
  (∀ visit hs name names data (w : World MemDB),
     let o := mkOrchestrator (MemoryStorage wall visit) hs in
     let saga := fresh (dom (sagaObjs (heap (machine w)))) in
     ∃ w' g',
       StartSaga wall uuid o name names data w = (w', Return (inr saga))
       ∧ sagaObjs (heap (machine w')) !! saga = Some g'
       ∧ sagas (db (machine w')) !! uuid (uuids w) = Some saga
       ∧ Saga_ID g' = uuid (uuids w)
       ∧ Saga_Name g' = name
       ∧ Saga_Status g' = StatusPending
       ∧ Saga_Data g' = data
       ∧ length (Saga_Steps g') = length names
       ∧ (∀ i stepName, names !! i = Some stepName →
            ∃ s, Saga_Steps g' !! i = Some s
                 ∧ Step_ID s = uuid (uuids w + 1 + i)
                 ∧ Step_SagaID s = uuid (uuids w)
                 ∧ Step_Name s = stepName
                 ∧ Step_Status s = StatusPending
                 ∧ Step_Data s = Some ∅
                 ∧ Step_Error s = ""
                 ∧ Step_StartedAt s = None)
       ∧ published w' = published w ++ firstMessage uuid names data (uuids w)
       ∧ uuids w' = uuids w + 1 + length names)
  ∧ (∀ S (st : Storage S) hs name names data (w : World S),
       let o := mkOrchestrator st hs in
       let saga := fresh (dom (sagaObjs (heap (machine w)))) in
       let g0 := newSagaValue wall uuid name names data (uuids w) (ticks (machine w)) in
       let m0 := mkMachine (storeSaga (heap (machine w)) saga g0) (db (machine w))
                           (ticks (machine w) + 2 + 2 * length names) in
       (∀ m1 e, SaveSaga st saga m0 = (m1, Return (Some e)) →
          StartSaga wall uuid o name names data w
          = (mkWorld m1 (published w) (uuids w + 1 + length names),
             Return (inl ("failed to save saga: " +:+ e))))
       ∧ (∀ w' e, StartSaga wall uuid o name names data w = (w', Return (inl e)) →
            ∃ m1 e0, SaveSaga st saga m0 = (m1, Return (Some e0))
                     ∧ e = "failed to save saga: " +:+ e0
                     ∧ published w' = published w)).
Proof.
  split.
  - intros visit hs name names data w o saga.
    destruct (StartSaga_memory wall uuid visit hs name names data w)
      as (g' & t' & Hrun & Hcore).
    fold o saga in Hrun.
    eexists _, g'. split; [exact Hrun|].
    cbn [machine heap db sagas published uuids].
    split; [apply storeSaga_lookup|]. split; [apply lookup_insert_eq|].
    split; [by apply (f_equal Saga_ID) in Hcore|].
    split; [by apply (f_equal Saga_Name) in Hcore|].
    split; [by apply (f_equal Saga_Status) in Hcore|].
    split; [by apply (f_equal Saga_Data) in Hcore|].
    assert (Hsteps : stepCore <$> Saga_Steps g'
                     = stepCore <$> newSteps wall uuid (uuid (uuids w)) names
                                      (Datatypes.S (uuids w))
                                      (Datatypes.S (Datatypes.S (ticks (machine w)))))
      by (by apply (f_equal Saga_Steps) in Hcore).
    split; [|split; [|done]].
    + by rewrite <- (length_fmap stepCore), Hsteps, length_fmap, newSteps_length.
    + intros i stepName Hi.
      destruct (newSteps_lookup wall uuid (uuid (uuids w)) names (Datatypes.S (uuids w))
                  (Datatypes.S (Datatypes.S (ticks (machine w)))) i stepName Hi)
        as (s0 & Hs0 & Hc0).
      assert (Hl : (stepCore <$> Saga_Steps g') !! i = Some (stepCore s0))
        by (by rewrite Hsteps, list_lookup_fmap, Hs0).
      rewrite list_lookup_fmap in Hl.
      destruct (Saga_Steps g' !! i) as [s|]; [|done].
      apply (inj Some) in Hl. rewrite Hc0 in Hl.
      exists s. split; [done|].
      replace (uuids w + 1 + i) with (Datatypes.S (uuids w) + i) by lia.
      split; [by apply (f_equal Step_ID) in Hl|].
      split; [by apply (f_equal Step_SagaID) in Hl|].
      split; [by apply (f_equal Step_Name) in Hl|].
      split; [by apply (f_equal Step_Status) in Hl|].
      split; [by apply (f_equal Step_Data) in Hl|].
      split; [by apply (f_equal Step_Error) in Hl|].
      by apply (f_equal Step_StartedAt) in Hl.
  - intros S st hs name names data w o saga g0 m0.
    pose proof (StartSaga_unfold wall uuid st hs name names data w) as Hunf.
    cbv zeta in Hunf. fold o saga g0 m0 in Hunf. split.
    + intros m1 e Hsave. by rewrite Hunf, Hsave.
    + intros w' e Hrun. rewrite Hunf in Hrun.
      destruct (SaveSaga st saga m0) as [m1 [[e0|]|msg]].
      * injection Hrun as <- <-. by exists m1, e0.
      * exfalso. revert Hrun. unfold bind, onMachine, loadSaga. cbn [machine].
        destruct (sagaObjs (heap m1) !! saga) as [g|]; [|done].
        unfold when, index, ret, panic, Publish.
        destruct (0 <? length (Saga_Steps g)); [|done].
        by destruct (Saga_Steps g !! 0).
      * done.
Qed.

Lemma StartSaga_builds_saves_and_publishes_witness :
  StartSaga wall0 uuid0 (mkOrchestrator brokenStorage handlers0) "order" ["a"; "b"] None
    brokenWorld
  = (mkWorld (mkMachine
                (storeSaga (mkHeap ∅ ∅) 0
                   (newSagaValue wall0 uuid0 "order" ["a"; "b"] None 0 0)) tt 6) [] 3,
     Return (inl "failed to save saga: disk full")).
Proof.
  pose proof (proj1 (proj2 (StartSaga_builds_saves_and_publishes wall0 uuid0)
                      unit brokenStorage handlers0 "order" ["a"; "b"] None brokenWorld))
    as H.
  cbv zeta in H. erewrite H; reflexivity.
Defined.

Lemma StartSaga_with_no_steps_publishes_nothing :
  StartSaga wall0 uuid0 orch0 "empty" [] (Some ∅) emptyWorld
  = (mkWorld
       (mkMachine
          (mkHeap {[ 0 := mkSaga "id0" "empty" StatusPending [] (Some ∅) "" 1000 1002 ]} ∅)
          (mkMemDB {[ "id0" := 0 ]} ∅) 3)
       [] 1,
     Return (inr 0)).
Proof. vm_compute. reflexivity. Qed.

Section ZeroSteps.
Variable wall : nat → Z.
Variable uuid : nat → string.
Variable visit : list (string * StepPtr) → list (string * StepPtr).
Variable hs : gmap string StepHandler.

(** C8, for the builder; [StartSaga] differs: [Builder.Execute] on a
    builder with no step returns an error, registers nothing, saves nothing and publishes nothing.
    [StartSaga] called with an empty list of step names is not rejected:
    it saves a pending saga with no steps, publishes nothing and returns
    the saga with a nil error. *)
Theorem zero_steps_rejected_by_Builder_only (b : Builder) name data (w : World MemDB) :
  b_steps b = [] →
  let o := mkOrchestrator (MemoryStorage wall visit) hs in
  let saga := fresh (dom (sagaObjs (heap (machine w)))) in
  Builder_Execute wall uuid b o w
  = (w, Return (o, inl "saga must have at least one step"))
  ∧ ∃ w' g',
      StartSaga wall uuid o name [] data w = (w', Return (inr saga))
      ∧ sagaObjs (heap (machine w')) !! saga = Some g'
      ∧ sagas (db (machine w')) !! uuid (uuids w) = Some saga
      ∧ Saga_Steps g' = []
      ∧ Saga_Status g' = StatusPending
      ∧ published w' = published w.
Proof.
  intros Hb o saga. split.
  - unfold Builder_Execute. rewrite Hb. reflexivity.
  - destruct (StartSaga_memory wall uuid visit hs name [] data w)
      as (g' & t' & Hrun & Hcore).
    fold o saga in Hrun. eexists _, g'. split; [exact Hrun|].
    cbn [machine heap db sagas published uuids firstMessage].
    split; [apply storeSaga_lookup|]. split; [apply lookup_insert_eq|].
    split; [|split].
    + apply (f_equal Saga_Steps) in Hcore. simpl in Hcore.
      by destruct (Saga_Steps g').
    + by apply (f_equal Saga_Status) in Hcore.
    + by rewrite app_nil_r.
Qed.
End ZeroSteps.

Lemma zero_steps_rejected_by_Builder_only_witness :
  Builder_Execute wall0 uuid0 (Builder_WithData (NewBuilder "empty") "user_id" (VStr "u1"))
    orch0 emptyWorld
  = (emptyWorld, Return (orch0, inl "saga must have at least one step")).
Proof.
  exact (proj1 (zero_steps_rejected_by_Builder_only wall0 uuid0 visit0 handlers0
                  (Builder_WithData (NewBuilder "empty") "user_id" (VStr "u1"))
                  "empty" None emptyWorld eq_refl)).
Defined.

Lemma StartSaga_accepts_zero_steps :
  snd (StartSaga wall0 uuid0 orch0 "empty" [] (Some ∅) emptyWorld) = Return (inr 0)
  ∧ sagas (db (machine (fst (StartSaga wall0 uuid0 orch0 "empty" [] (Some ∅) emptyWorld))))
      !! "id0" = Some 0.
Proof. split; vm_compute; reflexivity. Qed.

(** ** CompensateStep *)


Lemma stepFrame_lookup id h h' a g :
  stepFrame id h h' → sagaObjs h !! a = Some g →
  ∃ g', sagaObjs h' !! a = Some g' ∧ sagaMeta g' = sagaMeta g ∧ stepIDs g' = stepIDs g.
Proof.
  intros (Hm & Hi & _) Hg. specialize (Hm a). specialize (Hi a). rewrite Hg in Hm, Hi.
  destruct (sagaObjs h' !! a) as [g'|]; [|done].
  exists g'. split; [done|]. simpl in *. split; congruence.
Qed.

(** One write through a pointer: [step.F = v]. *)
Lemma modifyStep_world {S} (w : World S) p s f :
  deref (heap (machine w)) p = Some s →
  onMachine (modifyStep p f) w
  = (mkWorld (mkMachine (storeStep (heap (machine w)) p (f s)) (db (machine w))
                        (ticks (machine w)))
             (published w) (uuids w), Return tt).
Proof. intros H. by apply onMachine_Return, modifyStep_run. Qed.

Section Compensation.
Variable wall : nat → Z.
Variable visit : list (string * StepPtr) → list (string * StepPtr).
Variable hs : gmap string StepHandler.

End Compensation.


(** ** Failure of a forward action *)

Lemma timeNow_world {S} wall (w : World S) :
  onMachine (timeNow wall) w
  = (mkWorld (mkMachine (heap (machine w)) (db (machine w)) (Datatypes.S (ticks (machine w))))
             (published w) (uuids w), Return (wall (ticks (machine w)))).
Proof. reflexivity. Qed.

Lemma deref_storeSaga_core h a g g' q sq :
  sagaObjs h !! a = Some g →
  stepCore <$> Saga_Steps g' = stepCore <$> Saga_Steps g →
  deref h q = Some sq →
  ∃ sq', deref (storeSaga h a g') q = Some sq' ∧ stepCore sq' = stepCore sq.
Proof.
  intros Hg Hcore Hq. destruct q as [a' j|c]; simpl in *.
  - destruct (decide (a = a')) as [<-|Hne].
    + rewrite lookup_insert_eq. rewrite Hg in Hq.
      assert (Hl : (stepCore <$> Saga_Steps g') !! j = Some (stepCore sq))
        by (by rewrite Hcore, list_lookup_fmap, Hq).
      rewrite list_lookup_fmap in Hl.
      destruct (Saga_Steps g' !! j) as [sq'|]; [|done].
      exists sq'. split; [done|]. by apply (inj Some) in Hl.
    + rewrite lookup_insert_ne by done. eauto.
  - eauto.
Qed.

Lemma saveIndex_lookup_notin saga l : ∀ i idx id,
  id ∉ Step_ID <$> l → saveIndex saga i l idx !! id = idx !! id.
Proof.
  induction l as [|s l IH]; intros i idx id Hnot; [done|].
  rewrite fmap_cons in Hnot. apply not_elem_of_cons in Hnot as [Hne Hnot].
  cbn [saveIndex]. rewrite IH by done. by rewrite lookup_insert_ne.
Qed.

Lemma saveIndex_lookup_in saga l : ∀ i idx j s,
  NoDup (Step_ID <$> l) → l !! j = Some s →
  saveIndex saga i l idx !! Step_ID s = Some (InSaga saga (i + j)).
Proof.
  induction l as [|x l IH]; intros i idx j s Hnd Hj; [done|].
  rewrite fmap_cons in Hnd. apply NoDup_cons in Hnd as [Hx Hnd].
  cbn [saveIndex]. destruct j as [|j]; simpl in Hj.
  - injection Hj as ->. rewrite saveIndex_lookup_notin by done.
    by rewrite lookup_insert_eq, Nat.add_0_r.
  - rewrite (IH (Datatypes.S i) _ j s Hnd Hj). by rewrite Nat.add_succ_r.
Qed.

Lemma compensateFrom_spec {S} (saga : nat) g : ∀ n (w : World S),
  sagaObjs (heap (machine w)) !! saga = Some g →
  n ≤ length (Saga_Steps g) →
  compensateFrom saga n w
  = (mkWorld (machine w)
       (published w ++
          ((λ s, ("saga_events",
                  mkMessage "step_compensate" (Saga_ID g) (Step_ID s) (Saga_Data g)))
           <$> filter (λ s, Step_Status s = StatusCompleted)
                      (reverse (take n (Saga_Steps g)))))
       (uuids w), Return tt).
Proof.
  induction n as [|i IH]; intros w Hg Hn.
  - simpl. unfold ret. rewrite app_nil_r. by destruct w.
  - cbn [compensateFrom].
    run_with ltac:(apply onMachine_same, loadSaga_run, Hg).
    destruct (Saga_Steps g !! i) as [si|] eqn:Hi.
    2:{ apply lookup_ge_None in Hi. lia. }
    unfold index. rewrite Hi. unfold ret at 1. unfold bind at 1.
    rewrite (take_S_r _ _ _ Hi), reverse_app. cbn [reverse rev_append app].
    rewrite filter_cons.
    destruct (decide (Step_Status si = StatusCompleted)) as [Hc|Hc].
    + rewrite bool_decide_eq_true_2 by done. cbn [when].
      unfold bind at 1. unfold Publish at 1.
      rewrite IH by (cbn [machine]; (done || lia)).
      cbn [machine published uuids]. rewrite fmap_cons, <- app_assoc. reflexivity.
    + rewrite bool_decide_eq_false_2 by done. cbn [when].
      unfold bind at 1. unfold ret at 1.
      rewrite IH by (done || lia). reflexivity.
Qed.
Section ForwardFailure.
Variable wall : nat → Z.
Variable visit : list (string * StepPtr) → list (string * StepPtr).
Variable hs : gmap string StepHandler.

(** Two writes through [step] followed by [UpdateStep(step)]. *)
Lemma store2_update (m : Machine MemDB) p s s1 s2 saga g :
  deref (heap m) p = Some s →
  Step_ID s1 = Step_ID s →
  Step_ID s2 = Step_ID s →
  Step_SagaID s2 = Step_SagaID s →
  sagas (db m) !! Step_SagaID s = Some saga →
  sagaObjs (heap m) !! saga = Some g →
  let h2 := storeStep (storeStep (heap m) p s1) p s2 in
  let s' := set_Step_UpdatedAt (wall (ticks m)) s2 in
  ∃ h' t',
    MemoryStorage_UpdateStep wall p (mkMachine h2 (db m) (ticks m))
    = (mkMachine h' (mkMemDB (sagas (db m)) (<[Step_ID s := p]> (steps (db m)))) t',
       Return None)
    ∧ deref h' p = Some s'
    ∧ stepFrame (Step_ID s) (heap m) h'
    ∧ (∀ i si, Saga_Steps g !! i = Some si → Step_ID si = Step_ID s →
               NoDup (stepIDs g) → deref h' (InSaga saga i) = Some s').
Proof.
  intros Hp Hid1 Hid2 Hsid Hsaga Hg h2 s'.
  set (h1 := storeStep (heap m) p s1).
  assert (Hp1 : deref h1 p = Some s1) by (apply deref_storeStep_same; eauto).
  assert (Hf1 : stepFrame (Step_ID s) (heap m) h1) by (by apply storeStep_frame).
  assert (Hp2 : deref h2 p = Some s2) by (apply deref_storeStep_same; eauto).
  assert (Hf2 : stepFrame (Step_ID s) (heap m) h2).
  { eapply stepFrame_trans; [exact Hf1|]. rewrite <- Hid1.
    apply storeStep_frame; [done | congruence]. }
  destruct (stepFrame_lookup _ _ _ _ _ Hf2 Hg) as (g2 & Hg2 & _ & Hids2).
  destruct (UpdateStep_spec wall (mkMachine h2 (db m) (ticks m)) p s2 Hp2)
    as (h' & t' & Hrun & Hp' & Hf' & Hcopy & _).
  { intros a. cbn [heap db]. rewrite Hsid, Hsaga. intros [= <-]. eauto. }
  cbn [heap db ticks] in *. rewrite Hid2 in *.
  exists h', t'. split; [exact Hrun|]. split; [exact Hp'|].
  split; [by eapply stepFrame_trans|].
  intros i si Hi Hidi Hnd.
  assert (Hl : stepIDs g2 !! i = Some (Step_ID s)).
  { rewrite Hids2. unfold stepIDs. by rewrite list_lookup_fmap, Hi, <- Hidi. }
  unfold stepIDs in Hl. rewrite list_lookup_fmap in Hl.
  destruct (Saga_Steps g2 !! i) as [si2|] eqn:Hi2; [|done].
  apply (Hcopy saga g2 i si2); try done.
  - by rewrite Hsid.
  - simpl in Hl. congruence.
  - by rewrite Hids2.
Qed.

Lemma startCompensation_run (w : World MemDB) saga g :
  sagaObjs (heap (machine w)) !! saga = Some g →
  ∃ g' t',
    startCompensation (mkOrchestrator (MemoryStorage wall visit) hs) saga w
    = (mkWorld
         (mkMachine (storeSaga (heap (machine w)) saga g')
            (mkMemDB (<[Saga_ID g := saga]> (sagas (db (machine w))))
                     (saveIndex saga 0 (Saga_Steps g) (steps (db (machine w)))))
            t')
         (published w ++ compensations g') (uuids w),
       Return tt)
    ∧ sagaCore g' = sagaCore (set_Saga_Status StatusFailed g).
Proof.
  intros Hg. unfold startCompensation. on_memory.
  run_with ltac:(apply onMachine_Return, modifySaga_run, Hg).
  set (g7 := set_Saga_Status StatusFailed g).
  match goal with |- context [bind (onMachine (MemoryStorage_SaveSaga _ _)) _ ?w7] =>
    destruct (SaveSaga_spec wall (machine w7) saga g7 (storeSaga_lookup _ _ _))
      as (g8 & t8 & Hsave & Hcore8 & _)
  end.
  cbn [machine heap db ticks sagas steps] in Hsave.
  rewrite storeSaga_storeSaga in Hsave.
  run_with ltac:(apply onMachine_Return; cbn [machine]; exact Hsave).
  cbn [machine heap db ticks published uuids].
  run_with ltac:(apply onMachine_same, loadSaga_run, storeSaga_lookup).
  rewrite (compensateFrom_spec saga g8) by
    (cbn [machine heap]; (apply storeSaga_lookup || done)).
  rewrite firstn_all. exists g8, t8. split; [reflexivity | exact Hcore8].
Qed.

(** C1: when the forward action of a pending step fails, [ExecuteStep]
    stores the step as failed with the error text, stores the saga as
    failed, publishes one [step_compensate] message for each completed
    step of the saga, the last step first and none for the failed step,
    and returns nil. *)
Theorem forward_failure_triggers_compensation
    (w : World MemDB) stepID p s handler saga g d e :
  steps (db (machine w)) !! stepID = Some p →
  deref (heap (machine w)) p = Some s →
  Step_Status s = StatusPending →
  hs !! Step_Name s = Some handler →
  sagas (db (machine w)) !! Step_SagaID s = Some saga →
  sagaObjs (heap (machine w)) !! saga = Some g →
  NoDup (stepIDs g) →
  Execute handler
    (copyInto (entriesOf (Step_Data s)) (copyInto (entriesOf (Saga_Data g)) ∅))
  = (d, Some e) →
  let o := mkOrchestrator (MemoryStorage wall visit) hs in
  ∃ w' p' s' g',
    ExecuteStep wall o stepID w = (w', Return None)
    ∧ steps (db (machine w')) !! Step_ID s = Some p'
    ∧ deref (heap (machine w')) p' = Some s'
    ∧ Step_Status s' = StatusFailed
    ∧ Step_Error s' = e
    ∧ sagaObjs (heap (machine w')) !! saga = Some g'
    ∧ sagas (db (machine w')) !! Saga_ID g' = Some saga
    ∧ Saga_Status g' = StatusFailed
    ∧ Saga_Error g' = Saga_Error g
    ∧ published w' = published w ++ compensations g'
    ∧ (∀ tm, tm ∈ compensations g' → Msg_StepID tm.2 ≠ Step_ID s).
Proof.
  intros Hp Hs Hst Hh Hsaga Hg Hnd Hexec o.
  unfold ExecuteStep. subst o. on_memory.
  run_with ltac:(apply onMachine_same, GetStep_run, Hp).
  run_with ltac:(apply onMachine_same, loadStep_run, Hs).
  rewrite bool_decide_eq_true_2 by done. cbn [negb]. rewrite Hh.
  run_with ltac:(apply timeNow_world).
  run_with ltac:(apply modifyStep_world; cbn [machine heap]; exact Hs).
  run_with ltac:(apply modifyStep_world; cbn [machine heap];
                 apply deref_storeStep_same; eauto).
  cbn [machine heap db ticks published uuids].
  set (now := wall (ticks (machine w))).
  set (sA := set_Step_Status StatusProcessing s).
  set (sB := set_Step_StartedAt (Some now) sA).
  destruct (store2_update
              (mkMachine (heap (machine w)) (db (machine w))
                         (Datatypes.S (ticks (machine w))))
              p s sA sB saga g Hs eq_refl eq_refl eq_refl Hsaga Hg)
    as (h3 & t3 & Hrun3 & Hp3 & Hf3 & _).
  cbn [heap db ticks] in Hrun3, Hp3, Hf3.
  run_with ltac:(apply onMachine_Return; cbn [machine]; exact Hrun3).
  cbn [machine heap db ticks published uuids].
  set (sB' := set_Step_UpdatedAt _ sB) in *.
  run_with ltac:(apply onMachine_same, loadStep_run; cbn [machine heap]; exact Hp3).
  run_with ltac:(apply onMachine_same, GetSaga_run; cbn [machine db sagas]; exact Hsaga).
  destruct (stepFrame_lookup _ _ _ _ _ Hf3 Hg) as (g3 & Hg3 & Hmeta3 & Hids3).
  run_with ltac:(apply onMachine_same, loadSaga_run; cbn [machine heap]; exact Hg3).
  run_with ltac:(apply onMachine_same, loadStep_run; cbn [machine heap]; exact Hp3).
  replace (Saga_Data g3) with (Saga_Data g) by (by apply (f_equal Saga_Data) in Hmeta3).
  change (Step_Data sB') with (Step_Data s). rewrite Hexec.
  run_with ltac:(apply modifyStep_world; cbn [machine heap]; exact Hp3).
  run_with ltac:(apply modifyStep_world; cbn [machine heap];
                 apply deref_storeStep_same; eauto).
  cbn [machine heap db ticks published uuids].
  set (sC := set_Step_Status StatusFailed sB').
  set (sD := set_Step_Error e sC).
  set (db3 := mkMemDB (sagas (db (machine w))) (<[Step_ID s := p]> (steps (db (machine w))))).
  destruct (store2_update (mkMachine h3 db3 t3) p sB' sC sD saga g3
              Hp3 eq_refl eq_refl eq_refl Hsaga Hg3)
    as (h6 & t6 & Hrun6 & Hp6 & Hf6 & Hcopy6).
  cbn [heap db ticks] in Hrun6, Hp6, Hf6, Hcopy6.
  run_with ltac:(apply onMachine_Return; cbn [machine]; exact Hrun6).
  cbn [machine heap db ticks published uuids sagas steps db3].
  set (sD' := set_Step_UpdatedAt _ sD) in *.
  change (Step_ID sB') with (Step_ID s) in *.
  rewrite insert_insert_eq.
  destruct (stepFrame_lookup _ _ _ _ _ Hf6 Hg3) as (g6 & Hg6 & Hmeta6 & Hids6).
  match goal with |- context [bind (startCompensation _ _) _ ?w6] =>
    destruct (startCompensation_run w6 saga g6 Hg6) as (g8 & t8 & Hcomp & Hcore8)
  end.
  cbn [machine heap db ticks sagas steps published uuids] in Hcomp.
  run_with ltac:(exact Hcomp).
  unfold ret.
  (* facts about the saved saga *)
  assert (Hsteps8 : stepCore <$> Saga_Steps g8 = stepCore <$> Saga_Steps g6)
    by (by apply (f_equal Saga_Steps) in Hcore8).
  assert (Hids8 : stepIDs g8 = stepIDs g).
  { rewrite <- Hids3, <- Hids6. unfold stepIDs.
    apply (f_equal (fmap Step_ID)) in Hsteps8.
    rewrite <- !list_fmap_compose in Hsteps8. exact Hsteps8. }
  assert (Hidsaga : Saga_ID g8 = Saga_ID g6) by (by apply (f_equal Saga_ID) in Hcore8).
  (* the stored pointer and the step behind it *)
  assert (Hfinal : ∃ p', saveIndex saga 0 (Saga_Steps g6)
                           (<[Step_ID s := p]> (steps (db (machine w)))) !! Step_ID s = Some p'
                         ∧ deref h6 p' = Some sD'
                         ∧ ∀ i si, Saga_Steps g6 !! i = Some si → Step_ID si = Step_ID s →
                                   p' = InSaga saga i).
  { destruct (decide (Step_ID s ∈ stepIDs g6)) as [Hin|Hnin].
    - apply list_elem_of_lookup in Hin as [i Hi].
      unfold stepIDs in Hi. rewrite list_lookup_fmap in Hi.
      destruct (Saga_Steps g6 !! i) as [si|] eqn:Hsi; [|done].
      apply (inj Some) in Hi.
      exists (InSaga saga i). split; [|split].
      + rewrite <- Hi. rewrite (saveIndex_lookup_in saga _ 0 _ i si); [done| |done].
        change (Step_ID <$> Saga_Steps g6) with (stepIDs g6). by rewrite Hids6, Hids3.
      + assert (Hl : stepIDs g3 !! i = Some (Step_ID s)).
        { rewrite <- Hids6. unfold stepIDs. by rewrite list_lookup_fmap, Hsi, <- Hi. }
        unfold stepIDs in Hl. rewrite list_lookup_fmap in Hl.
        destruct (Saga_Steps g3 !! i) as [si3|] eqn:Hsi3; [|done].
        apply (inj Some) in Hl.
        apply (Hcopy6 i si3 Hsi3); [congruence | by rewrite Hids3].
      + intros j sj Hj Hidj. f_equal.
        eapply NoDup_lookup; [by rewrite <- Hids3, <- Hids6 in Hnd| |].
        * unfold stepIDs. by rewrite list_lookup_fmap, Hsi.
        * unfold stepIDs. rewrite list_lookup_fmap, Hj. simpl. congruence.
    - exists p. split; [|split].
      + rewrite saveIndex_lookup_notin by done. apply lookup_insert_eq.
      + exact Hp6.
      + intros i si Hi Hidi. exfalso. apply Hnin.
        apply list_elem_of_lookup. exists i.
        unfold stepIDs. by rewrite list_lookup_fmap, Hi, <- Hidi. }
  destruct Hfinal as (p' & Hidx & Hd6 & Huniq).
  destruct (deref_storeSaga_core h6 saga g6 g8 p' sD' Hg6 Hsteps8 Hd6)
    as (s' & Hs' & Hcore').
  eexists _, p', s', g8. split; [reflexivity|].
  cbn [machine heap db sagas steps published].
  split; [exact Hidx|]. split; [exact Hs'|].
  split; [by apply (f_equal Step_Status) in Hcore'|].
  split; [by apply (f_equal Step_Error) in Hcore'|].
  split; [apply storeSaga_lookup|].
  split; [rewrite Hidsaga; apply lookup_insert_eq|].
  split; [by apply (f_equal Saga_Status) in Hcore8|].
  split.
  { apply (f_equal Saga_Error) in Hcore8. apply (f_equal Saga_Error) in Hmeta6.
    apply (f_equal Saga_Error) in Hmeta3. simpl in *. congruence. }
  split; [done|].
  intros [topic m] Hin Heq. unfold compensations in Hin.
  apply list_elem_of_fmap in Hin as (sc & Hm & Hsc).
  apply list_elem_of_filter in Hsc as [Hcompl Hsc].
  rewrite elem_of_reverse in Hsc. apply list_elem_of_lookup in Hsc as [i Hi].
  injection Hm as -> ->. cbn [snd Msg_StepID] in Heq.
  assert (Hl : (stepCore <$> Saga_Steps g6) !! i = Some (stepCore sc))
    by (by rewrite <- Hsteps8, list_lookup_fmap, Hi).
  rewrite list_lookup_fmap in Hl.
  destruct (Saga_Steps g6 !! i) as [si|] eqn:Hsi; [|done].
  apply (inj Some) in Hl.
  assert (Hidi : Step_ID si = Step_ID s)
    by (apply (f_equal Step_ID) in Hl; simpl in Hl; congruence).
  pose proof (Huniq i si Hsi Hidi) as ->.
  cbn [deref] in Hs'. rewrite storeSaga_lookup, Hi in Hs'. injection Hs' as <-.
  apply (f_equal Step_Status) in Hcore'. simpl in Hcore'. congruence.
Qed.
End ForwardFailure.

Lemma forward_failure_triggers_compensation_witness :
  ∃ w' p' s' g',
    ExecuteStep wall0 orch0 "id2" world2 = (w', Return None)
    ∧ steps (db (machine w')) !! "id2" = Some p'
    ∧ deref (heap (machine w')) p' = Some s'
    ∧ Step_Status s' = StatusFailed
    ∧ Step_Error s' = "boom"
    ∧ sagaObjs (heap (machine w')) !! 0 = Some g'
    ∧ Saga_Status g' = StatusFailed
    ∧ published w' = published world2 ++ compensations g'.
Proof.
  edestruct (forward_failure_triggers_compensation wall0 visit0 handlers0 world2 "id2")
    as (w' & p' & s' & g' & Hrun & Hidx & Hs' & Hst & Herr & Hg' & _ & Hgst & _ & Hpub & _).
  - vm_compute. reflexivity.
  - vm_compute. reflexivity.
  - reflexivity.
  - vm_compute. reflexivity.
  - vm_compute. reflexivity.
  - vm_compute. reflexivity.
  - apply (bool_decide_unpack _). vm_compute. exact I.
  - vm_compute. reflexivity.
  - exists w', p', s', g'. fold orch0 in Hrun. by repeat split.
Defined.

(** ** The recovery loop *)

Section Recovery.
Context {S : Type}.
Variable st : Storage S.
Variable every timeout : Z.
Variable active : bool.
Let r := mkRecoveryManager st every timeout active.


Variable ok : Machine S → Prop.


End Recovery.




(** ** The error field of a saga *)

Lemma errorsKept_refl h : errorsKept h h.
Proof. intros a g Hg. right. eauto. Qed.

Lemma errorsKept_trans h1 h2 h3 :
  errorsKept h1 h2 → errorsKept h2 h3 → errorsKept h1 h3.
Proof.
  intros H12 H23 a g3 Hg3.
  destruct (H23 a g3 Hg3) as [?|(g2 & Hg2 & E23)]; [by left|].
  destruct (H12 a g2 Hg2) as [?|(g1 & Hg1 & E12)]; [left; congruence|].
  right. exists g1. split; [done | congruence].
Qed.

Lemma errorsKept_storeSaga h a g :
  (Saga_Error g = "" ∨ ∃ g0, sagaObjs h !! a = Some g0 ∧ Saga_Error g = Saga_Error g0) →
  errorsKept h (storeSaga h a g).
Proof.
  intros Hg a' g' Hl. simpl in Hl.
  destruct (decide (a = a')) as [<-|Hne].
  - rewrite lookup_insert_eq in Hl. injection Hl as <-. exact Hg.
  - rewrite lookup_insert_ne in Hl by done. right. eauto.
Qed.

Lemma errorsKept_storeStep h p s : errorsKept h (storeStep h p s).
Proof.
  destruct p as [a i|c]; simpl.
  - destruct (sagaObjs h !! a) as [g|] eqn:Hg; [|apply errorsKept_refl].
    apply (errorsKept_storeSaga h a). right. eauto.
  - intros a g Hl. right. eauto.
Qed.

Section Keeps.
Context {St : Type}.
Variable proj : St → Heap.

Lemma keeps_ret {A} (a : A) : keeps proj (ret a).
Proof. intros s. apply errorsKept_refl. Qed.

Lemma keeps_panic {A} msg : keeps proj (@panic St A msg).
Proof. intros s. apply errorsKept_refl. Qed.

Lemma keeps_bind {A B} (c : Run St A) (k : A → Run St B) :
  keeps proj c → (∀ a, keeps proj (k a)) → keeps proj (bind c k).
Proof.
  intros Hc Hk s. unfold bind. specialize (Hc s).
  destruct (c s) as [s' [a|msg]]; [|exact Hc].
  eapply errorsKept_trans; [exact Hc | apply Hk].
Qed.

Lemma keeps_when b (c : Run St unit) : keeps proj c → keeps proj (when b c).
Proof. intros Hc. destruct b; [exact Hc | apply keeps_ret]. Qed.

Lemma keeps_forEach {A} (l : list A) (body : A → Run St unit) :
  (∀ x, keeps proj (body x)) → keeps proj (forEach l body).
Proof.
  intros Hbody. induction l as [|x l IH]; [apply keeps_ret|].
  apply keeps_bind; [apply Hbody | intros _; exact IH].
Qed.
End Keeps.

Section KeepsMachine.
Context {S : Type}.

Lemma keeps_onMachine {A} (c : Run (Machine S) A) :
  keeps heap c → keeps (λ w : World S, heap (machine w)) (onMachine c).
Proof.
  intros Hc w. unfold onMachine. specialize (Hc (machine w)).
  by destruct (c (machine w)).
Qed.

Lemma keeps_timeNow wall : keeps heap (@timeNow S wall).
Proof. intros m. apply errorsKept_refl. Qed.

Lemma keeps_loadSaga a : keeps heap (@loadSaga S a).
Proof. intros m. unfold loadSaga. destruct (_ !! _); apply errorsKept_refl. Qed.

Lemma keeps_loadStep p : keeps heap (@loadStep S p).
Proof. intros m. unfold loadStep. destruct (deref _ _); apply errorsKept_refl. Qed.

Lemma keeps_getDB : keeps heap (@getDB S).
Proof. intros m. apply errorsKept_refl. Qed.

Lemma keeps_modifyDB f : keeps heap (@modifyDB S f).
Proof. intros m. apply errorsKept_refl. Qed.

Lemma keeps_modifySaga a f :
  (∀ g, Saga_Error (f g) = Saga_Error g) → keeps heap (@modifySaga S a f).
Proof.
  intros Hf m. unfold modifySaga.
  destruct (sagaObjs (heap m) !! a) as [g|] eqn:Hg; [|apply errorsKept_refl].
  apply errorsKept_storeSaga. right. eauto.
Qed.

Lemma keeps_modifyStep p f : keeps heap (@modifyStep S p f).
Proof.
  intros m. unfold modifyStep.
  destruct (deref (heap m) p); [apply errorsKept_storeStep | apply errorsKept_refl].
Qed.

Lemma keeps_newSaga g : Saga_Error g = "" → keeps heap (@newSaga S g).
Proof. intros Hg m. apply errorsKept_storeSaga. by left. Qed.

Lemma keeps_newStep s : keeps heap (@newStep S s).
Proof. intros m. apply errorsKept_storeStep. Qed.

Lemma keeps_Publish topic msg :
  keeps (λ w : World S, heap (machine w)) (Publish topic msg).
Proof. intros w. apply errorsKept_refl. Qed.

Lemma keeps_uuidNew uuid : keeps (λ w : World S, heap (machine w)) (uuidNew uuid).
Proof. intros w. apply errorsKept_refl. Qed.

Lemma keeps_index l i : keeps (λ w : World S, heap (machine w)) (index l i).
Proof. unfold index. destruct (l !! i); [apply keeps_ret | apply keeps_panic]. Qed.
End KeepsMachine.

Create HintDb keeps.

#[local] Hint Resolve keeps_timeNow keeps_loadSaga keeps_loadStep keeps_getDB keeps_modifyDB
  keeps_modifyStep keeps_newStep keeps_Publish keeps_uuidNew keeps_index : keeps.

(** Decompose a computation along its binds, branches and loops; the
    operations already dealt with are taken from the hint database. *)
Ltac keeps_tac :=
  repeat first
    [ progress intros
    | progress cbv zeta
    | apply keeps_ret | apply keeps_panic
    | solve [auto 1 with keeps nocore]
    | apply keeps_modifySaga; intros ?; reflexivity
    | apply keeps_newSaga; reflexivity
    | apply keeps_onMachine
    | apply keeps_bind
    | apply keeps_when
    | apply keeps_forEach
    | match goal with
      | |- keeps _ (match ?x with _ => _ end) => destruct x
      end ].

Section KeepsMemoryStorage.
Variable wall : nat → Z.
Variable visit : list (string * StepPtr) → list (string * StepPtr).

Lemma keeps_SaveSaga a : keeps heap (MemoryStorage_SaveSaga wall a).
Proof. unfold MemoryStorage_SaveSaga, saveStep. keeps_tac. Qed.

Lemma keeps_copyIntoSaga a p idxs : keeps heap (copyIntoSaga a p idxs).
Proof. induction idxs as [|i idxs IH]; cbn [copyIntoSaga]; keeps_tac. Qed.

Lemma keeps_UpdateStep p : keeps heap (MemoryStorage_UpdateStep wall p).
Proof. unfold MemoryStorage_UpdateStep. keeps_tac. apply keeps_copyIntoSaga. Qed.

Lemma keeps_GetStep id : keeps heap (MemoryStorage_GetStep id).
Proof. unfold MemoryStorage_GetStep. keeps_tac. Qed.

Lemma keeps_GetSaga id : keeps heap (MemoryStorage_GetSaga id).
Proof. unfold MemoryStorage_GetSaga. keeps_tac. Qed.

Lemma keeps_stuckLoop now timeout entries :
  ∀ stuck, keeps heap (stuckLoop now timeout entries stuck).
Proof.
  induction entries as [|[id p] entries IH]; intros stuck; cbn [stuckLoop]; keeps_tac.
Qed.

Lemma keeps_GetStuckSteps timeout :
  keeps heap (MemoryStorage_GetStuckSteps wall visit timeout).
Proof. unfold MemoryStorage_GetStuckSteps. keeps_tac. apply keeps_stuckLoop. Qed.
End KeepsMemoryStorage.

#[local] Hint Resolve keeps_SaveSaga keeps_UpdateStep keeps_GetStep keeps_GetSaga
  keeps_GetStuckSteps : keeps.

Section KeepsOrchestrator.
Variable wall : nat → Z.
Variable uuid : nat → string.
Variable visit : list (string * StepPtr) → list (string * StepPtr).
Variable hs : gmap string StepHandler.
Let o := mkOrchestrator (MemoryStorage wall visit) hs.
Let view := λ w : World MemDB, heap (machine w).

Lemma keeps_StartSaga (o' : Orchestrator MemDB) name names data :
  storage o' = MemoryStorage wall visit →
  keeps view (StartSaga wall uuid o' name names data).
Proof.
  intros Hst. unfold StartSaga, appendStep. rewrite Hst. on_memory. keeps_tac.
Qed.

Lemma storage_registered (l : list builderStep) : ∀ o' : Orchestrator MemDB,
  storage (foldl (λ o step, RegisterHandler o (bs_name step) (bs_handler step)) o' l)
  = storage o'.
Proof. induction l as [|x l IH]; intros o'; [done|]. simpl. by rewrite IH. Qed.

Lemma keeps_compensateFrom saga n : keeps view (compensateFrom saga n).
Proof. induction n as [|n IH]; cbn [compensateFrom]; keeps_tac. Qed.

Lemma keeps_startCompensation saga : keeps view (startCompensation o saga).
Proof.
  unfold startCompensation. subst o. on_memory. keeps_tac.
  apply keeps_compensateFrom.
Qed.

Lemma keeps_continueOrComplete saga : keeps view (continueOrComplete o saga).
Proof. unfold continueOrComplete. subst o. on_memory. keeps_tac. Qed.

Lemma keeps_writeBack saga execData : keeps view (@writeBack MemDB saga execData).
Proof. unfold writeBack. keeps_tac. Qed.

Lemma keeps_ExecuteStep stepID : keeps view (ExecuteStep wall o stepID).
Proof.
  unfold ExecuteStep.
  pose proof keeps_startCompensation as Hfail.
  pose proof keeps_continueOrComplete as Hnext.
  pose proof keeps_writeBack as Hback.
  subst o. on_memory. keeps_tac.
Qed.

Lemma keeps_CompensateStep stepID : keeps view (CompensateStep o stepID).
Proof. unfold CompensateStep. subst o. on_memory. keeps_tac. Qed.

Lemma keeps_dispatch msg : keeps view (dispatch wall o msg).
Proof.
  unfold dispatch.
  destruct (decide _);
    [apply keeps_bind; [apply keeps_ExecuteStep | intros; apply keeps_ret]|].
  destruct (decide _);
    [apply keeps_bind; [apply keeps_CompensateStep | intros; apply keeps_ret]|].
  apply keeps_ret.
Qed.

Lemma keeps_Builder_Execute b : keeps view (Builder_Execute wall uuid b o).
Proof.
  unfold Builder_Execute.
  destruct (decide (length (b_steps b) = 0)); [apply keeps_ret|].
  cbv zeta. apply keeps_bind; [|intros; apply keeps_ret].
  apply keeps_StartSaga. by rewrite storage_registered.
Qed.

Lemma keeps_recoverStuckSteps every timeout active :
  keeps view (recoverStuckSteps
                (mkRecoveryManager (MemoryStorage wall visit) every timeout active)).
Proof.
  unfold recoverStuckSteps, recoverStep.
  cbn [rm_storage stepTimeout GetStuckSteps UpdateStep MemoryStorage]. keeps_tac.
Qed.
End KeepsOrchestrator.

Lemma operation_keeps_errors wall uuid w w' :
  operation wall uuid w w' → errorsKept (heap (machine w)) (heap (machine w')).
Proof.
  intros Hop. destruct Hop.
  - by apply (keeps_StartSaga wall uuid visit).
  - apply (keeps_ExecuteStep wall visit hs).
  - apply (keeps_CompensateStep wall visit hs).
  - apply (keeps_dispatch wall visit hs).
  - apply (keeps_Builder_Execute wall uuid visit hs).
  - apply (keeps_recoverStuckSteps wall visit).
Qed.

(** C10: no operation writes the error field of a saga.  Each operation
    leaves every saga with the error text it had, a new saga has none, and
    so in every state reached from the empty storage every saga, a failed
    one included, has an empty error text; the text of a handler's error
    is recorded on the step only. *)
Theorem saga_error_is_never_written wall uuid (w : World MemDB) :
  reachable wall uuid w →
  (∀ a g, sagaObjs (heap (machine w)) !! a = Some g → Saga_Error g = "")
  ∧ (∀ a g, sagaObjs (heap (machine w)) !! a = Some g →
            Saga_Status g = StatusFailed → Saga_Error g = "")
  ∧ (∀ w1 w2, operation wall uuid w1 w2 →
              errorsKept (heap (machine w1)) (heap (machine w2))).
Proof.
  intros Hreach.
  assert (Hinv : ∀ a g, sagaObjs (heap (machine w)) !! a = Some g → Saga_Error g = "").
  { unfold reachable in Hreach. revert w Hreach.
    apply (rtc_ind_r (λ w, ∀ a g, sagaObjs (heap (machine w)) !! a = Some g
                                  → Saga_Error g = "")).
    - intros a g Hg. cbn in Hg. by rewrite lookup_empty in Hg.
    - intros w w' _ Hop IH a g' Hg'.
      destruct (operation_keeps_errors _ _ _ _ Hop a g' Hg') as [?|(g & Hg & Heq)]; [done|].
      rewrite Heq. by apply (IH a). }
  split; [exact Hinv|]. split; [intros a g Hg _; by apply (Hinv a)|].
  intros w1 w2. apply operation_keeps_errors.
Qed.

Lemma saga_error_is_never_written_witness :
  ∃ g s,
    sagaObjs (heap (machine world3)) !! 0 = Some g
    ∧ Saga_Status g = StatusFailed
    ∧ Saga_Steps g !! 1 = Some s
    ∧ Step_Status s = StatusFailed
    ∧ Step_Error s = "boom"
    ∧ Saga_Error g = "".
Proof.
  assert (Hreach : reachable wall0 uuid0 world3).
  { unfold reachable.
    eapply rtc_l; [exact (op_StartSaga wall0 uuid0 visit0 handlers0 "order"
                            ["a"; "b"; "c"] (Some ∅) emptyWorld)|].
    eapply rtc_l; [exact (op_ExecuteStep wall0 uuid0 visit0 handlers0 "id1" world1)|].
    eapply rtc_l; [exact (op_ExecuteStep wall0 uuid0 visit0 handlers0 "id2" world2)|].
    apply rtc_refl. }
  eexists _, _.
  split; [vm_compute; reflexivity|].
  split; [reflexivity|]. split; [reflexivity|]. split; [reflexivity|].
  split; [reflexivity|].
  eapply (proj1 (saga_error_is_never_written wall0 uuid0 world3 Hreach) 0).
  vm_compute. reflexivity.
Defined.

(** * Further properties of the code *)

(** ** The in-memory storage: what is saved can be looked up *)

Lemma saveIndex_lookup_last saga l : ∀ i idx j s,
  l !! j = Some s →
  (∀ k s', l !! k = Some s' → j < k → Step_ID s' ≠ Step_ID s) →
  saveIndex saga i l idx !! Step_ID s = Some (InSaga saga (i + j)).
Proof.
  induction l as [|x l IH]; intros i idx j s Hj Hlast; [done|].
  cbn [saveIndex]. destruct j as [|j]; simpl in Hj.
  - injection Hj as ->. rewrite saveIndex_lookup_notin.
    + by rewrite lookup_insert_eq, Nat.add_0_r.
    + intros Hin. apply list_elem_of_fmap in Hin as (s' & Heq & Hin).
      apply list_elem_of_lookup in Hin as [k Hk].
      apply (Hlast (S k) s' Hk); [lia | done].
  - rewrite (IH (S i) _ j s Hj); [by rewrite Nat.add_succ_r|].
    intros k s' Hk Hlt. apply (Hlast (S k) s' Hk). lia.
Qed.

Section SavedAndFound.
Variable wall : nat → Z.

(** X1: [SaveSaga] always succeeds. Afterwards [GetSaga] finds the saga
    under its identifier and returns the pointer that was saved, and
    [GetStep] finds each step under its identifier and returns the address
    of the element of the saga's own array, [&saga.Steps[i]] (of the last
    such element when several steps share the identifier). The saga is what
    it was up to the timestamps; the entries of other identifiers and the
    other objects of the heap are as they were. *)
Theorem SaveSaga_then_GetSaga_and_GetStep (m : Machine MemDB) (saga : nat) g :
  sagaObjs (heap m) !! saga = Some g →
  ∃ m' g',
    MemoryStorage_SaveSaga wall saga m = (m', Return None)
    ∧ MemoryStorage_GetSaga (Saga_ID g) m' = (m', Return (inr saga))
    ∧ sagaObjs (heap m') !! saga = Some g'
    ∧ sagaCore g' = sagaCore g
    ∧ (∀ i s, Saga_Steps g !! i = Some s →
              (∀ k s', Saga_Steps g !! k = Some s' → i < k → Step_ID s' ≠ Step_ID s) →
              MemoryStorage_GetStep (Step_ID s) m' = (m', Return (inr (InSaga saga i)))
              ∧ ∃ s', deref (heap m') (InSaga saga i) = Some s' ∧ stepCore s' = stepCore s)
    ∧ (∀ id, id ≠ Saga_ID g → sagas (db m') !! id = sagas (db m) !! id)
    ∧ (∀ id, id ∉ stepIDs g → steps (db m') !! id = steps (db m) !! id)
    ∧ (∀ a, a ≠ saga → sagaObjs (heap m') !! a = sagaObjs (heap m) !! a)
    ∧ stepCells (heap m') = stepCells (heap m).
Proof.
  intros Hg.
  destruct (SaveSaga_spec wall m saga g Hg) as (g' & t' & Hrun & Hcore & _).
  eexists _, g'. split; [exact Hrun|].
  assert (Hsteps : stepCore <$> Saga_Steps g' = stepCore <$> Saga_Steps g)
    by (by apply (f_equal Saga_Steps) in Hcore).
  split; [|split; [|split; [|split; [|split; [|split; [|split]]]]]].
  - apply GetSaga_run. cbn [db sagas]. apply lookup_insert_eq.
  - apply storeSaga_lookup.
  - exact Hcore.
  - intros i s Hi Hlast. split.
    + apply GetStep_run. cbn [db steps].
      by rewrite (saveIndex_lookup_last saga _ 0 _ i s Hi Hlast).
    + cbn [heap]. rewrite deref_storeSaga.
      assert (Hl : (stepCore <$> Saga_Steps g') !! i = Some (stepCore s))
        by (by rewrite Hsteps, list_lookup_fmap, Hi).
      rewrite list_lookup_fmap in Hl.
      destruct (Saga_Steps g' !! i) as [s'|]; [|done].
      exists s'. split; [done|]. by apply (inj Some) in Hl.
  - intros id Hne. cbn [db sagas]. by rewrite lookup_insert_ne.
  - intros id Hnot. cbn [db steps]. by apply saveIndex_lookup_notin.
  - intros a Hne. cbn [heap storeSaga sagaObjs]. by rewrite lookup_insert_ne.
  - reflexivity.
Qed.
End SavedAndFound.

Lemma SaveSaga_then_GetSaga_and_GetStep_witness :
  ∃ m',
    MemoryStorage_SaveSaga wall0 0 (machine world2) = (m', Return None)
    ∧ MemoryStorage_GetSaga "id0" m' = (m', Return (inr 0))
    ∧ MemoryStorage_GetStep "id3" m' = (m', Return (inr (InSaga 0 2))).
Proof.
  edestruct (SaveSaga_then_GetSaga_and_GetStep wall0 (machine world2) 0)
    as (m' & g' & Hrun & Hsaga & _ & _ & Hstep & _).
  - vm_compute. reflexivity.
  - exists m'. split; [exact Hrun|]. split; [exact Hsaga|].
    edestruct (Hstep 2) as [Hget _]; [vm_compute; reflexivity | | exact Hget].
    intros k s' Hk Hlt. destruct k as [|[|[|k]]]; try lia. vm_compute in Hk. done.
Defined.
Section SaveSagaStamps.
Variable wall : nat → Z.

Lemma saveStep_stamps (m : Machine MemDB) a i g s :
  sagaObjs (heap m) !! a = Some g →
  Saga_Steps g !! i = Some s →
  saveStep wall a i m
  = (mkMachine
       (storeSaga (heap m) a
          (set_Saga_Steps (<[i := (stampStep wall (ticks m) s).1]> (Saga_Steps g)) g))
       (mkMemDB (sagas (db m)) (<[Step_ID s := InSaga a i]> (steps (db m))))
       (stampStep wall (ticks m) s).2, Return tt).
Proof.
  intros Hg Hs.
  assert (Hi : i < length (Saga_Steps g)) by (by eapply lookup_lt_Some).
  unfold stampStep.
  destruct (IsZero (Step_CreatedAt s)) eqn:Hz;
    unfold saveStep, bind, loadStep, when, timeNow, modifyStep, modifyDB, ret;
    rewrite (deref_InSaga _ _ _ _ Hg), Hs, Hz; cbn [heap db ticks];
    rewrite ?(deref_InSaga _ _ _ _ Hg), ?Hs; cbn [heap db ticks];
    rewrite (storeStep_InSaga _ _ _ _ _ Hg);
    repeat first
      [ rewrite deref_storeSaga
      | rewrite storeStep_storeSaga
      | rewrite list_lookup_insert_eq by done
      | rewrite list_insert_insert_eq
      | progress cbn [heap db ticks Saga_Steps set_Saga_Steps fst snd] ];
    reflexivity.
Qed.

Lemma saveLoop_stamps a rest : ∀ done (m : Machine MemDB) g,
  sagaObjs (heap m) !! a = Some g →
  Saga_Steps g = done ++ rest →
  forEach (seq (length done) (length rest)) (saveStep wall a) m
  = (mkMachine
       (storeSaga (heap m) a
          (set_Saga_Steps (done ++ (stampSteps wall (ticks m) rest).1) g))
       (mkMemDB (sagas (db m)) (saveIndex a (length done) rest (steps (db m))))
       (stampSteps wall (ticks m) rest).2, Return tt).
Proof.
  induction rest as [|s rest IH]; intros done m g Hg Hsteps.
  - simpl. unfold ret. rewrite app_nil_r in *. rewrite <- Hsteps.
    replace (set_Saga_Steps (Saga_Steps g) g) with g by (by destruct g).
    rewrite storeSaga_id by done. by destruct m as [? [] ?].
  - assert (Hs : Saga_Steps g !! length done = Some s)
      by (rewrite Hsteps; apply list_lookup_middle; done).
    pose proof (saveStep_stamps m a _ g s Hg Hs) as Hrun.
    cbn [length seq forEach]. rewrite (bind_Return _ _ _ _ _ Hrun).
    cbn [stampSteps].
    destruct (stampStep wall (ticks m) s) as [s' t1] eqn:Hst. cbn [fst snd] in *.
    set (g1 := set_Saga_Steps (<[length done := s']> (Saga_Steps g)) g) in *.
    assert (Hsteps1 : Saga_Steps g1 = (done ++ [s']) ++ rest).
    { subst g1. simpl. rewrite Hsteps, insert_app_r_alt, Nat.sub_diag by done.
      simpl. by rewrite <- app_assoc. }
    match type of Hrun with _ = (?m1, _) =>
      pose proof (IH (done ++ [s']) m1 g1 (storeSaga_lookup _ _ _) Hsteps1) as Hloop
    end.
    rewrite length_app, Nat.add_1_r in Hloop. cbn [heap db ticks sagas steps] in Hloop.
    rewrite Hloop. destruct (stampSteps wall t1 rest) as [rest' t2]. cbn [fst snd].
    rewrite storeSaga_storeSaga, <- app_assoc. reflexivity.
Qed.

Lemma stampSteps_lookup l : ∀ t i s,
  l !! i = Some s →
  ∃ u, t ≤ u ∧ u < (stampSteps wall t l).2
       ∧ (stampSteps wall t l).1 !! i = Some (stampStep wall u s).1
       ∧ (stampStep wall u s).2 ≤ (stampSteps wall t l).2.
Proof.
  induction l as [|x l IH]; intros t i s Hi; [done|].
  cbn [stampSteps].
  destruct (stampStep wall t x) as [x' t1] eqn:Hx.
  assert (Ht1 : t < t1).
  { unfold stampStep in Hx. destruct (IsZero (Step_CreatedAt x)); injection Hx as <- <-; lia. }
  destruct i as [|i]; simpl in Hi.
  - injection Hi as ->. exists t.
    destruct (stampSteps wall t1 l) as [rest' t2] eqn:Hrest. cbn [fst snd].
    assert (t1 ≤ t2).
    { clear -Hrest. revert t1 rest' t2 Hrest.
      induction l as [|y l IHl]; intros t1 rest' t2 Hrest; simpl in Hrest.
      - injection Hrest as <- <-. lia.
      - destruct (stampStep wall t1 y) as [y' t3] eqn:Hy.
        destruct (stampSteps wall t3 l) as [r t4] eqn:Hr.
        injection Hrest as <- <-. specialize (IHl _ _ _ Hr).
        unfold stampStep in Hy. destruct (IsZero (Step_CreatedAt y)); injection Hy as <- <-; lia. }
    rewrite Hx. cbn [fst snd]. repeat split; (lia || done).
  - destruct (IH t1 i s Hi) as (u & Hu1 & Hu2 & Hl & Hend).
    destruct (stampSteps wall t1 l) as [rest' t2] eqn:Hrest. cbn [fst snd] in *.
    exists u. repeat split; (lia || done).
Qed.

(** X2: [SaveSaga] sets [saga.UpdatedAt] to the first reading of the clock
    it takes and [UpdatedAt] of every step to a later reading. A creation
    time that is set is kept; one that is the zero time is set to the
    reading taken just before that of [UpdatedAt] of the step, for the saga
    to the second reading of the call. *)
Theorem SaveSaga_refreshes_UpdatedAt_and_keeps_CreatedAt (m : Machine MemDB) (saga : nat) g :
  sagaObjs (heap m) !! saga = Some g →
  ∃ m' g',
    MemoryStorage_SaveSaga wall saga m = (m', Return None)
    ∧ sagaObjs (heap m') !! saga = Some g'
    ∧ Saga_UpdatedAt g' = wall (ticks m)
    ∧ Saga_CreatedAt g'
      = (if IsZero (Saga_CreatedAt g) then wall (S (ticks m)) else Saga_CreatedAt g)
    ∧ (∀ i s, Saga_Steps g !! i = Some s →
         ∃ s' u,
           Saga_Steps g' !! i = Some s'
           ∧ ticks m < u < ticks m'
           ∧ Step_UpdatedAt s' = wall u
           ∧ Step_CreatedAt s'
             = (if IsZero (Step_CreatedAt s) then wall (pred u) else Step_CreatedAt s)).
Proof.
  intros Hg. unfold MemoryStorage_SaveSaga.
  unfold bind at 1. unfold timeNow at 1.
  erewrite bind_Return by (by apply modifySaga_run).
  erewrite bind_Return by (apply loadSaga_run, storeSaga_lookup).
  cbn [Saga_CreatedAt set_Saga_UpdatedAt heap db ticks].
  set (g1 := set_Saga_UpdatedAt _ g).
  set (g2 := if IsZero (Saga_CreatedAt g)
             then set_Saga_CreatedAt (wall (S (ticks m))) g1 else g1).
  set (t2 := if IsZero (Saga_CreatedAt g) then S (S (ticks m)) else S (ticks m)).
  assert (Hw :
    when (IsZero (Saga_CreatedAt g))
      (let* now := timeNow wall in modifySaga saga (set_Saga_CreatedAt now))
      (mkMachine (storeSaga (heap m) saga g1) (db m) (S (ticks m)))
    = (mkMachine (storeSaga (heap m) saga g2) (db m) t2, Return tt)).
  { subst g2 t2. destruct (IsZero (Saga_CreatedAt g)); simpl.
    - unfold bind at 1. unfold timeNow at 1.
      erewrite modifySaga_run by apply storeSaga_lookup. cbn [heap db ticks].
      by rewrite storeSaga_storeSaga.
    - reflexivity. }
  rewrite (bind_Return _ _ _ _ _ Hw).
  erewrite bind_Return by (apply loadSaga_run, storeSaga_lookup).
  unfold bind at 1. unfold modifyDB at 1. cbn [heap db ticks].
  assert (Hsteps2 : Saga_Steps g2 = Saga_Steps g)
    by (subst g2 g1; by destruct (IsZero (Saga_CreatedAt g))).
  match goal with |- context [bind (forEach _ _) _ ?m1] =>
    pose proof (saveLoop_stamps saga (Saga_Steps g2) [] m1 g2 (storeSaga_lookup _ _ _) eq_refl)
      as Hloop
  end.
  simpl length in Hloop at 1. rewrite (bind_Return _ _ _ _ _ Hloop).
  cbn [heap db ticks sagas steps app]. rewrite storeSaga_storeSaga. unfold ret.
  eexists _, _. split; [reflexivity|]. cbn [heap ticks].
  split; [apply storeSaga_lookup|].
  split; [subst g2 g1; by destruct (IsZero (Saga_CreatedAt g))|].
  split; [subst g2 g1; by destruct (IsZero (Saga_CreatedAt g))|].
  intros i s Hi. rewrite <- Hsteps2 in Hi.
  destruct (stampSteps_lookup (Saga_Steps g2) t2 i s Hi) as (u & Hu1 & Hu2 & Hl & Hend).
  cbn [Saga_Steps set_Saga_Steps].
  assert (Ht2 : ticks m < t2) by (subst t2; destruct (IsZero (Saga_CreatedAt g)); lia).
  unfold stampStep in Hl, Hend.
  destruct (IsZero (Step_CreatedAt s)) eqn:Hz; cbn [fst snd] in Hl, Hend.
  - eexists _, (S u). split; [exact Hl|]. split; [lia|]. split; reflexivity.
  - eexists _, u. split; [exact Hl|]. split; [lia|]. split; reflexivity.
Qed.
End SaveSagaStamps.

Lemma SaveSaga_refreshes_UpdatedAt_and_keeps_CreatedAt_witness :
  ∃ m' g',
    MemoryStorage_SaveSaga wall0 0 (machine world2) = (m', Return None)
    ∧ sagaObjs (heap m') !! 0 = Some g'
    ∧ Saga_UpdatedAt g' = wall0 (ticks (machine world2))
    ∧ Saga_CreatedAt g' = 1000%Z.
Proof.
  edestruct (SaveSaga_refreshes_UpdatedAt_and_keeps_CreatedAt wall0 (machine world2) 0)
    as (m' & g' & Hrun & Hg' & Hupd & Hcre & _).
  - vm_compute. reflexivity.
  - exists m', g'. split; [exact Hrun|]. split; [exact Hg'|]. split; [exact Hupd|]. exact Hcre.
Defined.

Section UpdatedAndFound.
Variable wall : nat → Z.

(** X3: [UpdateStep] always succeeds and stamps the step with the reading of
    the clock. Afterwards [GetStep] finds the step under its identifier and
    returns the pointer that was handed in; the saga index and the entries
    of other step identifiers are as they were. When the step's saga is
    stored, its element with that identifier becomes a copy of the step and
    its other elements are kept; when it is not, nothing but the step and
    its index entry changes. No step with another identifier changes
    anywhere on the heap. *)
Theorem UpdateStep_then_GetStep (m : Machine MemDB) p s :
  deref (heap m) p = Some s →
  (∀ a, sagas (db m) !! Step_SagaID s = Some a → is_Some (sagaObjs (heap m) !! a)) →
  let s' := set_Step_UpdatedAt (wall (ticks m)) s in
  ∃ m',
    MemoryStorage_UpdateStep wall p m = (m', Return None)
    ∧ MemoryStorage_GetStep (Step_ID s) m' = (m', Return (inr p))
    ∧ deref (heap m') p = Some s'
    ∧ sagas (db m') = sagas (db m)
    ∧ (∀ id, id ≠ Step_ID s → steps (db m') !! id = steps (db m) !! id)
    ∧ (∀ a g, sagas (db m) !! Step_SagaID s = Some a →
              sagaObjs (heap m) !! a = Some g →
              NoDup (stepIDs g) →
              ∃ g', sagaObjs (heap m') !! a = Some g'
                    ∧ sagaMeta g' = sagaMeta g
                    ∧ ∀ i si, Saga_Steps g !! i = Some si →
                              Saga_Steps g' !! i
                              = Some (if decide (Step_ID si = Step_ID s) then s' else si))
    ∧ (sagas (db m) !! Step_SagaID s = None →
       heap m' = storeStep (heap m) p s' ∧ ticks m' = S (ticks m))
    ∧ (∀ q sq, deref (heap m) q = Some sq → Step_ID sq ≠ Step_ID s →
               deref (heap m') q = Some sq).
Proof.
  intros Hp Hlive s'.
  destruct (UpdateStep_spec wall m p s Hp Hlive) as (h' & t' & Hrun & Hd & Hf & Hcopy & _).
  eexists. split; [exact Hrun|].
  split; [apply GetStep_run; cbn [db steps]; apply lookup_insert_eq|].
  split; [exact Hd|]. split; [reflexivity|].
  split; [intros id Hne; cbn [db steps]; by rewrite lookup_insert_ne|].
  split; [|split].
  - intros a g Ha Hg Hnd. cbn [heap].
    destruct (stepFrame_lookup _ _ _ _ _ Hf Hg) as (g' & Hg' & Hmeta & _).
    exists g'. split; [done|]. split; [done|].
    intros i si Hi. destruct (decide (Step_ID si = Step_ID s)) as [Heq|Hne].
    + pose proof (Hcopy a g i si Ha Hg Hi Heq Hnd) as Hc.
      cbn [deref] in Hc. by rewrite Hg' in Hc.
    + destruct Hf as (_ & _ & Hother).
      pose proof (Hother (InSaga a i) si) as Hc. cbn [deref] in Hc.
      rewrite Hg, Hg' in Hc. by apply Hc.
  - intros Hnone. cbn [heap ticks].
    unfold MemoryStorage_UpdateStep in Hrun.
    unfold bind at 1 in Hrun. unfold timeNow at 1 in Hrun.
    erewrite bind_Return in Hrun by (apply modifyStep_run; cbn [heap]; exact Hp).
    erewrite bind_Return in Hrun
      by (apply loadStep_run; cbn [heap]; apply deref_storeStep_same; eauto).
    unfold bind at 1 in Hrun. unfold modifyDB at 1 in Hrun.
    unfold bind at 1 in Hrun. unfold getDB at 1 in Hrun.
    cbn [heap db ticks sagas steps set_Step_UpdatedAt Step_SagaID Step_ID] in Hrun.
    rewrite Hnone in Hrun. unfold bind, ret in Hrun.
    by injection Hrun as <- <-.
  - intros q sq Hq Hne. cbn [heap]. destruct Hf as (_ & _ & Hother). by apply Hother.
Qed.
End UpdatedAndFound.

Lemma UpdateStep_then_GetStep_witness :
  ∃ m' s',
    MemoryStorage_UpdateStep wall0 (InSaga 0 1) (machine world2) = (m', Return None)
    ∧ MemoryStorage_GetStep "id2" m' = (m', Return (inr (InSaga 0 1)))
    ∧ deref (heap m') (InSaga 0 1) = Some s'
    ∧ Step_UpdatedAt s' = wall0 (ticks (machine world2)).
Proof.
  edestruct (UpdateStep_then_GetStep wall0 (machine world2) (InSaga 0 1))
    as (m' & Hrun & Hget & Hd & _).
  - vm_compute. reflexivity.
  - intros a Ha. vm_compute in Ha. injection Ha as <-. vm_compute. eauto.
  - exists m'. eexists. split; [exact Hrun|]. split; [exact Hget|]. split; [exact Hd|].
    reflexivity.
Defined.

(** ** GetPendingSteps *)

Section GetPendingSteps.
Variable visit : list (string * StepPtr) → list (string * StepPtr).

Lemma pendingLoop_spec (m : Machine MemDB) entries : ∀ pending,
  Forall (λ e, is_Some (deref (heap m) e.2)) entries →
  pendingLoop entries pending m
  = (m, Return (pending ++ filter (λ s, Step_Status s = StatusPending)
                              (omap (λ e, deref (heap m) e.2) entries))).
Proof.
  induction entries as [|[id p] entries IH]; intros pending Hall.
  - simpl. unfold ret. by rewrite app_nil_r.
  - apply Forall_cons in Hall as [[s Hs] Hall]. simpl in Hs.
    cbn [pendingLoop omap list_omap]. cbn [snd]. rewrite Hs.
    rewrite (bind_Return _ _ _ _ _ (loadStep_run m p s Hs)).
    rewrite filter_cons.
    destruct (decide (Step_Status s = StatusPending)) as [Hst|Hst].
    + rewrite IH by done. by rewrite <- app_assoc.
    + by rewrite IH.
Qed.

(** X4: [GetPendingSteps] returns copies of exactly the stored steps whose
    status is pending, in the order of the visit of the map, with a nil
    error; it changes nothing and does not read the clock. *)
Theorem GetPendingSteps_returns_exactly_the_pending_steps (m : Machine MemDB) :
  (∀ l, visit l ≡ₚ l) →
  map_Forall (λ _ p, is_Some (deref (heap m) p)) (steps (db m)) →
  ∃ pending,
    MemoryStorage_GetPendingSteps visit m = (m, Return (inr pending))
    ∧ pending ≡ₚ filter (λ s, Step_Status s = StatusPending) (storedSteps m)
    ∧ (∀ s, s ∈ pending ↔
            (∃ id p, steps (db m) !! id = Some p ∧ deref (heap m) p = Some s)
            ∧ Step_Status s = StatusPending).
Proof.
  intros Hvisit Hvalid.
  set (entries := visit (map_to_list (steps (db m)))).
  assert (Hall : Forall (λ e, is_Some (deref (heap m) e.2)) entries).
  { apply Forall_forall. intros [id p] Hin. simpl.
    apply (Hvalid id). apply elem_of_map_to_list.
    subst entries. by rewrite Hvisit in Hin. }
  exists (filter (λ s, Step_Status s = StatusPending)
            (omap (λ e, deref (heap m) e.2) entries)).
  assert (Hperm : filter (λ s, Step_Status s = StatusPending)
                    (omap (λ e, deref (heap m) e.2) entries)
                  ≡ₚ filter (λ s, Step_Status s = StatusPending) (storedSteps m)).
  { unfold storedSteps. subst entries. by rewrite Hvisit. }
  split; [|split; [done|]].
  - unfold MemoryStorage_GetPendingSteps.
    unfold bind at 1. unfold getDB at 1. fold entries.
    erewrite bind_Return; [reflexivity|].
    rewrite pendingLoop_spec by done. reflexivity.
  - intros s. rewrite Hperm. unfold storedSteps.
    rewrite list_elem_of_filter, list_elem_of_omap. split.
    + intros (Hst & [id p] & Hin & Hd). split; [|done].
      exists id, p. split; [|done]. by apply elem_of_map_to_list.
    + intros ((id & p & Hin & Hd) & Hst). split; [done|].
      exists (id, p). split; [|done]. by apply elem_of_map_to_list.
Qed.
End GetPendingSteps.

Lemma GetPendingSteps_returns_exactly_the_pending_steps_witness :
  ∃ pending,
    MemoryStorage_GetPendingSteps visit0 (machine world2)
    = (machine world2, Return (inr pending))
    ∧ Step_ID <$> pending = ["id3"; "id2"].
Proof.
  destruct (GetPendingSteps_returns_exactly_the_pending_steps visit0 (machine world2))
    as (pending & Hrun & _).
  - intros l. reflexivity.
  - apply (bool_decide_unpack _). vm_compute. exact I.
  - exists pending. split; [exact Hrun|].
    vm_compute in Hrun. injection Hrun as <-. vm_compute. reflexivity.
Defined.

(** ** Identifiers the storage does not know *)

Section Unknown.
Variable wall : nat → Z.
Variable visit : list (string * StepPtr) → list (string * StepPtr).
Variable hs : gmap string StepHandler.

(** X5: for a step identifier that is not stored, [ExecuteStep] and
    [CompensateStep] return the error of [GetStep], wrapped, and the
    delivery of a message for it returns normally; nothing is changed or
    published, and no handler is looked up. *)
Theorem unknown_step_is_an_error (w : World MemDB) stepID :
  steps (db (machine w)) !! stepID = None →
  let o := mkOrchestrator (MemoryStorage wall visit) hs in
  ExecuteStep wall o stepID w
  = (w, Return (Some "failed to get step: step not found"))
  ∧ CompensateStep o stepID w
    = (w, Return (Some "failed to get step: step not found"))
  ∧ ∀ msg, Msg_StepID msg = stepID → dispatch wall o msg w = (w, Return tt).
Proof.
  intros Hnone o.
  assert (Hget : onMachine (MemoryStorage_GetStep stepID) w
                 = (w, Return (inl "step not found"))).
  { apply onMachine_same. unfold MemoryStorage_GetStep, bind, getDB. by rewrite Hnone. }
  assert (He : ExecuteStep wall o stepID w
               = (w, Return (Some "failed to get step: step not found"))).
  { unfold ExecuteStep. subst o. on_memory. by rewrite (bind_Return _ _ _ _ _ Hget). }
  assert (Hc : CompensateStep o stepID w
               = (w, Return (Some "failed to get step: step not found"))).
  { unfold CompensateStep. subst o. on_memory. by rewrite (bind_Return _ _ _ _ _ Hget). }
  split; [done|]. split; [done|].
  intros msg <-. unfold dispatch.
  destruct (decide (Msg_Type msg = "step_execute")).
  - by rewrite (bind_Return _ _ _ _ _ He).
  - destruct (decide (Msg_Type msg = "step_compensate")); [|done].
    by rewrite (bind_Return _ _ _ _ _ Hc).
Qed.
End Unknown.

Lemma unknown_step_is_an_error_witness :
  ExecuteStep wall0 orch0 "nope" world2
  = (world2, Return (Some "failed to get step: step not found")).
Proof.
  refine (proj1 (unknown_step_is_an_error wall0 visit0 handlers0 world2 "nope" _)).
  vm_compute. reflexivity.
Defined.

(** ** MemoryPubSub *)

Section PubSub.
Context {G : Type}.

(** A sequence of calls of [Subscribe]. *)
Lemma subscribers_after (subs : list (string * (Message → G))) : ∀ (bus : MemoryPubSub G),
  closed bus = false →
  let bus' := foldl (λ b e, (MemoryPubSub_Subscribe b e.1 e.2).1) bus subs in
  closed bus' = false
  ∧ ∀ topic,
      default [] (subscribers bus' !! topic)
      = default [] (subscribers bus !! topic) ++ (filter (λ e, e.1 = topic) subs).*2.
Proof.
  induction subs as [|[t h] subs IH]; intros bus Hopen; cbn [foldl].
  - split; [done|]. intros topic. by rewrite app_nil_r.
  - set (bus1 := (MemoryPubSub_Subscribe bus t h).1).
    assert (Hbus1 : bus1
                    = mkMemoryPubSub
                        (<[t := default [] (subscribers bus !! t) ++ [h]]> (subscribers bus))
                        false).
    { subst bus1. unfold MemoryPubSub_Subscribe. cbn [fst snd]. by rewrite Hopen. }
    destruct (IH bus1) as [Hopen' Hsubs]; [by rewrite Hbus1|].
    split; [exact Hopen'|]. intros topic. rewrite Hsubs, Hbus1. cbn [subscribers].
    rewrite filter_cons. cbn [fst]. destruct (decide (t = topic)) as [->|Hne].
    + rewrite lookup_insert_eq. simpl. by rewrite <- app_assoc.
    + by rewrite lookup_insert_ne.
Qed.

(** X6: on a bus that is open, [Publish] starts one goroutine for each
    subscription to the topic of the message, in the order of the
    subscriptions, a callback subscribed twice being called twice, and none
    for the subscriptions to other topics; it returns nil and leaves the bus
    as it is. *)
Theorem Publish_reaches_the_subscribers_of_the_topic
    (subs : list (string * (Message → G))) topic msg :
  let bus := foldl (λ b e, (MemoryPubSub_Subscribe b e.1 e.2).1) NewMemoryPubSub subs in
  MemoryPubSub_Publish bus topic msg
  = ((λ e, e.2 msg) <$> filter (λ e, e.1 = topic) subs, None).
Proof.
  intros bus.
  destruct (subscribers_after subs NewMemoryPubSub eq_refl) as [Hopen Hsubs].
  fold bus in Hopen, Hsubs. specialize (Hsubs topic).
  cbn [NewMemoryPubSub subscribers] in Hsubs.
  rewrite lookup_empty in Hsubs.
  unfold MemoryPubSub_Publish. rewrite Hopen.
  destruct (subscribers bus !! topic) as [handlers|]; simpl in Hsubs.
  - subst handlers. by rewrite <- list_fmap_compose.
  - symmetry in Hsubs. apply fmap_nil_inv in Hsubs. by rewrite Hsubs.
Qed.

(** X7: [Close] is final: whatever was subscribed before and whatever is
    subscribed afterwards, a closed bus holds no subscriber, [Publish]
    starts no goroutine, and every call returns nil. *)
Theorem Close_is_final (bus : MemoryPubSub G) (subs : list (string * (Message → G)))
    topic msg :
  let bus' := foldl (λ b e, (MemoryPubSub_Subscribe b e.1 e.2).1)
                    (MemoryPubSub_Close bus).1 subs in
  bus' = mkMemoryPubSub ∅ true
  ∧ MemoryPubSub_Publish bus' topic msg = ([], None)
  ∧ (MemoryPubSub_Close bus).2 = None
  ∧ ∀ t h, MemoryPubSub_Subscribe bus' t h = (bus', None).
Proof.
  intros bus'.
  assert (Hbus : bus' = mkMemoryPubSub ∅ true).
  { subst bus'. cbn [MemoryPubSub_Close fst].
    induction subs as [|[t h] subs IH]; [done|]. exact IH. }
  rewrite Hbus. by repeat split.
Qed.
End PubSub.

(** ** Start and Stop of the recovery manager *)

Section Lifecycle.
Context {S : Type}.

(** X8: [Start] on a manager that runs and [Stop] on one that does not do
    nothing, so that [Start] twice starts one loop and [Stop] twice closes
    [stopCh] once. [Stop] leaves [stopCh] closed and neither call opens it
    again: a manager that was stopped once and is started again starts a
    loop whose [select] finds [stopCh] closed, and its next [Stop] panics on
    closing the channel a second time. *)
Theorem a_stopped_manager_cannot_be_stopped_again (l : Lifecycle S) :
  RecoveryManager_Start (RecoveryManager_Start l) = RecoveryManager_Start l
  ∧ RecoveryManager_Stop (RecoveryManager_Stop l).1 = ((RecoveryManager_Stop l).1, Return tt)
  ∧ (running (manager l) = true → stopCh (RecoveryManager_Stop l).1 = ChanClosed)
  ∧ (stopCh l = ChanClosed →
     stopCh (RecoveryManager_Start l) = ChanClosed
     ∧ stopCh (RecoveryManager_Stop l).1 = ChanClosed
     ∧ (RecoveryManager_Stop (RecoveryManager_Start l)).2
       = Panic "close of closed channel")
  ∧ (stopCh l = ChanOpen →
     running (manager l) = false →
     ∃ l', RecoveryManager_Stop (RecoveryManager_Start l) = (l', Return tt)
           ∧ loopsStarted l' = Datatypes.S (loopsStarted l)
           ∧ (RecoveryManager_Stop (RecoveryManager_Start l')).2
             = Panic "close of closed channel").
Proof.
  destruct l as [[st every timeout run] ch n].
  unfold RecoveryManager_Start, RecoveryManager_Stop.
  cbn [manager running stopCh loopsStarted set_running fst snd].
  split; [by destruct run|].
  split; [by destruct run, ch|].
  split; [intros ->; by destruct ch|].
  split.
  - intros ->. by destruct run.
  - intros -> ->. cbn. eexists. repeat split.
Qed.

(** X9: [recoveryLoop] runs one recovery for each tick taken by its [select]
    until the context is done or [stopCh] is chosen, and nothing after that. *)
Theorem recoveryLoop_stops_at_the_first_stop (r : RecoveryManager S)
    (n : nat) (c : selected) (rest : list selected) (w : World S) :
  c ≠ TickerC →
  recoveryLoop r (replicate n TickerC ++ c :: rest) w
  = forEach (replicate n tt) (λ _, recoverStuckSteps r) w.
Proof.
  intros Hc. revert w. induction n as [|n IH]; intros w.
  - cbn. by destruct c.
  - cbn [replicate app recoveryLoop forEach]. unfold bind.
    destruct (recoverStuckSteps r w) as [w' [[]|msg]]; [apply IH | done].
Qed.
End Lifecycle.

Lemma a_stopped_manager_cannot_be_stopped_again_witness :
  (RecoveryManager_Stop
     (RecoveryManager_Start
        (RecoveryManager_Stop
           (RecoveryManager_Start (NewLifecycle (MemoryStorage wall0 visit0)))).1)).2
  = Panic "close of closed channel".
Proof.
  destruct (a_stopped_manager_cannot_be_stopped_again
              (RecoveryManager_Stop
                 (RecoveryManager_Start (NewLifecycle (MemoryStorage wall0 visit0)))).1)
    as (_ & _ & _ & Hclosed & _).
  apply Hclosed. reflexivity.
Defined.

Lemma recoveryLoop_stops_at_the_first_stop_witness :
  recoveryLoop (NewRecoveryManager (MemoryStorage wall0 visit0))
    ([TickerC] ++ StopCh :: [TickerC; TickerC]) world2
  = forEach [tt] (λ _, recoverStuckSteps (NewRecoveryManager (MemoryStorage wall0 visit0)))
      world2.
Proof.
  exact (recoveryLoop_stops_at_the_first_stop
           (NewRecoveryManager (MemoryStorage wall0 visit0)) 1 StopCh [TickerC; TickerC]
           world2 ltac:(discriminate)).
Defined.

(** ** Success of a forward action *)

Lemma scanCompleted_find l : ∀ i : Z,
  scanCompleted l i (i - 1)
  = match list_find (λ s, Step_Status s ≠ StatusCompleted) l with
    | Some (j, _) => (i + Z.of_nat j - 1)%Z
    | None => (i + Z.of_nat (length l) - 1)%Z
    end.
Proof.
  induction l as [|x l IH]; intros i; cbn [scanCompleted list_find length].
  - lia.
  - destruct (decide (Step_Status x = StatusCompleted)) as [Hx|Hx].
    + rewrite decide_False by (intros H; by apply H).
      replace i with (i + 1 - 1)%Z at 2 by lia. rewrite IH.
      destruct (list_find _ l) as [[j s]|]; simpl; lia.
    + rewrite decide_True by done. lia.
Qed.

Lemma writeBack_run {S} (w : World S) (saga : nat) g d :
  sagaObjs (heap (machine w)) !! saga = Some g →
  (Saga_Data g = None → d = ∅) →
  writeBack saga d w
  = (mkWorld
       (mkMachine
          (storeSaga (heap (machine w)) saga (set_Saga_Data (copyInto d <$> Saga_Data g) g))
          (db (machine w)) (ticks (machine w)))
       (published w) (uuids w), Return tt).
Proof.
  intros Hg Hnil. unfold writeBack.
  run_with ltac:(apply onMachine_same, loadSaga_run, Hg).
  destruct (Saga_Data g) as [sd|] eqn:Hd.
  - by apply onMachine_Return, modifySaga_run.
  - rewrite decide_True by auto. unfold ret. cbn [fmap option_fmap option_map].
    replace (set_Saga_Data None g) with g by (destruct g; simpl in *; by subst).
    rewrite storeSaga_id by done. by destruct w as [[] ? ?].
Qed.

Section Continue.
Variable wall : nat → Z.
Variable visit : list (string * StepPtr) → list (string * StepPtr).
Variable hs : gmap string StepHandler.

Lemma continueOrComplete_run (w : World MemDB) (saga : nat) g :
  sagaObjs (heap (machine w)) !! saga = Some g →
  ∃ w' g',
    continueOrComplete (mkOrchestrator (MemoryStorage wall visit) hs) saga w
    = (w', Return tt)
    ∧ published w' = published w ++ nextMessage g
    ∧ uuids w' = uuids w
    ∧ sagaObjs (heap (machine w')) !! saga = Some g'
    ∧ match list_find (λ s, Step_Status s ≠ StatusCompleted) (Saga_Steps g) with
      | Some _ => machine w' = machine w ∧ g' = g
      | None =>
          ∃ t', machine w'
                = mkMachine (storeSaga (heap (machine w)) saga g')
                    (mkMemDB (<[Saga_ID g := saga]> (sagas (db (machine w))))
                             (saveIndex saga 0 (Saga_Steps g) (steps (db (machine w)))))
                    t'
                ∧ sagaCore g' = sagaCore (set_Saga_Status StatusCompleted g)
      end.
Proof.
  intros Hg. unfold continueOrComplete.
  run_with ltac:(apply onMachine_same, loadSaga_run, Hg).
  pose proof (scanCompleted_find (Saga_Steps g) 0) as Hscan.
  change (0 - 1)%Z with (-1)%Z in Hscan. rewrite Hscan. unfold nextMessage.
  destruct (list_find _ (Saga_Steps g)) as [[j s]|] eqn:Hfind.
  - apply list_find_Some in Hfind as (Hj & _ & _).
    assert (j < length (Saga_Steps g)) by (by eapply lookup_lt_Some).
    rewrite (proj2 (Z.ltb_lt _ _)) by lia.
    replace (Z.to_nat (0 + Z.of_nat j - 1 + 1)) with j by lia.
    unfold index. rewrite Hj. unfold bind, ret, Publish.
    eexists _, g. split; [reflexivity|]. cbn [published uuids machine]. by repeat split.
  - rewrite (proj2 (Z.ltb_ge _ _)) by lia.
    run_with ltac:(apply onMachine_Return, modifySaga_run, Hg).
    on_memory.
    match goal with |- context [bind (onMachine (MemoryStorage_SaveSaga _ _)) _ ?w1] =>
      destruct (SaveSaga_spec wall (machine w1) saga (set_Saga_Status StatusCompleted g))
        as (g' & t' & Hsave & Hcore & Ht)
    end.
    { apply storeSaga_lookup. }
    run_with ltac:(apply onMachine_Return, Hsave).
    unfold ret. eexists _, g'. split; [reflexivity|].
    cbn [published machine heap db sagas steps uuids ticks Saga_ID Saga_Steps
         set_Saga_Status].
    rewrite app_nil_r, storeSaga_storeSaga.
    split; [done|]. split; [done|]. split; [apply storeSaga_lookup|].
    exists t'. by split.
Qed.
End Continue.
Lemma stepCore_fmap_lookup (l l' : list Step) (i : nat) s :
  stepCore <$> l' = stepCore <$> l → l !! i = Some s →
  ∃ s', l' !! i = Some s' ∧ stepCore s' = stepCore s.
Proof.
  intros Hc Hi.
  assert (Hl : (stepCore <$> l') !! i = Some (stepCore s))
    by (by rewrite Hc, list_lookup_fmap, Hi).
  rewrite list_lookup_fmap in Hl.
  destruct (l' !! i) as [s'|]; [|done].
  exists s'. split; [done|]. by apply (inj Some) in Hl.
Qed.

Lemma list_find_stepCore (P : Step → Prop) `{∀ s, Decision (P s)} (l l' : list Step) :
  (∀ s, P (stepCore s) ↔ P s) →
  stepCore <$> l' = stepCore <$> l →
  (λ r, (r.1, stepCore r.2)) <$> list_find P l' = (λ r, (r.1, stepCore r.2)) <$> list_find P l.
Proof.
  intros HP. revert l'. induction l as [|x l IH]; intros [|x' l'] Hc; try done.
  rewrite !fmap_cons in Hc.
  pose proof (f_equal head Hc) as Hx. cbn [head] in Hx. apply (inj Some) in Hx.
  apply (f_equal tail) in Hc. cbn [tail] in Hc.
  cbn [list_find].
  assert (P x' ↔ P x) by (by rewrite <- (HP x'), Hx, (HP x)).
  destruct (decide (P x')), (decide (P x)); try tauto.
  - cbn [fmap option_fmap option_map fst snd]. by rewrite Hx.
  - specialize (IH l' Hc). rewrite <- !option_fmap_compose.
    destruct (list_find P l') as [[j s]|], (list_find P l) as [[j' s']|];
      cbn [fmap option_fmap option_map fst snd compose prod_map id] in *; try done.
    apply (inj Some) in IH.
    pose proof (f_equal fst IH) as Hj. pose proof (f_equal snd IH) as Hcs.
    cbn [fst snd] in Hj, Hcs. by rewrite Hj, Hcs.
Qed.

Section ForwardSuccess.
Variable wall : nat → Z.
Variable visit : list (string * StepPtr) → list (string * StepPtr).
Variable hs : gmap string StepHandler.

Lemma ExecuteStep_success_run (w : World MemDB) stepID p s handler (saga : nat) g d :
  steps (db (machine w)) !! stepID = Some p →
  deref (heap (machine w)) p = Some s →
  Step_Status s = StatusPending →
  hs !! Step_Name s = Some handler →
  sagas (db (machine w)) !! Step_SagaID s = Some saga →
  sagaObjs (heap (machine w)) !! saga = Some g →
  NoDup (stepIDs g) →
  Execute handler
    (copyInto (entriesOf (Step_Data s)) (copyInto (entriesOf (Saga_Data g)) ∅))
  = (d, None) →
  (Saga_Data g = None → d = ∅) →
  let o := mkOrchestrator (MemoryStorage wall visit) hs in
  let done := completedStep (wall (ticks (machine w))) d s in
  ∃ w' g',
    ExecuteStep wall o stepID w = (w', Return None)
    ∧ uuids w' = uuids w
    ∧ published w' = published w ++ nextMessage g'
    ∧ sagaObjs (heap (machine w')) !! saga = Some g'
    ∧ sagaMeta g'
      = sagaMeta (set_Saga_Data (copyInto d <$> Saga_Data g)
                    (set_Saga_Status
                       (match list_find (λ x, Step_Status x ≠ StatusCompleted)
                                (Saga_Steps g') with
                        | Some _ => Saga_Status g
                        | None => StatusCompleted
                        end) g))
    ∧ sagas (db (machine w')) = <[Saga_ID g := saga]> (sagas (db (machine w)))
    ∧ (∀ i si, Saga_Steps g !! i = Some si →
         ∃ si', Saga_Steps g' !! i = Some si'
                ∧ stepCore si'
                  = stepCore (if decide (Step_ID si = Step_ID s) then done else si)
                ∧ steps (db (machine w')) !! Step_ID si = Some (InSaga saga i))
    ∧ length (Saga_Steps g') = length (Saga_Steps g)
    ∧ (∀ id, id ∉ stepIDs g →
             steps (db (machine w')) !! id
             = (<[Step_ID s := p]> (steps (db (machine w)))) !! id)
    ∧ (∀ q sq, deref (heap (machine w)) q = Some sq → Step_ID sq ≠ Step_ID s →
               ∃ sq', deref (heap (machine w')) q = Some sq' ∧ stepCore sq' = stepCore sq)
    ∧ ∃ s', deref (heap (machine w')) p = Some s' ∧ stepCore s' = stepCore done.
Proof.
  intros Hp Hs Hst Hh Hsaga Hg Hnd Hexec Hnil o done.
  unfold ExecuteStep. subst o. on_memory.
  run_with ltac:(apply onMachine_same, GetStep_run, Hp).
  run_with ltac:(apply onMachine_same, loadStep_run, Hs).
  rewrite bool_decide_eq_true_2 by done. cbn [negb]. rewrite Hh.
  run_with ltac:(apply timeNow_world).
  run_with ltac:(apply modifyStep_world; cbn [machine heap]; exact Hs).
  run_with ltac:(apply modifyStep_world; cbn [machine heap];
                 apply deref_storeStep_same; eauto).
  cbn [machine heap db ticks published uuids].
  set (now := wall (ticks (machine w))) in *.
  set (sA := set_Step_Status StatusProcessing s).
  set (sB := set_Step_StartedAt (Some now) sA).
  destruct (store2_update wall
              (mkMachine (heap (machine w)) (db (machine w))
                         (Datatypes.S (ticks (machine w))))
              p s sA sB saga g Hs eq_refl eq_refl eq_refl Hsaga Hg)
    as (h3 & t3 & Hrun3 & Hp3 & Hf3 & _).
  cbn [heap db ticks] in Hrun3, Hp3, Hf3.
  run_with ltac:(apply onMachine_Return; cbn [machine]; exact Hrun3).
  cbn [machine heap db ticks published uuids].
  set (sB' := set_Step_UpdatedAt _ sB) in *.
  run_with ltac:(apply onMachine_same, loadStep_run; cbn [machine heap]; exact Hp3).
  run_with ltac:(apply onMachine_same, GetSaga_run; cbn [machine db sagas]; exact Hsaga).
  destruct (stepFrame_lookup _ _ _ _ _ Hf3 Hg) as (g3 & Hg3 & Hmeta3 & Hids3).
  run_with ltac:(apply onMachine_same, loadSaga_run; cbn [machine heap]; exact Hg3).
  run_with ltac:(apply onMachine_same, loadStep_run; cbn [machine heap]; exact Hp3).
  replace (Saga_Data g3) with (Saga_Data g) by (by apply (f_equal Saga_Data) in Hmeta3).
  change (Step_Data sB') with (Step_Data s). rewrite Hexec.
  run_with ltac:(apply modifyStep_world; cbn [machine heap]; exact Hp3).
  run_with ltac:(apply modifyStep_world; cbn [machine heap];
                 apply deref_storeStep_same; eauto).
  cbn [machine heap db ticks published uuids].
  set (sC := set_Step_Status StatusCompleted sB').
  set (sD := set_Step_Data (Some d) sC).
  set (db3 := mkMemDB (sagas (db (machine w))) (<[Step_ID s := p]> (steps (db (machine w))))).
  destruct (store2_update wall (mkMachine h3 db3 t3) p sB' sC sD saga g3
              Hp3 eq_refl eq_refl eq_refl Hsaga Hg3)
    as (h6 & t6 & Hrun6 & Hp6 & Hf6 & Hcopy6).
  cbn [heap db ticks] in Hrun6, Hp6, Hf6, Hcopy6.
  run_with ltac:(apply onMachine_Return; cbn [machine]; exact Hrun6).
  cbn [machine heap db ticks published uuids sagas steps db3].
  set (sD' := set_Step_UpdatedAt _ sD) in *.
  change (Step_ID sB') with (Step_ID s) in *.
  rewrite insert_insert_eq.
  destruct (stepFrame_lookup _ _ _ _ _ Hf6 Hg3) as (g6 & Hg6 & Hmeta6 & Hids6).
  assert (Hdata6 : Saga_Data g6 = Saga_Data g).
  { apply (f_equal Saga_Data) in Hmeta6. apply (f_equal Saga_Data) in Hmeta3.
    simpl in *. congruence. }
  match goal with |- context [bind (writeBack _ _) _ ?w6] =>
    pose proof (writeBack_run w6 saga g6 d Hg6) as Hwb
  end.
  cbn [machine heap db ticks published uuids] in Hwb.
  run_with ltac:(apply Hwb; rewrite Hdata6; exact Hnil).
  clear Hwb. cbn [machine heap db ticks published uuids].
  set (g7 := set_Saga_Data _ g6).
  match goal with |- context [bind (onMachine (MemoryStorage_SaveSaga _ _)) _ ?w7] =>
    destruct (SaveSaga_spec wall (machine w7) saga g7 (storeSaga_lookup _ _ _))
      as (g8 & t8 & Hsave & Hcore8 & _)
  end.
  cbn [machine heap db ticks sagas steps] in Hsave.
  rewrite storeSaga_storeSaga in Hsave.
  run_with ltac:(apply onMachine_Return; cbn [machine]; exact Hsave).
  cbn [machine heap db ticks published uuids].
  change (Saga_ID g7) with (Saga_ID g6). change (Saga_Steps g7) with (Saga_Steps g6).
  set (idx8 := saveIndex saga 0 (Saga_Steps g6) (<[Step_ID s := p]> (steps (db (machine w))))).
  match goal with |- context [bind (continueOrComplete _ _) _ ?w8] =>
    destruct (continueOrComplete_run wall visit hs w8 saga g8 (storeSaga_lookup _ _ _))
      as (w9 & g9 & Hcont & Hpub9 & Huu9 & Hg9 & Hcase)
  end.
  run_with ltac:(exact Hcont).
  cbn [machine heap db ticks published uuids sagas steps] in Hpub9, Huu9, Hcase.
  unfold ret.
  (* the saga along the way *)
  assert (Hsteps8 : stepCore <$> Saga_Steps g8 = stepCore <$> Saga_Steps g6)
    by (by apply (f_equal Saga_Steps) in Hcore8).
  assert (Hid6 : Saga_ID g6 = Saga_ID g).
  { apply (f_equal Saga_ID) in Hmeta6. apply (f_equal Saga_ID) in Hmeta3.
    simpl in *. congruence. }
  assert (Hnd6 : NoDup (Step_ID <$> Saga_Steps g6)).
  { change (NoDup (stepIDs g6)). by rewrite Hids6, Hids3. }
  assert (Hsteps9 : stepCore <$> Saga_Steps g9 = stepCore <$> Saga_Steps g6
                    ∧ sagaMeta g9
                      = sagaMeta (set_Saga_Status
                                    (match list_find (λ x, Step_Status x ≠ StatusCompleted)
                                             (Saga_Steps g8) with
                                     | Some _ => Saga_Status g7
                                     | None => StatusCompleted
                                     end) g7)
                    ∧ nextMessage g9 = nextMessage g8
                    ∧ ∃ h9, heap (machine w9) = storeSaga h9 saga g9
                            ∧ (h9 = h6 ∨ h9 = storeSaga h6 saga g8)
                    ∧ sagas (db (machine w9))
                      = <[Saga_ID g := saga]> (sagas (db (machine w)))
                    ∧ (steps (db (machine w9)) = idx8
                       ∨ steps (db (machine w9)) = saveIndex saga 0 (Saga_Steps g8) idx8)).
  { assert (Hmeta8 : sagaMeta g8 = sagaMeta g7).
    { apply (f_equal sagaMeta) in Hcore8. revert Hcore8. by destruct g8, g7. }
    destruct (list_find _ (Saga_Steps g8)) as [[j sj]|] eqn:Hfind.
    - destruct Hcase as [Hm ->]. rewrite Hm. cbn [heap db sagas steps].
      split; [done|]. split.
      { rewrite Hmeta8. by destruct g7. }
      split; [done|].
      exists h6. rewrite ?storeSaga_storeSaga. split; [done|]. split; [by left|].
      rewrite Hid6. split; [done | by left].
    - destruct Hcase as (t9 & Hm & Hcore9). rewrite Hm. cbn [heap db sagas steps].
      assert (Hst9 : stepCore <$> Saga_Steps g9 = stepCore <$> Saga_Steps g8)
        by (by apply (f_equal Saga_Steps) in Hcore9).
      split; [by rewrite Hst9|]. split.
      { apply (f_equal sagaMeta) in Hcore9.
        transitivity (sagaMeta (set_Saga_Status StatusCompleted g8)).
        - revert Hcore9. by destruct g9, g8.
        - revert Hmeta8. destruct g8, g7. simpl. by intros [= -> -> -> -> ->]. }
      split.
      { unfold nextMessage. rewrite Hfind.
        pose proof (list_find_stepCore (λ x, Step_Status x ≠ StatusCompleted)
                      (Saga_Steps g8) (Saga_Steps g9)) as Hfc.
        rewrite Hfind in Hfc. cbn in Hfc.
        destruct (list_find _ (Saga_Steps g9)) as [[? ?]|]; [|done].
        exfalso. by discriminate Hfc. }
      exists (storeSaga h6 saga g8). rewrite ?storeSaga_storeSaga.
      split; [done|]. split; [by right|].
      assert (Hid8 : Saga_ID g8 = Saga_ID g).
      { apply (f_equal Saga_ID) in Hmeta8. simpl in Hmeta8. congruence. }
      rewrite Hid8, Hid6, insert_insert_eq. split; [done | by right]. }
  destruct Hsteps9 as (Hsteps9 & Hmeta9 & Hnext9 & h9 & Hheap9 & Hh9 & Hsagas9 & Hidx9).
  assert (Hfind9 : is_Some (list_find (λ x, Step_Status x ≠ StatusCompleted) (Saga_Steps g9))
                   ↔ is_Some (list_find (λ x, Step_Status x ≠ StatusCompleted)
                                (Saga_Steps g8))).
  { pose proof (list_find_stepCore (λ x, Step_Status x ≠ StatusCompleted)
                  (Saga_Steps g6) (Saga_Steps g9) ltac:(done) Hsteps9) as H9.
    pose proof (list_find_stepCore (λ x, Step_Status x ≠ StatusCompleted)
                  (Saga_Steps g6) (Saga_Steps g8) ltac:(done) Hsteps8) as H8.
    rewrite <- H8 in H9. clear H8.
    destruct (list_find _ (Saga_Steps g9)), (list_find _ (Saga_Steps g8));
      cbn [fmap option_fmap option_map] in H9; try done; split; eauto. }
  (* the elements of the saga *)
  assert (Helem : ∀ i si, Saga_Steps g !! i = Some si →
            ∃ si6, Saga_Steps g6 !! i = Some si6
                   ∧ Step_ID si6 = Step_ID si
                   ∧ si6 = if decide (Step_ID si = Step_ID s) then sD' else si).
  { intros i si Hi.
    assert (Hi3 : ∃ si3, Saga_Steps g3 !! i = Some si3 ∧ Step_ID si3 = Step_ID si).
    { assert (Hl : stepIDs g3 !! i = Some (Step_ID si))
        by (rewrite Hids3; unfold stepIDs; by rewrite list_lookup_fmap, Hi).
      unfold stepIDs in Hl. rewrite list_lookup_fmap in Hl.
      destruct (Saga_Steps g3 !! i) as [si3|]; [|done].
      exists si3. split; [done|]. by apply (inj Some) in Hl. }
    destruct Hi3 as (si3 & Hi3 & Hid3).
    destruct (decide (Step_ID si = Step_ID s)) as [Heq|Hne].
    - pose proof (Hcopy6 i si3 Hi3 ltac:(congruence) ltac:(by rewrite Hids3)) as Hc.
      cbn [deref] in Hc. rewrite Hg6 in Hc. exists sD'. by repeat split.
    - destruct Hf3 as (_ & _ & Ho3). destruct Hf6 as (_ & _ & Ho6).
      pose proof (Ho3 (InSaga saga i) si) as H3. cbn [deref] in H3.
      rewrite Hg, Hg3 in H3. specialize (H3 Hi Hne).
      pose proof (Ho6 (InSaga saga i) si) as H6. cbn [deref] in H6.
      rewrite Hg3, Hg6 in H6. specialize (H6 H3 Hne).
      exists si. by repeat split. }
  assert (HcoreD : stepCore sD' = stepCore done) by reflexivity.
  eexists _, g9. split; [reflexivity|].
  split; [exact Huu9|]. split; [by rewrite Hpub9, Hnext9|].
  split; [exact Hg9|]. split.
  { rewrite Hmeta9. subst g7.
    assert (Hfm : match list_find (λ x, Step_Status x ≠ StatusCompleted) (Saga_Steps g8) with
                  | Some _ => Saga_Status (set_Saga_Data (copyInto d <$> Saga_Data g6) g6)
                  | None => StatusCompleted
                  end
                  = match list_find (λ x, Step_Status x ≠ StatusCompleted) (Saga_Steps g9) with
                    | Some _ => Saga_Status g
                    | None => StatusCompleted
                    end).
    { assert (Saga_Status g6 = Saga_Status g).
      { apply (f_equal Saga_Status) in Hmeta6. apply (f_equal Saga_Status) in Hmeta3.
        simpl in *. congruence. }
      destruct (list_find _ (Saga_Steps g9)) as [r9|], (list_find _ (Saga_Steps g8)) as [r8|];
        simpl; try done.
      - destruct Hfind9 as [Ha _]. by destruct (Ha ltac:(eauto)).
      - destruct Hfind9 as [_ Hb]. by destruct (Hb ltac:(eauto)). }
    rewrite Hfm, Hdata6.
    assert (Hm : sagaMeta g6 = sagaMeta g) by congruence.
    revert Hm. destruct g6, g. simpl. by intros [= -> -> -> -> ->]. }
  split; [exact Hsagas9|]. split.
  { intros i si Hi. destruct (Helem i si Hi) as (si6 & Hi6 & Hid & Hval).
    destruct (stepCore_fmap_lookup _ _ i si6 Hsteps9 Hi6) as (si9 & Hi9 & Hc9).
    exists si9. split; [done|]. split.
    - rewrite Hc9, Hval. by destruct (decide (Step_ID si = Step_ID s)).
    - rewrite <- Hid.
      assert (Hin8 : idx8 !! Step_ID si6 = Some (InSaga saga i))
        by (subst idx8; by rewrite (saveIndex_lookup_in saga _ 0 _ i si6 Hnd6 Hi6)).
      destruct Hidx9 as [->| ->]; [done|].
      destruct (stepCore_fmap_lookup _ _ i si6 Hsteps8 Hi6) as (si8 & Hi8 & Hc8).
      replace (Step_ID si6) with (Step_ID si8)
        by (by apply (f_equal Step_ID) in Hc8).
      rewrite (saveIndex_lookup_in saga _ 0 _ i si8); [done| |done].
      replace (Step_ID <$> Saga_Steps g8) with (Step_ID <$> Saga_Steps g6); [done|].
      apply (f_equal (fmap Step_ID)) in Hsteps8.
      by rewrite <- !list_fmap_compose in Hsteps8. }
  split.
  { assert (Hl6 : length (stepIDs g6) = length (stepIDs g)) by (by rewrite Hids6, Hids3).
    unfold stepIDs in Hl6. rewrite !length_fmap in Hl6.
    pose proof (f_equal length Hsteps9) as Hl9. rewrite !length_fmap in Hl9.
    congruence. }
  assert (Hids8 : Step_ID <$> Saga_Steps g8 = Step_ID <$> Saga_Steps g6).
  { apply (f_equal (fmap Step_ID)) in Hsteps8.
    by rewrite <- !list_fmap_compose in Hsteps8. }
  split.
  { intros id Hnot.
    assert (Hnot6 : id ∉ Step_ID <$> Saga_Steps g6).
    { change (id ∉ stepIDs g6). by rewrite Hids6, Hids3. }
    assert (Hin8 : idx8 !! id = (<[Step_ID s := p]> (steps (db (machine w)))) !! id)
      by (subst idx8; by apply saveIndex_lookup_notin).
    destruct Hidx9 as [->| ->]; [done|].
    rewrite saveIndex_lookup_notin; [done | by rewrite Hids8]. }
  assert (Hframe : ∀ q sq, deref h6 q = Some sq →
                     ∃ sq', deref (heap (machine w9)) q = Some sq'
                            ∧ stepCore sq' = stepCore sq).
  { intros q sq Hq. rewrite Hheap9.
    destruct Hh9 as [->| ->].
    - by apply (deref_storeSaga_core h6 saga g6 g9 q sq Hg6 Hsteps9).
    - destruct (deref_storeSaga_core h6 saga g6 g8 q sq Hg6 Hsteps8 Hq) as (sq8 & Hq8 & Hc8).
      destruct (deref_storeSaga_core (storeSaga h6 saga g8) saga g8 g9 q sq8
                  (storeSaga_lookup _ _ _)) as (sq9 & Hq9 & Hc9); [congruence | done |].
      exists sq9. split; [done | congruence]. }
  split.
  - intros q sq Hq Hne. apply Hframe.
    destruct Hf3 as (_ & _ & Ho3). destruct Hf6 as (_ & _ & Ho6).
    apply Ho6; [|done]. by apply Ho3.
  - destruct (Hframe p sD' Hp6) as (s' & Hs' & Hc'). exists s'. split; [done|].
    by rewrite Hc'.
Qed.
End ForwardSuccess.
Section ForwardSuccessStated.
Variable wall : nat → Z.
Variable visit : list (string * StepPtr) → list (string * StepPtr).
Variable hs : gmap string StepHandler.

End ForwardSuccessStated.


(** ** Edges of ExecuteStep and CompensateStep *)

Lemma writeBack_panics {S} (w : World S) (saga : nat) g d :
  sagaObjs (heap (machine w)) !! saga = Some g →
  Saga_Data g = None →
  d ≠ ∅ →
  writeBack saga d w = (w, Panic "assignment to entry in nil map").
Proof.
  intros Hg Hnil Hd. unfold writeBack.
  run_with ltac:(apply onMachine_same, loadSaga_run, Hg).
  by rewrite Hnil, decide_False.
Qed.

Section Edges.
Variable wall : nat → Z.
Variable visit : list (string * StepPtr) → list (string * StepPtr).
Variable hs : gmap string StepHandler.

(** X11: when the saga of a step is not stored, [ExecuteStep] on the pending
    step has already stored it as processing, with its start time, when
    [GetSaga] fails: it returns the error, the handler is not run and
    nothing is published. A second delivery finds the step processing and
    returns nil without doing anything. [CompensateStep] on a completed step
    returns the error and changes nothing. *)
Theorem a_step_without_its_saga_is_left_processing (w : World MemDB) stepID p s handler :
  steps (db (machine w)) !! stepID = Some p →
  deref (heap (machine w)) p = Some s →
  hs !! Step_Name s = Some handler →
  sagas (db (machine w)) !! Step_SagaID s = None →
  let o := mkOrchestrator (MemoryStorage wall visit) hs in
  (Step_Status s = StatusPending →
   ∃ w',
     ExecuteStep wall o stepID w
     = (w', Return (Some "failed to get saga: saga not found"))
     ∧ steps (db (machine w')) !! Step_ID s = Some p
     ∧ deref (heap (machine w')) p
       = Some (set_Step_UpdatedAt (wall (S (ticks (machine w))))
                 (set_Step_StartedAt (Some (wall (ticks (machine w))))
                    (set_Step_Status StatusProcessing s)))
     ∧ published w' = published w
     ∧ ExecuteStep wall o (Step_ID s) w' = (w', Return None))
  ∧ (Step_Status s = StatusCompleted →
     CompensateStep o stepID w
     = (w, Return (Some "failed to get saga: saga not found"))).
Proof.
  intros Hp Hs Hh Hnone o. split; intros Hst.
  - unfold ExecuteStep at 1. subst o. on_memory.
    run_with ltac:(apply onMachine_same, GetStep_run, Hp).
    run_with ltac:(apply onMachine_same, loadStep_run, Hs).
    rewrite bool_decide_eq_true_2 by done. cbn [negb]. rewrite Hh.
    run_with ltac:(apply timeNow_world).
    run_with ltac:(apply modifyStep_world; cbn [machine heap]; exact Hs).
    run_with ltac:(apply modifyStep_world; cbn [machine heap];
                   apply deref_storeStep_same; eauto).
    cbn [machine heap db ticks published uuids].
    set (now := wall (ticks (machine w))).
    set (sB := set_Step_StartedAt (Some now) (set_Step_Status StatusProcessing s)).
    match goal with |- context [bind (onMachine (MemoryStorage_UpdateStep _ _)) _ ?w2] =>
      destruct (UpdateStep_spec wall (machine w2) p sB) as (h3 & t3 & Hrun3 & Hp3 & _)
    end.
    { cbn [machine heap]. apply deref_storeStep_same.
      exists (set_Step_Status StatusProcessing s). apply deref_storeStep_same. eauto. }
    { intros a. cbn [machine db]. change (Step_SagaID sB) with (Step_SagaID s).
      by rewrite Hnone. }
    cbn [machine heap db ticks] in Hrun3, Hp3.
    run_with ltac:(apply onMachine_Return; cbn [machine]; exact Hrun3).
    cbn [machine heap db ticks published uuids].
    run_with ltac:(apply onMachine_same, loadStep_run; cbn [machine heap]; exact Hp3).
    assert (Hget : ∀ w3 : World MemDB,
              sagas (db (machine w3)) !! Step_SagaID s = None →
              onMachine (MemoryStorage_GetSaga (Step_SagaID s)) w3
              = (w3, Return (inl "saga not found"))).
    { intros w3 H3. apply onMachine_same.
      unfold MemoryStorage_GetSaga, bind, getDB. by rewrite H3. }
    run_with ltac:(apply Hget; cbn [machine db sagas]; exact Hnone).
    unfold ret. eexists. split; [reflexivity|].
    cbn [machine heap db steps published].
    split; [apply lookup_insert_eq|]. split; [exact Hp3|]. split; [done|].
    unfold ExecuteStep. on_memory.
    run_with ltac:(apply onMachine_same, GetStep_run; cbn [machine db steps];
                   apply lookup_insert_eq).
    run_with ltac:(apply onMachine_same, loadStep_run; cbn [machine heap]; exact Hp3).
    by rewrite bool_decide_eq_false_2.
  - unfold CompensateStep. subst o. on_memory.
    run_with ltac:(apply onMachine_same, GetStep_run, Hp).
    run_with ltac:(apply onMachine_same, loadStep_run, Hs).
    rewrite bool_decide_eq_true_2 by done. cbn [negb]. rewrite Hh.
    run_with ltac:(apply onMachine_same; unfold MemoryStorage_GetSaga, bind, getDB;
                   rewrite Hnone; reflexivity).
    reflexivity.
Qed.

(** X12: a saga whose data map is nil, as [StartSaga] stores it when it is
    called with nil data, cannot take a result: when the forward action
    succeeds and the map it leaves is not empty, [ExecuteStep] stores the
    step as completed and then panics on the assignment into the nil map,
    before the saga is saved and before anything is published. *)
Theorem a_result_for_a_saga_with_nil_data_panics
    (w : World MemDB) stepID p s handler (saga : nat) g d :
  steps (db (machine w)) !! stepID = Some p →
  deref (heap (machine w)) p = Some s →
  Step_Status s = StatusPending →
  hs !! Step_Name s = Some handler →
  sagas (db (machine w)) !! Step_SagaID s = Some saga →
  sagaObjs (heap (machine w)) !! saga = Some g →
  Execute handler
    (copyInto (entriesOf (Step_Data s)) (copyInto (entriesOf (Saga_Data g)) ∅))
  = (d, None) →
  Saga_Data g = None →
  d ≠ ∅ →
  let o := mkOrchestrator (MemoryStorage wall visit) hs in
  ∃ w' s' g',
    ExecuteStep wall o stepID w = (w', Panic "assignment to entry in nil map")
    ∧ steps (db (machine w')) !! Step_ID s = Some p
    ∧ deref (heap (machine w')) p = Some s'
    ∧ stepCore s' = stepCore (completedStep (wall (ticks (machine w))) d s)
    ∧ sagaObjs (heap (machine w')) !! saga = Some g'
    ∧ Saga_Status g' = Saga_Status g
    ∧ Saga_Data g' = None
    ∧ published w' = published w.
Proof.
  intros Hp Hs Hst Hh Hsaga Hg Hexec Hnil Hd o.
  unfold ExecuteStep. subst o. on_memory.
  run_with ltac:(apply onMachine_same, GetStep_run, Hp).
  run_with ltac:(apply onMachine_same, loadStep_run, Hs).
  rewrite bool_decide_eq_true_2 by done. cbn [negb]. rewrite Hh.
  run_with ltac:(apply timeNow_world).
  run_with ltac:(apply modifyStep_world; cbn [machine heap]; exact Hs).
  run_with ltac:(apply modifyStep_world; cbn [machine heap];
                 apply deref_storeStep_same; eauto).
  cbn [machine heap db ticks published uuids].
  set (now := wall (ticks (machine w))) in *.
  set (sA := set_Step_Status StatusProcessing s).
  set (sB := set_Step_StartedAt (Some now) sA).
  destruct (store2_update wall
              (mkMachine (heap (machine w)) (db (machine w))
                         (Datatypes.S (ticks (machine w))))
              p s sA sB saga g Hs eq_refl eq_refl eq_refl Hsaga Hg)
    as (h3 & t3 & Hrun3 & Hp3 & Hf3 & _).
  cbn [heap db ticks] in Hrun3, Hp3, Hf3.
  run_with ltac:(apply onMachine_Return; cbn [machine]; exact Hrun3).
  cbn [machine heap db ticks published uuids].
  set (sB' := set_Step_UpdatedAt _ sB) in *.
  run_with ltac:(apply onMachine_same, loadStep_run; cbn [machine heap]; exact Hp3).
  run_with ltac:(apply onMachine_same, GetSaga_run; cbn [machine db sagas]; exact Hsaga).
  destruct (stepFrame_lookup _ _ _ _ _ Hf3 Hg) as (g3 & Hg3 & Hmeta3 & Hids3).
  run_with ltac:(apply onMachine_same, loadSaga_run; cbn [machine heap]; exact Hg3).
  run_with ltac:(apply onMachine_same, loadStep_run; cbn [machine heap]; exact Hp3).
  replace (Saga_Data g3) with (Saga_Data g) by (by apply (f_equal Saga_Data) in Hmeta3).
  change (Step_Data sB') with (Step_Data s). rewrite Hexec.
  run_with ltac:(apply modifyStep_world; cbn [machine heap]; exact Hp3).
  run_with ltac:(apply modifyStep_world; cbn [machine heap];
                 apply deref_storeStep_same; eauto).
  cbn [machine heap db ticks published uuids].
  set (sC := set_Step_Status StatusCompleted sB').
  set (sD := set_Step_Data (Some d) sC).
  set (db3 := mkMemDB (sagas (db (machine w))) (<[Step_ID s := p]> (steps (db (machine w))))).
  destruct (store2_update wall (mkMachine h3 db3 t3) p sB' sC sD saga g3
              Hp3 eq_refl eq_refl eq_refl Hsaga Hg3)
    as (h6 & t6 & Hrun6 & Hp6 & Hf6 & _).
  cbn [heap db ticks] in Hrun6, Hp6, Hf6.
  run_with ltac:(apply onMachine_Return; cbn [machine]; exact Hrun6).
  cbn [machine heap db ticks published uuids sagas steps db3].
  change (Step_ID sB') with (Step_ID s) in *.
  rewrite insert_insert_eq.
  destruct (stepFrame_lookup _ _ _ _ _ Hf6 Hg3) as (g6 & Hg6 & Hmeta6 & Hids6).
  assert (Hm6 : sagaMeta g6 = sagaMeta g) by congruence.
  assert (Hdata6 : Saga_Data g6 = None)
    by (apply (f_equal Saga_Data) in Hm6; simpl in Hm6; congruence).
  unfold bind at 1.
  erewrite writeBack_panics by (first [exact Hdata6 | exact Hd | exact Hg6]).
  eexists _, _, g6. split; [reflexivity|].
  cbn [machine heap db steps published ticks].
  split; [apply lookup_insert_eq|]. split; [exact Hp6|].
  split; [reflexivity|]. split; [exact Hg6|].
  split; [by apply (f_equal Saga_Status) in Hm6|]. by split.
Qed.
End Edges.

Lemma a_step_without_its_saga_is_left_processing_witness :
  let orphan := mkStep "s9" "gone" "a" StatusPending (Some ∅) "" "" None 7 7 in
  let w := fst (onMachine (let* p := newStep orphan in MemoryStorage_UpdateStep wall0 p)
                  emptyWorld) in
  ∃ w', ExecuteStep wall0 orch0 "s9" w
        = (w', Return (Some "failed to get saga: saga not found"))
        ∧ ExecuteStep wall0 orch0 "s9" w' = (w', Return None).
Proof.
  intros orphan w.
  edestruct (a_step_without_its_saga_is_left_processing wall0 visit0 handlers0 w "s9")
    as [Hexec _].
  - vm_compute. reflexivity.
  - vm_compute. reflexivity.
  - vm_compute. reflexivity.
  - vm_compute. reflexivity.
  - destruct (Hexec eq_refl) as (w' & Hrun & _ & _ & _ & Hagain).
    exists w'. fold orch0 in Hrun, Hagain. split; [exact Hrun | exact Hagain].
Defined.

Lemma a_result_for_a_saga_with_nil_data_panics_witness :
  let w := fst (StartSaga wall0 uuid0 orch0 "order" ["a"] None emptyWorld) in
  ∃ w', ExecuteStep wall0 orch0 "id1" w = (w', Panic "assignment to entry in nil map")
        ∧ published w' = published w.
Proof.
  intros w.
  edestruct (a_result_for_a_saga_with_nil_data_panics wall0 visit0 handlers0 w "id1")
    as (w' & s' & g' & Hrun & _ & _ & _ & _ & _ & _ & Hpub).
  - vm_compute. reflexivity.
  - vm_compute. reflexivity.
  - reflexivity.
  - vm_compute. reflexivity.
  - vm_compute. reflexivity.
  - vm_compute. reflexivity.
  - vm_compute. reflexivity.
  - reflexivity.
  - intros Hempty. apply (f_equal (λ m : gmap string Value, m !! "done")) in Hempty.
    vm_compute in Hempty. discriminate Hempty.
  - exists w'. fold orch0 in Hrun. split; [exact Hrun | exact Hpub].
Defined.


(** ** What StartSaga and the builder set up *)

Lemma newSteps_ids wall uuid sagaID names : ∀ u t,
  Step_ID <$> newSteps wall uuid sagaID names u t = uuid <$> seq u (length names).
Proof.
  induction names as [|n names IH]; intros u t; [done|].
  cbn [newSteps length seq]. rewrite !fmap_cons. cbn [Step_ID]. by rewrite IH.
Qed.

Lemma stepCore_ids (l l' : list Step) :
  stepCore <$> l' = stepCore <$> l → Step_ID <$> l' = Step_ID <$> l.
Proof.
  intros H. apply (f_equal (fmap Step_ID)) in H. by rewrite <- !list_fmap_compose in H.
Qed.

Section Started.
Variable wall : nat → Z.
Variable uuid : nat → string.
Variable visit : list (string * StepPtr) → list (string * StepPtr).
Variable hs : gmap string StepHandler.

(** X13: when the identifiers drawn for the steps are distinct, [StartSaga]
    on the in-memory storage leaves every step findable by [GetStep], which
    returns the address of the element of the new saga's own array, and
    every step carries the identifier of the saga. The saga is a new object:
    the sagas already on the heap are untouched, and so are the index
    entries of all other identifiers. *)
Theorem StartSaga_indexes_its_steps_and_keeps_the_rest
    name names data (w : World MemDB) :
  NoDup (uuid <$> seq (S (uuids w)) (length names)) →
  let o := mkOrchestrator (MemoryStorage wall visit) hs in
  let saga := fresh (dom (sagaObjs (heap (machine w)))) in
  ∃ w' g',
    StartSaga wall uuid o name names data w = (w', Return (inr saga))
    ∧ sagaObjs (heap (machine w)) !! saga = None
    ∧ sagaObjs (heap (machine w')) !! saga = Some g'
    ∧ stepIDs g' = uuid <$> seq (S (uuids w)) (length names)
    ∧ (∀ i s, Saga_Steps g' !! i = Some s →
         Step_SagaID s = Saga_ID g'
         ∧ MemoryStorage_GetStep (Step_ID s) (machine w')
           = (machine w', Return (inr (InSaga saga i))))
    ∧ (∀ a, a ≠ saga →
            sagaObjs (heap (machine w')) !! a = sagaObjs (heap (machine w)) !! a)
    ∧ stepCells (heap (machine w')) = stepCells (heap (machine w))
    ∧ (∀ id, id ≠ uuid (uuids w) →
             sagas (db (machine w')) !! id = sagas (db (machine w)) !! id)
    ∧ (∀ id, id ∉ uuid <$> seq (S (uuids w)) (length names) →
             steps (db (machine w')) !! id = steps (db (machine w)) !! id).
Proof.
  intros Hnd o saga.
  destruct (StartSaga_memory wall uuid visit hs name names data w)
    as (g' & t' & Hrun & Hcore).
  fold o saga in Hrun.
  set (g0 := newSagaValue wall uuid name names data (uuids w) (ticks (machine w))) in *.
  assert (Hsteps : stepCore <$> Saga_Steps g' = stepCore <$> Saga_Steps g0)
    by (by apply (f_equal Saga_Steps) in Hcore).
  assert (Hids0 : Step_ID <$> Saga_Steps g0 = uuid <$> seq (S (uuids w)) (length names))
    by apply newSteps_ids.
  eexists _, g'. split; [exact Hrun|].
  cbn [machine heap db sagas steps].
  split; [apply not_elem_of_dom, is_fresh|].
  split; [apply storeSaga_lookup|].
  split; [unfold stepIDs; by rewrite (stepCore_ids _ _ Hsteps)|].
  split; [|split; [|split; [done|split]]].
  - intros i s Hi.
    destruct (stepCore_fmap_lookup _ _ i s (eq_sym Hsteps) Hi) as (s0 & Hi0 & Hc0).
    split.
    + apply (f_equal Step_SagaID) in Hc0. apply (f_equal Saga_ID) in Hcore.
      simpl in Hc0, Hcore. rewrite <- Hc0, Hcore.
      subst g0. unfold newSagaValue in Hi0. cbn [Saga_Steps] in Hi0.
      apply list_elem_of_lookup_2 in Hi0. clear -Hi0.
      revert Hi0. generalize (S (uuids w)) (S (S (ticks (machine w)))).
      induction names as [|n names IH]; intros u t Hin; [by apply elem_of_nil in Hin|].
      cbn [newSteps] in Hin. apply elem_of_cons in Hin as [->|Hin]; [done|]. eauto.
    + apply GetStep_run. cbn [db steps].
      replace (Step_ID s) with (Step_ID s0) by (by apply (f_equal Step_ID) in Hc0).
      rewrite (saveIndex_lookup_in saga _ 0 _ i s0); [done| |done]. by rewrite Hids0.
  - intros a Hne. cbn [storeSaga sagaObjs]. by rewrite lookup_insert_ne.
  - intros id Hne. by rewrite lookup_insert_ne.
  - intros id Hnot. apply saveIndex_lookup_notin. by rewrite Hids0.
Qed.
End Started.

Lemma StartSaga_indexes_its_steps_and_keeps_the_rest_witness :
  ∃ w' g',
    StartSaga wall0 uuid0 orch0 "again" ["a"; "b"] (Some ∅) world2 = (w', Return (inr 1))
    ∧ stepIDs g' = ["id5"; "id6"]
    ∧ sagaObjs (heap (machine w')) !! 0 = sagaObjs (heap (machine world2)) !! 0.
Proof.
  edestruct (StartSaga_indexes_its_steps_and_keeps_the_rest wall0 uuid0 visit0 handlers0
               "again" ["a"; "b"] (Some ∅) world2)
    as (w' & g' & Hrun & _ & _ & Hids & _ & Hother & _).
  - apply (bool_decide_unpack _). vm_compute. exact I.
  - exists w', g'. fold orch0 in Hrun. split; [exact Hrun|]. split; [exact Hids|].
    apply Hother. vm_compute. discriminate.
Defined.

Section Built.
Context {S : Type}.
Variable wall : nat → Z.
Variable uuid : nat → string.

Lemma registered_handlers (l : list builderStep) : ∀ o : Orchestrator S,
  let o' := foldl (λ o step, RegisterHandler o (bs_name step) (bs_handler step)) o l in
  storage o' = storage o
  ∧ (∀ n, n ∉ bs_name <$> l → handlers o' !! n = handlers o !! n)
  ∧ (∀ i st, l !! i = Some st →
       (∀ j st', l !! j = Some st' → i < j → bs_name st' ≠ bs_name st) →
       handlers o' !! bs_name st = Some (bs_handler st)).
Proof.
  induction l as [|x l IH]; intros o; cbn [foldl].
  - split; [done|]. split; [done|]. intros i st Hi. by rewrite lookup_nil in Hi.
  - destruct (IH (RegisterHandler o (bs_name x) (bs_handler x))) as (Hst & Hout & Hin).
    split; [by rewrite Hst|]. split.
    + intros n Hn. rewrite fmap_cons in Hn. apply not_elem_of_cons in Hn as [Hne Hn].
      rewrite (Hout n Hn). cbn [RegisterHandler handlers]. by rewrite lookup_insert_ne.
    + intros [|i] st Hi Hlast; simpl in Hi.
      * injection Hi as ->. rewrite Hout.
        -- cbn [RegisterHandler handlers]. apply lookup_insert_eq.
        -- intros Hel. apply list_elem_of_fmap in Hel as (st' & Heq & Hel).
           apply list_elem_of_lookup in Hel as [j Hj].
           apply (Hlast (Datatypes.S j) st' Hj); [lia | done].
      * apply (Hin i st Hi). intros j st' Hj Hlt.
        apply (Hlast (Datatypes.S j) st' Hj). lia.
Qed.

Lemma registered_all (l : list builderStep) : ∀ (o : Orchestrator S) n,
  n ∈ bs_name <$> l →
  is_Some (handlers
             (foldl (λ o step, RegisterHandler o (bs_name step) (bs_handler step)) o l)
           !! n).
Proof.
  induction l as [|x l IH]; intros o n Hn; [by apply elem_of_nil in Hn|].
  cbn [foldl]. destruct (decide (n ∈ bs_name <$> l)) as [Hin|Hnot]; [by apply IH|].
  rewrite fmap_cons in Hn. apply elem_of_cons in Hn as [->|Hn]; [|done].
  destruct (registered_handlers l (RegisterHandler o (bs_name x) (bs_handler x)))
    as (_ & Hout & _).
  rewrite (Hout _ Hnot). cbn [RegisterHandler handlers]. rewrite lookup_insert_eq. eauto.
Qed.

(** X14: [Execute] on a builder with at least one step registers, for every
    step name, the handler given with the last step of that name, keeps the
    handlers of all other names, and then is [StartSaga] with the step names
    in the order the steps were added and the builder's data. The handlers
    stay registered whether or not the saga could be saved. *)
Theorem Builder_Execute_registers_then_starts (b : Builder) (o : Orchestrator S)
    (w : World S) :
  b_steps b ≠ [] →
  ∃ o',
    storage o' = storage o
    ∧ (∀ n, n ∉ bs_name <$> b_steps b → handlers o' !! n = handlers o !! n)
    ∧ (∀ i st, b_steps b !! i = Some st →
         (∀ j st', b_steps b !! j = Some st' → i < j → bs_name st' ≠ bs_name st) →
         handlers o' !! bs_name st = Some (bs_handler st))
    ∧ (∀ n, n ∈ bs_name <$> b_steps b → is_Some (handlers o' !! n))
    ∧ Builder_Execute wall uuid b o w
      = match StartSaga wall uuid o' (b_name b) (bs_name <$> b_steps b)
                (Some (b_data b)) w with
        | (w', Return r) => (w', Return (o', r))
        | (w', Panic msg) => (w', Panic msg)
        end.
Proof.
  intros Hne.
  set (o' := foldl (λ o step, RegisterHandler o (bs_name step) (bs_handler step))
                   o (b_steps b)).
  destruct (registered_handlers (b_steps b) o) as (Hst & Hout & Hin). fold o' in Hst, Hout, Hin.
  exists o'. split; [done|]. split; [done|]. split; [done|]. split.
  - intros n Hn. by apply registered_all.
  - unfold Builder_Execute. rewrite decide_False by (by destruct (b_steps b)).
    fold o'. unfold bind.
    by destruct (StartSaga wall uuid o' (b_name b) (bs_name <$> b_steps b)
                   (Some (b_data b)) w) as [w' [r|msg]].
Qed.
End Built.

Lemma Builder_Execute_registers_then_starts_witness :
  let b := Builder_Step (Builder_Step (NewBuilder "order") "a" None None)
             "a" (Some (λ d, (d, Some "no"))) None in
  ∃ o', handlers o' !! "a" = Some (NewStepHandler (Some (λ d, (d, Some "no"))) None)
        ∧ handlers o' !! "b" = Some boomHandler
        ∧ Builder_Execute wall0 uuid0 b (mkOrchestrator brokenStorage handlers0) brokenWorld
          = ((StartSaga wall0 uuid0 o' "order" ["a"; "a"] (Some ∅) brokenWorld).1,
             Return (o', inl "failed to save saga: disk full")).
Proof.
  intros b.
  destruct (Builder_Execute_registers_then_starts wall0 uuid0 b
              (mkOrchestrator brokenStorage handlers0) brokenWorld)
    as (o' & Hst & Hout & Hin & _ & Hrun); [discriminate|].
  destruct o' as [st h]. cbn [storage] in Hst. subst st.
  eexists. split; [|split].
  - refine (Hin 1 _ eq_refl _). intros j st' Hj Hlt.
    destruct j as [|[|j]]; [lia | lia | done].
  - rewrite Hout; [reflexivity|]. vm_compute. intros Hel.
    apply elem_of_cons in Hel as [|Hel]; [done|].
    apply elem_of_cons in Hel as [|Hel]; [done|]. by apply elem_of_nil in Hel.
  - rewrite Hrun. reflexivity.
Defined.

(** ** A saga from start to end *)

Lemma copyInto_fresh_step (sd : gmap string Value) :
  copyInto (entriesOf (Some ∅)) (copyInto (entriesOf (Some sd)) ∅) = sd.
Proof.
  unfold copyInto, entriesOf. simpl.
  by rewrite map_empty_union, map_union_empty.
Qed.

Lemma shaped_ext a sid names ids st st' sd sst w :
  (∀ i, i < length ids → st i = st' i) →
  shaped a sid names ids st sd sst w → shaped a sid names ids st' sd sst w.
Proof.
  intros Hext (g & Hg & Hidx & Hid & Hd & Hst & He & Hids & Hnames & Hsteps).
  exists g. repeat (split; [done|]).
  intros i s Hi. destruct (Hsteps i s Hi) as (H1 & H2 & H3 & H4).
  assert (i < length ids).
  { rewrite <- Hids, length_fmap. by eapply lookup_lt_Some. }
  rewrite <- Hext by done. by repeat split.
Qed.

Section Stages.
Variable wall : nat → Z.
Variable uuid : nat → string.
Variable visit : list (string * StepPtr) → list (string * StepPtr).
Variable hs : gmap string StepHandler.
Let o := mkOrchestrator (MemoryStorage wall visit) hs.

Lemma StartSaga_shaped name names data (w : World MemDB) :
  NoDup (uuid <$> seq (S (uuids w)) (length names)) →
  ∃ w' (a : nat),
    StartSaga wall uuid o name names (Some data) w = (w', Return (inr a))
    ∧ shaped a (uuid (uuids w)) names (uuid <$> seq (S (uuids w)) (length names))
             (upTo 0) data StatusPending w'
    ∧ published w' = published w ++ firstMessage uuid names (Some data) (uuids w).
Proof.
  intros Hnd.
  destruct (StartSaga_memory wall uuid visit hs name names (Some data) w)
    as (g' & t' & Hrun & Hcore).
  set (g0 := newSagaValue wall uuid name names (Some data) (uuids w) (ticks (machine w)))
    in *.
  assert (Hsteps : stepCore <$> Saga_Steps g' = stepCore <$> Saga_Steps g0)
    by (by apply (f_equal Saga_Steps) in Hcore).
  assert (Hids0 : Step_ID <$> Saga_Steps g0 = uuid <$> seq (S (uuids w)) (length names))
    by apply newSteps_ids.
  eexists _, _. split; [exact Hrun|]. split; [|done].
  exists g'. cbn [machine heap db sagas steps].
  split; [apply storeSaga_lookup|]. split; [apply lookup_insert_eq|].
  split; [by apply (f_equal Saga_ID) in Hcore|].
  split; [by apply (f_equal Saga_Data) in Hcore|].
  split; [by apply (f_equal Saga_Status) in Hcore|].
  split; [by apply (f_equal Saga_Error) in Hcore|].
  split; [by rewrite (stepCore_ids _ _ Hsteps)|].
  split.
  { apply (f_equal (fmap Step_Name)) in Hsteps. rewrite <- !list_fmap_compose in Hsteps.
    etrans; [exact Hsteps|]. subst g0. cbn [newSagaValue Saga_Steps].
    generalize (S (uuids w)) (S (S (ticks (machine w)))). clear.
    induction names as [|n names IH]; intros u t; [done|].
    cbn [newSteps]. rewrite fmap_cons. cbn. f_equal. apply IH. }
  intros i s Hi.
  destruct (stepCore_fmap_lookup _ _ i s (eq_sym Hsteps) Hi) as (s0 & Hi0 & Hc0).
  assert (Hname : ∃ n, names !! i = Some n).
  { apply lookup_lt_is_Some. apply lookup_lt_Some in Hi0.
    subst g0. cbn [newSagaValue Saga_Steps] in Hi0. by rewrite newSteps_length in Hi0. }
  destruct Hname as [n Hn].
  destruct (newSteps_lookup wall uuid (uuid (uuids w)) names (S (uuids w))
              (S (S (ticks (machine w)))) i n Hn) as (s1 & Hs1 & Hc1).
  subst g0. cbn [newSagaValue Saga_Steps] in Hi0. rewrite Hs1 in Hi0.
  injection Hi0 as <-. rewrite Hc1 in Hc0.
  split; [by apply (f_equal Step_SagaID) in Hc0|].
  split; [by apply (f_equal Step_Status) in Hc0|].
  split; [intros _; by apply (f_equal Step_Data) in Hc0|].
  replace (Step_ID s) with (Step_ID s1).
  - rewrite (saveIndex_lookup_in _ _ 0 _ i s1); [done| |done].
    by rewrite Hids0.
  - apply (f_equal Step_ID) in Hc0. apply (f_equal Step_ID) in Hc1. simpl in *. congruence.
Qed.

Lemma ExecuteStep_shaped a sid names ids k sd sst (w : World MemDB) id name h d :
  shaped a sid names ids (upTo k) sd sst w →
  NoDup ids →
  ids !! k = Some id →
  names !! k = Some name →
  hs !! name = Some h →
  Execute h sd = (d, None) →
  ∃ w',
    ExecuteStep wall o id w = (w', Return None)
    ∧ shaped a sid names ids (upTo (S k)) (copyInto d sd)
             (if decide (S k = length ids) then StatusCompleted else sst) w'
    ∧ published w'
      = published w
        ++ match ids !! S k with
           | Some id' =>
               [("saga_events", mkMessage "step_execute" sid id' (Some (copyInto d sd)))]
           | None => []
           end
    ∧ uuids w' = uuids w.
Proof.
  intros (g & Hg & Hidx & Hid & Hd & Hst & He & Hids & Hnames & Hsteps) Hnd Hk Hname Hh Hexec.
  assert (Hsk : ∃ s, Saga_Steps g !! k = Some s ∧ Step_ID s = id ∧ Step_Name s = name).
  { rewrite <- Hids, list_lookup_fmap in Hk. rewrite <- Hnames, list_lookup_fmap in Hname.
    destruct (Saga_Steps g !! k) as [s|]; [|done].
    exists s. split; [done|]. simpl in *. split; congruence. }
  destruct Hsk as (s & Hsk & Hsid & Hsname).
  destruct (Hsteps k s Hsk) as (Hsaga & Hstatus & Hdata & Hix).
  unfold upTo in Hstatus, Hdata. rewrite decide_False in Hstatus, Hdata by lia.
  specialize (Hdata eq_refl).
  destruct (ExecuteStep_success_run wall visit hs w id (InSaga a k) s h a g d)
    as (w' & g' & Hrun & Huu & Hpub & Hg' & Hmeta & Hsagas & Helem & Hlen & _ & _ & _).
  { by rewrite <- Hsid. }
  { cbn [deref]. by rewrite Hg. }
  { done. }
  { by rewrite Hsname. }
  { by rewrite Hsaga. }
  { done. }
  { unfold stepIDs. by rewrite Hids. }
  { by rewrite Hdata, Hd, copyInto_fresh_step. }
  { by rewrite Hd. }
  exists w'. split; [exact Hrun|].
  assert (Hst' : ∀ i si', Saga_Steps g' !! i = Some si' →
            ∃ si, Saga_Steps g !! i = Some si
                  ∧ Step_ID si' = Step_ID si ∧ Step_Name si' = Step_Name si
                  ∧ Step_SagaID si' = Step_SagaID si
                  ∧ Step_Status si' = upTo (S k) i
                  ∧ (upTo (S k) i = StatusPending → Step_Data si' = Some ∅)
                  ∧ steps (db (machine w')) !! Step_ID si' = Some (InSaga a i)).
  { intros i si' Hi'.
    assert (Hi : is_Some (Saga_Steps g !! i)).
    { apply lookup_lt_is_Some. rewrite <- Hlen. by eapply lookup_lt_Some. }
    destruct Hi as [si Hi]. exists si. split; [done|].
    destruct (Helem i si Hi) as (si'' & Hi'' & Hc & Hix').
    rewrite Hi' in Hi''. injection Hi'' as <-.
    destruct (Hsteps i si Hi) as (Hsaga_i & Hstatus_i & Hdata_i & _).
    assert (Heqid : Step_ID si = Step_ID s ↔ i = k).
    { split.
      - intros Heq. eapply NoDup_lookup; [exact Hnd| |exact Hk].
        rewrite <- Hids, list_lookup_fmap, Hi. simpl. congruence.
      - intros ->. congruence. }
    unfold upTo in *.
    destruct (decide (Step_ID si = Step_ID s)) as [Heq|Hne].
    - apply Heqid in Heq as ->. rewrite Hi in Hsk. injection Hsk as ->.
      rewrite decide_True by lia.
      split; [by apply (f_equal Step_ID) in Hc|].
      split; [by apply (f_equal Step_Name) in Hc|].
      split; [by apply (f_equal Step_SagaID) in Hc|].
      split; [by apply (f_equal Step_Status) in Hc|].
      split; [done|].
      replace (Step_ID si') with (Step_ID s) by (by apply (f_equal Step_ID) in Hc).
      exact Hix'.
    - assert (i ≠ k) by (intros ->; by apply Hne, Heqid).
      split; [by apply (f_equal Step_ID) in Hc|].
      split; [by apply (f_equal Step_Name) in Hc|].
      split; [by apply (f_equal Step_SagaID) in Hc|].
      split.
      { apply (f_equal Step_Status) in Hc. simpl in Hc. rewrite Hc, Hstatus_i.
        destruct (decide (i < k)), (decide (i < S k)); (done || lia). }
      split.
      { intros Hpend. apply (f_equal Step_Data) in Hc. simpl in Hc. rewrite Hc.
        apply Hdata_i. destruct (decide (i < k)), (decide (i < S k)); (done || lia). }
      replace (Step_ID si') with (Step_ID si) by (by apply (f_equal Step_ID) in Hc).
      exact Hix'. }
  assert (Hids' : Step_ID <$> Saga_Steps g' = ids).
  { rewrite <- Hids. apply list_eq. intros i. rewrite !list_lookup_fmap.
    destruct (Saga_Steps g' !! i) as [si'|] eqn:Hi'.
    - destruct (Hst' i si' Hi') as (si & -> & Hi1 & _). simpl. by rewrite Hi1.
    - apply lookup_ge_None in Hi'. rewrite lookup_ge_None_2 by lia. done. }
  assert (Hnames' : Step_Name <$> Saga_Steps g' = names).
  { rewrite <- Hnames. apply list_eq. intros i. rewrite !list_lookup_fmap.
    destruct (Saga_Steps g' !! i) as [si'|] eqn:Hi'.
    - destruct (Hst' i si' Hi') as (si & -> & _ & Hi1 & _). simpl. by rewrite Hi1.
    - apply lookup_ge_None in Hi'. rewrite lookup_ge_None_2 by lia. done. }
  assert (Hlenids : length (Saga_Steps g') = length ids)
    by (by rewrite <- Hids', length_fmap).
  assert (Hfind : list_find (λ x, Step_Status x ≠ StatusCompleted) (Saga_Steps g')
                  = (λ x, (S k, x)) <$> Saga_Steps g' !! S k).
  { destruct (Saga_Steps g' !! S k) as [x|] eqn:Hx; cbn [fmap option_fmap option_map].
    - apply list_find_Some. split; [done|].
      destruct (Hst' _ _ Hx) as (_ & _ & _ & _ & _ & Hs & _).
      unfold upTo in Hs. rewrite decide_False in Hs by lia.
      split; [by rewrite Hs|].
      intros j y Hj Hlt. destruct (Hst' _ _ Hj) as (_ & _ & _ & _ & _ & Hsj & _).
      unfold upTo in Hsj. rewrite decide_True in Hsj by lia. by intros H.
    - apply list_find_None. apply Forall_lookup. intros j y Hj.
      destruct (Hst' _ _ Hj) as (_ & _ & _ & _ & _ & Hsj & _).
      apply lookup_ge_None in Hx. apply lookup_lt_Some in Hj.
      unfold upTo in Hsj. rewrite decide_True in Hsj by lia. by intros H. }
  rewrite Hfind in Hmeta.
  split; [|split; [|done]].
  - exists g'. split; [done|].
    split; [rewrite Hsagas, <- Hid; apply lookup_insert_eq|].
    split; [apply (f_equal Saga_ID) in Hmeta; simpl in Hmeta; congruence|].
    split; [apply (f_equal Saga_Data) in Hmeta; simpl in Hmeta; by rewrite Hmeta, Hd|].
    split.
    { apply (f_equal Saga_Status) in Hmeta. simpl in Hmeta. rewrite Hmeta.
      destruct (Saga_Steps g' !! S k) as [x|] eqn:Hx; cbn [fmap option_fmap option_map].
      - apply lookup_lt_Some in Hx. rewrite decide_False by lia. done.
      - apply lookup_ge_None in Hx. apply lookup_lt_Some in Hk.
        rewrite decide_True by lia. done. }
    split; [apply (f_equal Saga_Error) in Hmeta; simpl in Hmeta; congruence|].
    split; [done|]. split; [done|].
    intros i si' Hi'. destruct (Hst' i si' Hi') as (si & Hi & H1 & H2 & H3 & H4 & H5 & H6).
    destruct (Hsteps i si Hi) as (Hsaga_i & _).
    split; [congruence|]. by repeat split.
  - rewrite Hpub. f_equal. unfold nextMessage. rewrite Hfind.
    rewrite <- Hids', list_lookup_fmap.
    destruct (Saga_Steps g' !! S k) as [x|]; cbn [fmap option_fmap option_map]; [|done].
    do 3 f_equal.
    + apply (f_equal Saga_ID) in Hmeta. simpl in Hmeta. congruence.
    + apply (f_equal Saga_Data) in Hmeta. simpl in Hmeta. by rewrite Hmeta, Hd.
Qed.
End Stages.

(** ** A saga that fails and is compensated *)

Section FailureRun.
Variable wall : nat → Z.
Variable visit : list (string * StepPtr) → list (string * StepPtr).
Variable hs : gmap string StepHandler.

Lemma ExecuteStep_failure_run (w : World MemDB) stepID p s handler (saga : nat) g d e :
  steps (db (machine w)) !! stepID = Some p →
  deref (heap (machine w)) p = Some s →
  Step_Status s = StatusPending →
  hs !! Step_Name s = Some handler →
  sagas (db (machine w)) !! Step_SagaID s = Some saga →
  sagaObjs (heap (machine w)) !! saga = Some g →
  NoDup (stepIDs g) →
  Execute handler
    (copyInto (entriesOf (Step_Data s)) (copyInto (entriesOf (Saga_Data g)) ∅))
  = (d, Some e) →
  let o := mkOrchestrator (MemoryStorage wall visit) hs in
  let failed := failedStep (wall (ticks (machine w))) e s in
  ∃ w' g',
    ExecuteStep wall o stepID w = (w', Return None)
    ∧ uuids w' = uuids w
    ∧ published w' = published w ++ compensations g'
    ∧ sagaObjs (heap (machine w')) !! saga = Some g'
    ∧ sagaMeta g' = sagaMeta (set_Saga_Status StatusFailed g)
    ∧ sagas (db (machine w')) = <[Saga_ID g := saga]> (sagas (db (machine w)))
    ∧ (∀ i si, Saga_Steps g !! i = Some si →
         ∃ si', Saga_Steps g' !! i = Some si'
                ∧ stepCore si'
                  = stepCore (if decide (Step_ID si = Step_ID s) then failed else si)
                ∧ steps (db (machine w')) !! Step_ID si = Some (InSaga saga i))
    ∧ length (Saga_Steps g') = length (Saga_Steps g).
Proof.
  intros Hp Hs Hst Hh Hsaga Hg Hnd Hexec o failed.
  unfold ExecuteStep. subst o. on_memory.
  run_with ltac:(apply onMachine_same, GetStep_run, Hp).
  run_with ltac:(apply onMachine_same, loadStep_run, Hs).
  rewrite bool_decide_eq_true_2 by done. cbn [negb]. rewrite Hh.
  run_with ltac:(apply timeNow_world).
  run_with ltac:(apply modifyStep_world; cbn [machine heap]; exact Hs).
  run_with ltac:(apply modifyStep_world; cbn [machine heap];
                 apply deref_storeStep_same; eauto).
  cbn [machine heap db ticks published uuids].
  set (now := wall (ticks (machine w))) in *.
  set (sA := set_Step_Status StatusProcessing s).
  set (sB := set_Step_StartedAt (Some now) sA).
  destruct (store2_update wall
              (mkMachine (heap (machine w)) (db (machine w))
                         (Datatypes.S (ticks (machine w))))
              p s sA sB saga g Hs eq_refl eq_refl eq_refl Hsaga Hg)
    as (h3 & t3 & Hrun3 & Hp3 & Hf3 & _).
  cbn [heap db ticks] in Hrun3, Hp3, Hf3.
  run_with ltac:(apply onMachine_Return; cbn [machine]; exact Hrun3).
  cbn [machine heap db ticks published uuids].
  set (sB' := set_Step_UpdatedAt _ sB) in *.
  run_with ltac:(apply onMachine_same, loadStep_run; cbn [machine heap]; exact Hp3).
  run_with ltac:(apply onMachine_same, GetSaga_run; cbn [machine db sagas]; exact Hsaga).
  destruct (stepFrame_lookup _ _ _ _ _ Hf3 Hg) as (g3 & Hg3 & Hmeta3 & Hids3).
  run_with ltac:(apply onMachine_same, loadSaga_run; cbn [machine heap]; exact Hg3).
  run_with ltac:(apply onMachine_same, loadStep_run; cbn [machine heap]; exact Hp3).
  replace (Saga_Data g3) with (Saga_Data g) by (by apply (f_equal Saga_Data) in Hmeta3).
  change (Step_Data sB') with (Step_Data s). rewrite Hexec.
  run_with ltac:(apply modifyStep_world; cbn [machine heap]; exact Hp3).
  run_with ltac:(apply modifyStep_world; cbn [machine heap];
                 apply deref_storeStep_same; eauto).
  cbn [machine heap db ticks published uuids].
  set (sC := set_Step_Status StatusFailed sB').
  set (sD := set_Step_Error e sC).
  set (db3 := mkMemDB (sagas (db (machine w))) (<[Step_ID s := p]> (steps (db (machine w))))).
  destruct (store2_update wall (mkMachine h3 db3 t3) p sB' sC sD saga g3
              Hp3 eq_refl eq_refl eq_refl Hsaga Hg3)
    as (h6 & t6 & Hrun6 & Hp6 & Hf6 & Hcopy6).
  cbn [heap db ticks] in Hrun6, Hp6, Hf6, Hcopy6.
  run_with ltac:(apply onMachine_Return; cbn [machine]; exact Hrun6).
  cbn [machine heap db ticks published uuids sagas steps db3].
  set (sD' := set_Step_UpdatedAt _ sD) in *.
  change (Step_ID sB') with (Step_ID s) in *.
  rewrite insert_insert_eq.
  destruct (stepFrame_lookup _ _ _ _ _ Hf6 Hg3) as (g6 & Hg6 & Hmeta6 & Hids6).
  match goal with |- context [bind (startCompensation _ _) _ ?w6] =>
    destruct (startCompensation_run wall visit hs w6 saga g6 Hg6)
      as (g8 & t8 & Hcomp & Hcore8)
  end.
  cbn [machine heap db ticks sagas steps published uuids] in Hcomp.
  run_with ltac:(exact Hcomp).
  unfold ret.
  assert (Hsteps8 : stepCore <$> Saga_Steps g8 = stepCore <$> Saga_Steps g6)
    by (by apply (f_equal Saga_Steps) in Hcore8).
  assert (Hm6 : sagaMeta g6 = sagaMeta g) by congruence.
  assert (Hid6 : Saga_ID g6 = Saga_ID g) by (by apply (f_equal Saga_ID) in Hm6).
  assert (Hnd6 : NoDup (Step_ID <$> Saga_Steps g6)).
  { change (NoDup (stepIDs g6)). by rewrite Hids6, Hids3. }
  eexists _, g8. split; [reflexivity|].
  cbn [machine heap db sagas steps published uuids].
  split; [done|]. split; [done|]. split; [apply storeSaga_lookup|].
  split.
  { apply (f_equal sagaMeta) in Hcore8.
    transitivity (sagaMeta (set_Saga_Status StatusFailed g6)).
    - revert Hcore8. by destruct g8, g6.
    - revert Hm6. destruct g6, g. simpl. by intros [= -> -> -> -> ->]. }
  split; [by rewrite Hid6|]. split.
  - intros i si Hi.
    assert (Hi3 : ∃ si3, Saga_Steps g3 !! i = Some si3 ∧ Step_ID si3 = Step_ID si).
    { assert (Hl : stepIDs g3 !! i = Some (Step_ID si))
        by (rewrite Hids3; unfold stepIDs; by rewrite list_lookup_fmap, Hi).
      unfold stepIDs in Hl. rewrite list_lookup_fmap in Hl.
      destruct (Saga_Steps g3 !! i) as [si3|]; [|done].
      exists si3. split; [done|]. by apply (inj Some) in Hl. }
    destruct Hi3 as (si3 & Hi3 & Hid3).
    assert (Hi6 : ∃ si6, Saga_Steps g6 !! i = Some si6
                         ∧ Step_ID si6 = Step_ID si
                         ∧ si6 = if decide (Step_ID si = Step_ID s) then sD' else si).
    { destruct (decide (Step_ID si = Step_ID s)) as [Heq|Hne].
      - pose proof (Hcopy6 i si3 Hi3 ltac:(congruence) ltac:(by rewrite Hids3)) as Hc.
        cbn [deref] in Hc. rewrite Hg6 in Hc. exists sD'. by repeat split.
      - destruct Hf3 as (_ & _ & Ho3). destruct Hf6 as (_ & _ & Ho6).
        pose proof (Ho3 (InSaga saga i) si) as H3. cbn [deref] in H3.
        rewrite Hg, Hg3 in H3. specialize (H3 Hi Hne).
        pose proof (Ho6 (InSaga saga i) si) as H6. cbn [deref] in H6.
        rewrite Hg3, Hg6 in H6. specialize (H6 H3 Hne).
        exists si. by repeat split. }
    destruct Hi6 as (si6 & Hi6 & Hid & Hval).
    destruct (stepCore_fmap_lookup _ _ i si6 Hsteps8 Hi6) as (si8 & Hi8 & Hc8).
    exists si8. split; [done|]. split.
    + rewrite Hc8, Hval. by destruct (decide (Step_ID si = Step_ID s)).
    + rewrite <- Hid. by rewrite (saveIndex_lookup_in saga _ 0 _ i si6 Hnd6 Hi6).
  - assert (Hl6 : length (stepIDs g6) = length (stepIDs g)) by (by rewrite Hids6, Hids3).
    unfold stepIDs in Hl6. rewrite !length_fmap in Hl6.
    pose proof (f_equal length Hsteps8) as Hl8. rewrite !length_fmap in Hl8.
    congruence.
Qed.

Lemma CompensateStep_run (w : World MemDB) stepID p s handler (saga : nat) g :
  steps (db (machine w)) !! stepID = Some p →
  deref (heap (machine w)) p = Some s →
  Step_Status s = StatusCompleted →
  hs !! Step_Name s = Some handler →
  sagas (db (machine w)) !! Step_SagaID s = Some saga →
  sagaObjs (heap (machine w)) !! saga = Some g →
  NoDup (stepIDs g) →
  let o := mkOrchestrator (MemoryStorage wall visit) hs in
  let err := (Compensate handler
                (copyInto (entriesOf (Step_Data s))
                   (copyInto (entriesOf (Saga_Data g)) ∅))).2 in
  ∃ w' g',
    CompensateStep o stepID w = (w', Return None)
    ∧ uuids w' = uuids w
    ∧ published w' = published w
    ∧ sagaObjs (heap (machine w')) !! saga = Some g'
    ∧ sagaMeta g' = sagaMeta g
    ∧ sagas (db (machine w')) = sagas (db (machine w))
    ∧ steps (db (machine w')) = <[Step_ID s := p]> (steps (db (machine w)))
    ∧ stepIDs g' = stepIDs g
    ∧ (∀ i si, Saga_Steps g !! i = Some si →
         ∃ si', Saga_Steps g' !! i = Some si'
                ∧ stepCore si'
                  = stepCore (if decide (Step_ID si = Step_ID s)
                              then compensatedStep err s else si)).
Proof.
  intros Hp Hs Hst Hh Hsaga Hg Hnd o err.
  unfold CompensateStep. subst o. on_memory.
  run_with ltac:(apply onMachine_same, GetStep_run, Hp).
  run_with ltac:(apply onMachine_same, loadStep_run, Hs).
  rewrite bool_decide_eq_true_2 by done. cbn [negb]. rewrite Hh.
  run_with ltac:(apply onMachine_same, GetSaga_run, Hsaga).
  run_with ltac:(apply onMachine_same, loadSaga_run, Hg).
  run_with ltac:(apply onMachine_same, loadStep_run, Hs).
  fold err.
  set (s1 := match err with Some e => set_Step_Error e s | None => s end).
  assert (∃ h1,
    match err with
    | Some e => onMachine (modifyStep p (set_Step_Error e))
    | None => ret tt
    end w
    = (mkWorld (mkMachine h1 (db (machine w)) (ticks (machine w)))
               (published w) (uuids w), Return tt)
    ∧ deref h1 p = Some s1 ∧ stepFrame (Step_ID s) (heap (machine w)) h1)
    as (h1 & Hrun1 & Hp1 & Hf1).
  { subst s1. destruct err as [e|].
    - eexists. split; [by apply modifyStep_world|].
      split; [apply deref_storeStep_same; eauto | by apply storeStep_frame].
    - exists (heap (machine w)). split; [by destruct w as [[] ? ?]|].
      split; [done | apply stepFrame_refl]. }
  run_with ltac:(exact Hrun1).
  run_with ltac:(apply modifyStep_world; cbn [machine heap]; exact Hp1).
  cbn [machine heap db ticks published uuids].
  set (s2 := set_Step_Status StatusCompensated s1).
  set (h2 := storeStep h1 p s2).
  assert (Hid1 : Step_ID s1 = Step_ID s) by (subst s1; by destruct err).
  assert (Hsid2 : Step_SagaID s2 = Step_SagaID s) by (subst s2 s1; by destruct err).
  assert (Hid2 : Step_ID s2 = Step_ID s) by (subst s2 s1; by destruct err).
  assert (Hp2 : deref h2 p = Some s2) by (apply deref_storeStep_same; eauto).
  assert (Hf2 : stepFrame (Step_ID s) (heap (machine w)) h2).
  { eapply stepFrame_trans; [exact Hf1|]. rewrite <- Hid1. by apply storeStep_frame. }
  destruct (stepFrame_lookup _ _ _ _ _ Hf2 Hg) as (g2 & Hg2 & Hmeta2 & Hids2).
  destruct (UpdateStep_spec wall
              (mkMachine h2 (db (machine w)) (ticks (machine w))) p s2 Hp2)
    as (h3 & t3 & Hrun3 & Hp3 & Hf3 & Hcopy3 & _).
  { intros a Ha. cbn [heap db] in *. rewrite Hsid2, Hsaga in Ha. injection Ha as <-. eauto. }
  cbn [heap db ticks] in Hrun3, Hp3, Hf3, Hcopy3. rewrite Hid2 in *.
  run_with ltac:(apply onMachine_Return; cbn [machine]; exact Hrun3).
  unfold ret.
  destruct (stepFrame_lookup _ _ _ _ _ Hf3 Hg2) as (g3 & Hg3 & Hmeta3 & Hids3).
  eexists _, g3. split; [reflexivity|].
  cbn [machine heap db sagas steps published uuids].
  split; [done|]. split; [done|]. split; [done|]. split; [congruence|].
  split; [done|]. split; [done|]. split; [congruence|].
  intros i si Hi.
  assert (Hi2 : ∃ si2, Saga_Steps g2 !! i = Some si2 ∧ Step_ID si2 = Step_ID si).
  { assert (Hl : stepIDs g2 !! i = Some (Step_ID si))
      by (rewrite Hids2; unfold stepIDs; by rewrite list_lookup_fmap, Hi).
    unfold stepIDs in Hl. rewrite list_lookup_fmap in Hl.
    destruct (Saga_Steps g2 !! i) as [si2|]; [|done].
    exists si2. split; [done|]. by apply (inj Some) in Hl. }
  destruct Hi2 as (si2 & Hi2 & Hidi2).
  destruct (decide (Step_ID si = Step_ID s)) as [Heq|Hne].
  - pose proof (Hcopy3 saga g2 i si2) as Hc. rewrite Hsid2 in Hc.
    specialize (Hc Hsaga Hg2 Hi2 ltac:(congruence) ltac:(by rewrite Hids2)).
    cbn [deref] in Hc. rewrite Hg3 in Hc. eexists. split; [exact Hc|].
    subst s2 s1. unfold compensatedStep. by destruct err.
  - destruct Hf2 as (_ & _ & Ho2). destruct Hf3 as (_ & _ & Ho3).
    pose proof (Ho2 (InSaga saga i) si) as H2. cbn [deref] in H2.
    rewrite Hg, Hg2 in H2. specialize (H2 Hi Hne).
    pose proof (Ho3 (InSaga saga i) si) as H3. cbn [deref] in H3.
    rewrite Hg2, Hg3 in H3. specialize (H3 H2 Hne).
    exists si. by split.
Qed.
End FailureRun.
Section Served.
Variable wall : nat → Z.
Variable visit : list (string * StepPtr) → list (string * StepPtr).
Variable hs : gmap string StepHandler.
Let o := mkOrchestrator (MemoryStorage wall visit) hs.
Let bus := (StartListener wall o NewMemoryPubSub).1.

Lemma serve_one fuel next (w w' : World MemDB) msg :
  published w !! next = Some ("saga_events", msg) →
  dispatch wall o msg w = (w', Return tt) →
  serve (S fuel) bus next w = serve fuel bus (S next) w'.
Proof.
  intros Hmsg Hrun. cbn [serve]. rewrite Hmsg.
  assert (Hbus : (MemoryPubSub_Publish bus "saga_events" msg).1 = [dispatch wall o msg]).
  { subst bus. unfold StartListener, MemoryPubSub_Subscribe, MemoryPubSub_Publish.
    cbn [NewMemoryPubSub closed subscribers fst]. rewrite lookup_insert_eq.
    by rewrite lookup_empty. }
  rewrite Hbus. cbn [forEach]. unfold bind at 1. unfold bind at 1. rewrite Hrun.
  reflexivity.
Qed.

Lemma serve_end fuel next (w : World MemDB) :
  published w !! next = None → serve fuel bus next w = (w, Return next).
Proof. intros Hnone. destruct fuel; [done|]. cbn [serve]. by rewrite Hnone. Qed.

Lemma dispatch_execute (w w' : World MemDB) msg :
  Msg_Type msg = "step_execute" →
  ExecuteStep wall o (Msg_StepID msg) w = (w', Return None) →
  dispatch wall o msg w = (w', Return tt).
Proof.
  intros Hty Hrun. unfold dispatch. rewrite decide_True by done.
  by rewrite (bind_Return _ _ _ _ _ Hrun).
Qed.

Lemma forward_steps a sid names ids : ∀ m k (w : World MemDB) next sd sst,
  NoDup ids →
  length names = length ids →
  k + m ≤ length ids →
  (∀ i n, k ≤ i < k + m → names !! i = Some n →
          ∃ h, hs !! n = Some h ∧ ∀ d, (Execute h d).2 = None) →
  shaped a sid names ids (upTo k) sd sst w →
  (∃ msg, published w !! next = Some ("saga_events", msg)
          ∧ Msg_Type msg = "step_execute" ∧ ids !! k = Some (Msg_StepID msg)) →
  length (published w) = S next →
  ∃ w' tail,
    (∀ fuel, serve (m + fuel) bus next w = serve fuel bus (next + m) w')
    ∧ published w' = published w ++ tail
    ∧ header <$> tail
      = (λ id, ("saga_events", "step_execute", sid, id)) <$> take m (drop (S k) ids)
    ∧ uuids w' = uuids w
    ∧ shaped a sid names ids (upTo (k + m)) (forward hs (take m (drop k names)) sd)
             (if decide (1 ≤ m ∧ k + m = length ids) then StatusCompleted else sst) w'
    ∧ (k + m < length ids →
       length (published w') = S (next + m)
       ∧ ∃ msg, published w' !! (next + m) = Some ("saga_events", msg)
                ∧ Msg_Type msg = "step_execute"
                ∧ ids !! (k + m) = Some (Msg_StepID msg))
    ∧ (1 ≤ m → k + m = length ids → length (published w') = next + m).
Proof.
  induction m as [|m IH]; intros k w next sd sst Hnd Hlen Hkm Hok Hshape Hmsg Hpub.
  { exists w, []. rewrite !Nat.add_0_r, app_nil_r. cbn [take].
    split; [done|]. split; [done|]. split; [done|]. split; [done|].
    split; [rewrite decide_False by lia; exact Hshape|].
    split; [by intros _ | lia]. }
  destruct Hmsg as (msg & Hmsg & Hty & Hidk).
  assert (Hname : ∃ name, names !! k = Some name).
  { apply lookup_lt_is_Some. lia. }
  destruct Hname as [name Hname].
  destruct (Hok k name ltac:(lia) Hname) as (h & Hh & Hsucc).
  destruct (Execute h sd) as [d e] eqn:Hexec.
  assert (e = None) as -> by (specialize (Hsucc sd); by rewrite Hexec in Hsucc).
  destruct (ExecuteStep_shaped wall visit hs a sid names ids k sd sst w _ name h d
              Hshape Hnd Hidk Hname Hh Hexec)
    as (w1 & Hrun & Hshape1 & Hpub1 & Huu1).
  assert (Hdrop : forward hs (take (S m) (drop k names)) sd
                  = forward hs (take m (drop (S k) names)) (copyInto d sd)).
  { rewrite (drop_S _ _ _ Hname). unfold forward. cbn [take foldl]. by rewrite Hh, Hexec. }
  pose proof (dispatch_execute w w1 msg Hty Hrun) as Hdisp.
  destruct (ids !! S k) as [id'|] eqn:Hnext.
  - (* there is a next step: its message is waiting *)
    assert (S k < length ids) by (by eapply lookup_lt_Some).
    rewrite decide_False in Hshape1 by lia.
    destruct (IH (S k) w1 (S next) (copyInto d sd) sst)
      as (w' & tail & Hserve & Hpub' & Hhead & Huu' & Hshape' & Hmore & Hdone);
      try done; try lia.
    { intros i n Hi. apply Hok. lia. }
    { exists (mkMessage "step_execute" sid id' (Some (copyInto d sd))).
      split; [|split; [done|exact Hnext]].
      rewrite Hpub1. rewrite lookup_app_r by lia.
      by replace (S next - length (published w)) with 0 by lia. }
    { rewrite Hpub1, length_app. simpl. lia. }
    exists w', (("saga_events", mkMessage "step_execute" sid id' (Some (copyInto d sd)))
                  :: tail).
    replace (k + S m) with (S k + m) by lia.
    replace (next + S m) with (S next + m) by lia.
    split; [|split; [|split; [|split; [|split; [|split]]]]].
    + intros fuel. cbn [Nat.add].
      rewrite (serve_one (m + fuel) next w w1 msg Hmsg Hdisp). apply Hserve.
    + rewrite Hpub', Hpub1, <- app_assoc. done.
    + rewrite fmap_cons, Hhead. rewrite (drop_S _ _ _ Hnext). done.
    + congruence.
    + rewrite Hdrop.
      destruct (decide (1 ≤ m ∧ S k + m = length ids)),
               (decide (1 ≤ S m ∧ S k + m = length ids)); (done || lia).
    + exact Hmore.
    + intros _ Heq. destruct m as [|m']; [lia|]. apply Hdone; lia.
  - (* that was the last step *)
    assert (Hlast : S k = length ids).
    { apply lookup_ge_None in Hnext. apply lookup_lt_Some in Hidk. lia. }
    assert (m = 0) as -> by lia.
    rewrite decide_True in Hshape1 by done. rewrite app_nil_r in Hpub1.
    exists w1, []. rewrite app_nil_r.
    split; [|split; [|split; [|split; [|split; [|split]]]]].
    + intros fuel. cbn [Nat.add].
      rewrite (serve_one fuel next w w1 msg Hmsg Hdisp). do 2 f_equal. lia.
    + done.
    + rewrite (drop_ge ids) by lia. done.
    + done.
    + rewrite Hdrop. cbn [take]. rewrite decide_True by lia.
      replace (k + 1) with (S k) by lia. exact Hshape1.
    + lia.
    + intros _ _. rewrite Hpub1. lia.
Qed.
End Served.

Section Completion.
Variable wall : nat → Z.
Variable uuid : nat → string.
Variable visit : list (string * StepPtr) → list (string * StepPtr).
Variable hs : gmap string StepHandler.

End Completion.
Lemma filter_prefix {A} (P : A → Prop) `{∀ x, Decision (P x)} (l : list A) : ∀ k,
  (∀ i x, l !! i = Some x → (P x ↔ i < k)) → filter P l = take k l.
Proof.
  induction l as [|x l IH]; intros k Hk; [by rewrite take_nil|].
  rewrite filter_cons. destruct k as [|k].
  - rewrite decide_False by (intros HP; apply (Hk 0 x eq_refl) in HP; lia).
    rewrite (IH 0); [done|]. intros i y Hi. split; [|lia].
    intros HP. apply (Hk (S i) y Hi) in HP. lia.
  - rewrite decide_True by (apply (Hk 0 x eq_refl); lia).
    cbn [take]. f_equal. apply IH. intros i y Hi.
    rewrite (Hk (S i) y Hi). lia.
Qed.

Lemma stepCore_fields s s' :
  stepCore s' = stepCore s →
  Step_ID s' = Step_ID s ∧ Step_SagaID s' = Step_SagaID s ∧ Step_Name s' = Step_Name s
  ∧ Step_Status s' = Step_Status s ∧ Step_Data s' = Step_Data s
  ∧ Step_Error s' = Step_Error s.
Proof.
  intros H.
  split; [exact (f_equal Step_ID H)|]. split; [exact (f_equal Step_SagaID H)|].
  split; [exact (f_equal Step_Name H)|]. split; [exact (f_equal Step_Status H)|].
  split; [exact (f_equal Step_Data H) | exact (f_equal Step_Error H)].
Qed.

Section Undone.
Variable wall : nat → Z.
Variable visit : list (string * StepPtr) → list (string * StepPtr).
Variable hs : gmap string StepHandler.
Let o := mkOrchestrator (MemoryStorage wall visit) hs.
Let bus := (StartListener wall o NewMemoryPubSub).1.

Lemma dispatch_compensate (w w' : World MemDB) msg :
  Msg_Type msg = "step_compensate" →
  CompensateStep o (Msg_StepID msg) w = (w', Return None) →
  dispatch wall o msg w = (w', Return tt).
Proof.
  intros Hty Hrun. unfold dispatch. rewrite Hty.
  rewrite decide_False by done. rewrite decide_True by done.
  by rewrite (bind_Return _ _ _ _ _ Hrun).
Qed.

Lemma ExecuteStep_fails_shaped a sid names ids k sd sst (w : World MemDB) id name h d e :
  shaped a sid names ids (upTo k) sd sst w →
  NoDup ids →
  ids !! k = Some id →
  names !! k = Some name →
  hs !! name = Some h →
  Execute h sd = (d, Some e) →
  ∃ w',
    ExecuteStep wall o id w = (w', Return None)
    ∧ shaped a sid names ids (undoneTo k k) sd StatusFailed w'
    ∧ published w'
      = published w
        ++ ((λ id, ("saga_events", mkMessage "step_compensate" sid id (Some sd)))
            <$> reverse (take k ids))
    ∧ uuids w' = uuids w
    ∧ ∃ s, deref (heap (machine w')) (InSaga a k) = Some s ∧ Step_Error s = e.
Proof.
  intros (g & Hg & Hidx & Hid & Hd & Hst & He & Hids & Hnames & Hsteps) Hnd Hk Hname Hh Hexec.
  assert (Hsk : ∃ s, Saga_Steps g !! k = Some s ∧ Step_ID s = id ∧ Step_Name s = name).
  { rewrite <- Hids, list_lookup_fmap in Hk. rewrite <- Hnames, list_lookup_fmap in Hname.
    destruct (Saga_Steps g !! k) as [s|]; [|done].
    exists s. split; [done|]. simpl in *. split; congruence. }
  destruct Hsk as (s & Hsk & Hsid & Hsname).
  destruct (Hsteps k s Hsk) as (Hsaga & Hstatus & Hdata & Hix).
  unfold upTo in Hstatus, Hdata. rewrite decide_False in Hstatus, Hdata by lia.
  specialize (Hdata eq_refl).
  destruct (ExecuteStep_failure_run wall visit hs w id (InSaga a k) s h a g d e)
    as (w' & g' & Hrun & Huu & Hpub & Hg' & Hmeta & Hsagas & Helem & Hlen).
  { by rewrite <- Hsid. }
  { cbn [deref]. by rewrite Hg. }
  { done. }
  { by rewrite Hsname. }
  { by rewrite Hsaga. }
  { done. }
  { unfold stepIDs. by rewrite Hids. }
  { by rewrite Hdata, Hd, copyInto_fresh_step. }
  exists w'. split; [exact Hrun|].
  assert (Hst' : ∀ i si', Saga_Steps g' !! i = Some si' →
            ∃ si, Saga_Steps g !! i = Some si
                  ∧ Step_ID si' = Step_ID si ∧ Step_Name si' = Step_Name si
                  ∧ Step_SagaID si' = Step_SagaID si
                  ∧ Step_Status si' = undoneTo k k i
                  ∧ (undoneTo k k i = StatusPending → Step_Data si' = Some ∅)
                  ∧ (i = k → Step_Error si' = e)
                  ∧ steps (db (machine w')) !! Step_ID si' = Some (InSaga a i)).
  { intros i si' Hi'.
    assert (Hi : is_Some (Saga_Steps g !! i)).
    { apply lookup_lt_is_Some. rewrite <- Hlen. by eapply lookup_lt_Some. }
    destruct Hi as [si Hi]. exists si. split; [done|].
    destruct (Helem i si Hi) as (si'' & Hi'' & Hc & Hix').
    rewrite Hi' in Hi''. injection Hi'' as <-.
    destruct (Hsteps i si Hi) as (Hsaga_i & Hstatus_i & Hdata_i & _).
    assert (Heqid : Step_ID si = Step_ID s ↔ i = k).
    { split.
      - intros Heq. eapply NoDup_lookup; [exact Hnd| |exact Hk].
        rewrite <- Hids, list_lookup_fmap, Hi. simpl. congruence.
      - intros ->. congruence. }
    unfold upTo, undoneTo in *.
    destruct (decide (Step_ID si = Step_ID s)) as [Heq|Hne].
    - apply Heqid in Heq as ->. rewrite Hi in Hsk. injection Hsk as ->.
      rewrite decide_False by lia. rewrite decide_False by lia. rewrite decide_True by done.
      split; [by apply (f_equal Step_ID) in Hc|].
      split; [by apply (f_equal Step_Name) in Hc|].
      split; [by apply (f_equal Step_SagaID) in Hc|].
      split; [by apply (f_equal Step_Status) in Hc|].
      split; [done|].
      split; [intros _; by apply (f_equal Step_Error) in Hc|].
      replace (Step_ID si') with (Step_ID s) by (by apply (f_equal Step_ID) in Hc).
      exact Hix'.
    - assert (i ≠ k) by (intros ->; by apply Hne, Heqid).
      split; [by apply (f_equal Step_ID) in Hc|].
      split; [by apply (f_equal Step_Name) in Hc|].
      split; [by apply (f_equal Step_SagaID) in Hc|].
      split.
      { apply (f_equal Step_Status) in Hc. simpl in Hc. rewrite Hc, Hstatus_i.
        destruct (decide (i < k)); [done|].
        rewrite decide_False by done. done. }
      split.
      { intros Hpend. apply (f_equal Step_Data) in Hc. simpl in Hc. rewrite Hc.
        apply Hdata_i. destruct (decide (i < k)); done. }
      split; [done|].
      replace (Step_ID si') with (Step_ID si) by (by apply (f_equal Step_ID) in Hc).
      exact Hix'. }
  assert (Hids' : Step_ID <$> Saga_Steps g' = ids).
  { rewrite <- Hids. apply list_eq. intros i. rewrite !list_lookup_fmap.
    destruct (Saga_Steps g' !! i) as [si'|] eqn:Hi'.
    - destruct (Hst' i si' Hi') as (si & -> & Hi1 & _). simpl. by rewrite Hi1.
    - apply lookup_ge_None in Hi'. rewrite lookup_ge_None_2 by lia. done. }
  assert (Hnames' : Step_Name <$> Saga_Steps g' = names).
  { rewrite <- Hnames. apply list_eq. intros i. rewrite !list_lookup_fmap.
    destruct (Saga_Steps g' !! i) as [si'|] eqn:Hi'.
    - destruct (Hst' i si' Hi') as (si & -> & _ & Hi1 & _). simpl. by rewrite Hi1.
    - apply lookup_ge_None in Hi'. rewrite lookup_ge_None_2 by lia. done. }
  assert (Hid' : Saga_ID g' = sid)
    by (apply (f_equal Saga_ID) in Hmeta; simpl in Hmeta; congruence).
  assert (Hd' : Saga_Data g' = Some sd)
    by (apply (f_equal Saga_Data) in Hmeta; simpl in Hmeta; congruence).
  split; [|split; [|split; [done|]]].
  - exists g'. split; [done|].
    split; [rewrite Hsagas, <- Hid; apply lookup_insert_eq|].
    split; [done|]. split; [done|].
    split; [by apply (f_equal Saga_Status) in Hmeta|].
    split; [apply (f_equal Saga_Error) in Hmeta; simpl in Hmeta; congruence|].
    split; [done|]. split; [done|].
    intros i si' Hi'.
    destruct (Hst' i si' Hi') as (si & Hi & H1 & H2 & H3 & H4 & H5 & _ & H6).
    destruct (Hsteps i si Hi) as (Hsaga_i & _).
    split; [congruence|]. by repeat split.
  - rewrite Hpub. f_equal. unfold compensations. rewrite Hid', Hd'.
    rewrite filter_reverse.
    rewrite (filter_prefix _ _ k).
    + rewrite <- Hids', <- fmap_take, <- fmap_reverse, <- list_fmap_compose. done.
    + intros i x Hi. destruct (Hst' i x Hi) as (_ & _ & _ & _ & _ & Hs & _).
      rewrite Hs. unfold undoneTo. destruct (decide (i < k)); [done|].
      split; [|lia]. destruct (decide (i = k)); done.
  - assert (Hik : is_Some (Saga_Steps g' !! k)).
    { apply lookup_lt_is_Some. rewrite Hlen. by eapply lookup_lt_Some. }
    destruct Hik as [sk Hik]. exists sk. cbn [deref]. rewrite Hg'. split; [done|].
    destruct (Hst' k sk Hik) as (_ & _ & _ & _ & _ & _ & _ & Herr & _). by apply Herr.
Qed.

Lemma CompensateStep_shaped a sid names ids st sd sst (w : World MemDB) j id name h :
  shaped a sid names ids st sd sst w →
  NoDup ids →
  ids !! j = Some id →
  names !! j = Some name →
  hs !! name = Some h →
  st j = StatusCompleted →
  ∃ w',
    CompensateStep o id w = (w', Return None)
    ∧ shaped a sid names ids (λ i, if decide (i = j) then StatusCompensated else st i)
             sd sst w'
    ∧ published w' = published w
    ∧ uuids w' = uuids w
    ∧ ∀ i s, i ≠ j → deref (heap (machine w)) (InSaga a i) = Some s →
             ∃ s', deref (heap (machine w')) (InSaga a i) = Some s'
                   ∧ stepCore s' = stepCore s.
Proof.
  intros (g & Hg & Hidx & Hid & Hd & Hst & He & Hids & Hnames & Hsteps) Hnd Hj Hname Hh Hc.
  assert (Hsj : ∃ s, Saga_Steps g !! j = Some s ∧ Step_ID s = id ∧ Step_Name s = name).
  { rewrite <- Hids, list_lookup_fmap in Hj. rewrite <- Hnames, list_lookup_fmap in Hname.
    destruct (Saga_Steps g !! j) as [s|]; [|done].
    exists s. split; [done|]. simpl in *. split; congruence. }
  destruct Hsj as (s & Hsj & Hsid & Hsname).
  destruct (Hsteps j s Hsj) as (Hsaga & Hstatus & Hdata & Hix).
  destruct (CompensateStep_run wall visit hs w id (InSaga a j) s h a g)
    as (w' & g' & Hrun & Huu & Hpub & Hg' & Hmeta & Hsagas & Hindex & Hsame & Helem).
  { by rewrite <- Hsid. }
  { cbn [deref]. by rewrite Hg. }
  { congruence. }
  { by rewrite Hsname. }
  { by rewrite Hsaga. }
  { done. }
  { unfold stepIDs. by rewrite Hids. }
  exists w'. split; [exact Hrun|].
  assert (Heqid : ∀ i si, Saga_Steps g !! i = Some si → Step_ID si = Step_ID s ↔ i = j).
  { intros i si Hi. split.
    - intros Heq. eapply NoDup_lookup; [exact Hnd| |exact Hj].
      rewrite <- Hids, list_lookup_fmap, Hi. simpl. congruence.
    - intros ->. congruence. }
  assert (Hlen : length (Saga_Steps g') = length (Saga_Steps g)).
  { apply (f_equal length) in Hsame. unfold stepIDs in Hsame.
    by rewrite !length_fmap in Hsame. }
  assert (Hst' : ∀ i si', Saga_Steps g' !! i = Some si' →
            ∃ si, Saga_Steps g !! i = Some si
                  ∧ stepCore si'
                    = stepCore (if decide (i = j)
                                then compensatedStep
                                       (Compensate h
                                          (copyInto (entriesOf (Step_Data s))
                                             (copyInto (entriesOf (Saga_Data g)) ∅))).2 s
                                else si)).
  { intros i si' Hi'.
    assert (Hi : is_Some (Saga_Steps g !! i)).
    { apply lookup_lt_is_Some. rewrite <- Hlen. by eapply lookup_lt_Some. }
    destruct Hi as [si Hi]. exists si. split; [done|].
    destruct (Helem i si Hi) as (si'' & Hi'' & Hcore).
    rewrite Hi' in Hi''. injection Hi'' as <-. rewrite Hcore.
    destruct (decide (Step_ID si = Step_ID s)) as [Heq|Hne].
    - apply (Heqid i si Hi) in Heq. by rewrite decide_True.
    - rewrite decide_False; [done|]. intros ->. apply Hne. by apply (Heqid j si Hi). }
  assert (Hcid : ∀ err, Step_ID (compensatedStep err s) = Step_ID s
                        ∧ Step_Name (compensatedStep err s) = Step_Name s
                        ∧ Step_SagaID (compensatedStep err s) = Step_SagaID s
                        ∧ Step_Status (compensatedStep err s) = StatusCompensated)
    by (intros [e|]; done).
  split; [|split; [done|split; [done|]]].
  - exists g'. split; [done|]. split; [by rewrite Hsagas|].
    split; [apply (f_equal Saga_ID) in Hmeta; simpl in Hmeta; congruence|].
    split; [apply (f_equal Saga_Data) in Hmeta; simpl in Hmeta; congruence|].
    split; [apply (f_equal Saga_Status) in Hmeta; simpl in Hmeta; congruence|].
    split; [apply (f_equal Saga_Error) in Hmeta; simpl in Hmeta; congruence|].
    split; [by rewrite <- Hids; exact Hsame|].
    split.
    { rewrite <- Hnames. apply list_eq. intros i. rewrite !list_lookup_fmap.
      destruct (Saga_Steps g' !! i) as [si'|] eqn:Hi'.
      - destruct (Hst' i si' Hi') as (si & Hi & Hcore). rewrite Hi. simpl. f_equal.
        destruct (stepCore_fields _ _ Hcore) as (_ & _ & F3 & _). rewrite F3.
        destruct (decide (i = j)) as [->|]; [|done].
        rewrite Hi in Hsj. injection Hsj as ->. apply Hcid.
      - apply lookup_ge_None in Hi'. rewrite lookup_ge_None_2 by lia. done. }
    intros i si' Hi'. destruct (Hst' i si' Hi') as (si & Hi & Hcore).
    destruct (Hsteps i si Hi) as (Hsaga_i & Hstatus_i & Hdata_i & Hix_i).
    rewrite Hindex.
    destruct (stepCore_fields _ _ Hcore) as (F1 & F2 & _ & F4 & F5 & _).
    destruct (decide (i = j)) as [->|Hne].
    + rewrite Hi in Hsj. injection Hsj as ->.
      destruct (Hcid (Compensate h
                        (copyInto (entriesOf (Step_Data s))
                           (copyInto (entriesOf (Saga_Data g)) ∅))).2)
        as (C1 & C2 & C3 & C4).
      split; [congruence|]. split; [congruence|]. split; [done|].
      rewrite F1, C1. apply lookup_insert_eq.
    + split; [congruence|]. split; [congruence|].
      split; [intros Hp; rewrite F5; auto|].
      rewrite F1. rewrite lookup_insert_ne; [done|].
      intros Heq. apply Hne. by apply (Heqid i si Hi).
  - intros i si Hne Hd0. cbn [deref] in Hd0. rewrite Hg in Hd0.
    destruct (Helem i si Hd0) as (si' & Hi' & Hcore).
    exists si'. cbn [deref]. rewrite Hg'. split; [done|]. rewrite Hcore.
    rewrite decide_False; [done|]. intros Heq. apply Hne. by apply (Heqid i si Hd0).
Qed.

Lemma undo_steps a sid names ids k sd sst : ∀ j (w : World MemDB) next,
  NoDup ids →
  length names = length ids →
  j ≤ k →
  (∀ i n, i < j → names !! i = Some n → is_Some (hs !! n)) →
  shaped a sid names ids (undoneTo j k) sd sst w →
  (∀ t, t < j →
        ∃ msg, published w !! (next + t) = Some ("saga_events", msg)
               ∧ Msg_Type msg = "step_compensate"
               ∧ ids !! (j - 1 - t) = Some (Msg_StepID msg)) →
  ∃ w',
    (∀ fuel, serve (j + fuel) bus next w = serve fuel bus (next + j) w')
    ∧ published w' = published w
    ∧ uuids w' = uuids w
    ∧ shaped a sid names ids (undoneTo 0 k) sd sst w'
    ∧ ∀ s, deref (heap (machine w)) (InSaga a k) = Some s →
           ∃ s', deref (heap (machine w')) (InSaga a k) = Some s'
                 ∧ stepCore s' = stepCore s.
Proof.
  induction j as [|j IH]; intros w next Hnd Hlen Hjk Hok Hshape Hmsgs.
  { exists w. rewrite Nat.add_0_r. repeat split; try done. eauto. }
  destruct (Hmsgs 0 ltac:(lia)) as (msg & Hmsg & Hty & Hidj).
  rewrite Nat.add_0_r in Hmsg. replace (S j - 1 - 0) with j in Hidj by lia.
  assert (Hname : ∃ name, names !! j = Some name).
  { apply lookup_lt_is_Some. apply lookup_lt_Some in Hidj. lia. }
  destruct Hname as [name Hname].
  destruct (Hok j name ltac:(lia) Hname) as [h Hh].
  destruct (CompensateStep_shaped a sid names ids (undoneTo (S j) k) sd sst w j _ name h
              Hshape Hnd Hidj Hname Hh)
    as (w1 & Hrun & Hshape1 & Hpub1 & Huu1 & Hframe1).
  { unfold undoneTo. by rewrite decide_True by lia. }
  pose proof (dispatch_compensate w w1 msg Hty Hrun) as Hdisp.
  destruct (IH w1 (S next)) as (w' & Hserve & Hpub' & Huu' & Hshape' & Hframe');
    try done; try lia.
  { intros i n Hi. apply Hok. lia. }
  { eapply shaped_ext; [|exact Hshape1]. intros i _. unfold undoneTo.
    destruct (decide (i = j)) as [->|Hne].
    - rewrite decide_False by lia. by rewrite decide_True by lia.
    - destruct (decide (i < S j)), (decide (i < j)); (done || lia). }
  { intros t Ht. destruct (Hmsgs (S t) ltac:(lia)) as (msg' & Hmsg' & Hty' & Hid').
    exists msg'. rewrite Hpub1. replace (S next + t) with (next + S t) by lia.
    split; [done|]. split; [done|].
    by replace (j - 1 - t) with (S j - 1 - S t) by lia. }
  exists w'. replace (next + S j) with (S next + j) by lia.
  split; [|split; [congruence|split; [congruence|split; [done|]]]].
  - intros fuel.
    etrans; [exact (serve_one wall visit hs (j + fuel) next w w1 msg Hmsg Hdisp)|].
    apply Hserve.
  - intros s Hs. destruct (Hframe1 k s ltac:(lia) Hs) as (s1 & Hs1 & Hc1).
    destruct (Hframe' s1 Hs1) as (s' & Hs' & Hc'). exists s'. split; [done|]. congruence.
Qed.
End Undone.

Section Compensated.
Variable wall : nat → Z.
Variable uuid : nat → string.
Variable visit : list (string * StepPtr) → list (string * StepPtr).
Variable hs : gmap string StepHandler.

(** X16: a saga whose step [k] fails after the steps before it succeeded is
    undone: started on the in-memory storage with step identifiers that are
    distinct, and with the messages served by the listener of the
    orchestrator, it is stored as failed, with no error text of its own and
    the data left by the steps before [k]; the steps before [k] are
    compensated, step [k] is failed and carries the error text, and the
    steps after it are still pending, none of them having been executed. The
    messages published are one [step_execute] for each step up to [k], in
    order, and then one [step_compensate] for each step before [k], the last
    one first. *)
Theorem a_failing_action_undoes_the_steps_before_it
    name names data (w : World MemDB) k bad hbad e :
  NoDup (uuid <$> seq (S (uuids w)) (length names)) →
  names !! k = Some bad →
  hs !! bad = Some hbad →
  (∀ d, (Execute hbad d).2 = Some e) →
  (∀ i n, i < k → names !! i = Some n →
          ∃ h, hs !! n = Some h ∧ ∀ d, (Execute h d).2 = None) →
  let o := mkOrchestrator (MemoryStorage wall visit) hs in
  let bus := (StartListener wall o NewMemoryPubSub).1 in
  let sid := uuid (uuids w) in
  let ids := uuid <$> seq (S (uuids w)) (length names) in
  ∃ w1 (a : nat) w2 g,
    StartSaga wall uuid o name names (Some data) w = (w1, Return (inr a))
    ∧ (∀ fuel, 2 * k + 1 ≤ fuel →
         serve fuel bus (length (published w)) w1 = (w2, Return (length (published w2))))
    ∧ MemoryStorage_GetSaga sid (machine w2) = (machine w2, Return (inr a))
    ∧ sagaObjs (heap (machine w2)) !! a = Some g
    ∧ Saga_Status g = StatusFailed
    ∧ Saga_Error g = ""
    ∧ Saga_Data g = Some (forward hs (take k names) data)
    ∧ Step_Name <$> Saga_Steps g = names
    ∧ (∀ i s, Saga_Steps g !! i = Some s →
         Step_Status s
         = if decide (i < k) then StatusCompensated
           else if decide (i = k) then StatusFailed else StatusPending)
    ∧ (∃ s, Saga_Steps g !! k = Some s ∧ Step_Error s = e)
    ∧ header <$> drop (length (published w)) (published w2)
      = ((λ id, ("saga_events", "step_execute", sid, id)) <$> take (S k) ids)
        ++ ((λ id, ("saga_events", "step_compensate", sid, id)) <$> reverse (take k ids)).
Proof.
  intros Hnd Hbad Hhbad Hfail Hok o bus sid ids.
  destruct (StartSaga_shaped wall uuid visit hs name names data w Hnd)
    as (w1 & a & Hstart & Hshape & Hpub1).
  fold ids sid in Hshape.
  assert (Hlen : length names = length ids)
    by (subst ids; by rewrite length_fmap, length_seq).
  assert (Hkn : k < length ids) by (rewrite <- Hlen; by eapply lookup_lt_Some).
  assert (Hfirst : firstMessage uuid names (Some data) (uuids w)
                   = [("saga_events",
                       mkMessage "step_execute" sid (uuid (S (uuids w))) (Some data))])
    by (destruct names; [by rewrite lookup_nil in Hbad | done]).
  rewrite Hfirst in Hpub1.
  assert (Hid0 : ids !! 0 = Some (uuid (S (uuids w)))).
  { subst ids. destruct names; [by rewrite lookup_nil in Hbad | done]. }
  set (next := length (published w)) in *.
  (* the steps before [k] *)
  destruct (forward_steps wall visit hs a sid names ids k 0 w1 next data StatusPending)
    as (wA & tailA & HserveA & HpubA & HheadA & _ & HshapeA & HmoreA & _);
    try done; try lia.
  { intros i n Hi. apply Hok. lia. }
  { exists (mkMessage "step_execute" sid (uuid (S (uuids w))) (Some data)).
    split; [|split; [reflexivity|exact Hid0]].
    rewrite Hpub1, lookup_app_r by (subst next; lia). by rewrite Nat.sub_diag. }
  { rewrite Hpub1, length_app. simpl. lia. }
  cbn [Nat.add] in HshapeA, HmoreA. rewrite decide_False in HshapeA by lia.
  rewrite drop_0 in HshapeA.
  destruct (HmoreA Hkn) as (HlenA & msg & Hmsg & Hty & Hidk).
  (* step [k] *)
  set (dataA := forward hs (take k names) data) in *.
  destruct (Execute hbad dataA) as [d e'] eqn:Hexec.
  assert (e' = Some e) as -> by (specialize (Hfail dataA); by rewrite Hexec in Hfail).
  destruct (ExecuteStep_fails_shaped wall visit hs a sid names ids k dataA StatusPending
              wA _ bad hbad d e HshapeA Hnd Hidk Hbad Hhbad Hexec)
    as (wB & HrunB & HshapeB & HpubB & _ & sB & HsB & HerrB).
  pose proof (dispatch_execute wall visit hs wA wB msg Hty HrunB) as HdispB.
  (* the compensations *)
  destruct (undo_steps wall visit hs a sid names ids k dataA StatusFailed k wB
              (S (next + k)))
    as (wC & HserveC & HpubC & _ & HshapeC & HframeC); try done.
  { intros i n Hi Hn. destruct (Hok i n Hi Hn) as (h & Hh & _). eauto. }
  { intros t Ht.
    assert (Hidt : is_Some (ids !! (k - 1 - t))) by (apply lookup_lt_is_Some; lia).
    destruct Hidt as [idt Hidt].
    exists (mkMessage "step_compensate" sid idt (Some dataA)).
    split; [|split; [done|done]].
    rewrite HpubB, lookup_app_r by lia.
    replace (S (next + k) + t - length (published wA)) with t by lia.
    rewrite list_lookup_fmap, reverse_lookup by (rewrite length_take; lia).
    rewrite length_take, Nat.min_l by lia.
    replace (k - S t) with (k - 1 - t) by lia.
    rewrite lookup_take_lt by lia. by rewrite Hidt. }
  destruct HshapeC as (g & Hg & Hidx & Hid & Hd & Hst & He & Hids & Hnm & Hsteps).
  exists w1, a, wC, g. split; [exact Hstart|].
  assert (HlenC : length (published wC) = S (next + k) + k).
  { rewrite HpubC, HpubB, length_app, HlenA, length_fmap, length_reverse, length_take. lia. }
  split.
  { intros fuel Hf.
    replace fuel with (k + S (k + (fuel - (2 * k + 1)))) by lia.
    rewrite HserveA. cbn [Nat.add].
    etrans; [exact (serve_one wall visit hs _ (next + k) wA wB msg Hmsg HdispB)|].
    etrans; [apply HserveC|].
    rewrite serve_end by (apply lookup_ge_None; lia). by rewrite HlenC. }
  split; [by apply GetSaga_run|]. split; [done|]. split; [done|]. split; [done|].
  split; [done|]. split; [done|]. split.
  { intros i s Hi. destruct (Hsteps i s Hi) as (_ & Hs & _).
    rewrite Hs. unfold undoneTo. by rewrite decide_False by lia. }
  split.
  { destruct (HframeC sB HsB) as (sC & HsC & Hcore).
    cbn [deref] in HsC. rewrite Hg in HsC. exists sC. split; [done|].
    apply (f_equal Step_Error) in Hcore. simpl in Hcore. congruence. }
  rewrite HpubC, HpubB, HpubA, Hpub1, <- !app_assoc. unfold next.
  rewrite drop_app_length. cbn [app]. rewrite fmap_cons, fmap_app, HheadA.
  rewrite <- list_fmap_compose.
  replace (take (S k) ids) with (uuid (S (uuids w)) :: take k (drop 1 ids)).
  - rewrite fmap_cons. cbn [app]. reflexivity.
  - clear -Hid0. clearbody ids. destruct ids as [|i0 ids']; [done|].
    injection Hid0 as ->. reflexivity.
Qed.
End Compensated.


Lemma a_failing_action_undoes_the_steps_before_it_witness :
  ∃ w2 g,
    serve 3 (StartListener wall0 orch0 NewMemoryPubSub).1 0 world1
    = (w2, Return (length (published w2)))
    ∧ sagaObjs (heap (machine w2)) !! 0 = Some g
    ∧ Saga_Status g = StatusFailed
    ∧ Step_Status <$> Saga_Steps g = [StatusCompensated; StatusFailed; StatusPending].
Proof.
  destruct (a_failing_action_undoes_the_steps_before_it wall0 uuid0 visit0 handlers0
              "order" ["a"; "b"; "c"] ∅ emptyWorld 1 "b" boomHandler "boom")
    as (w1 & a & w2 & g & Hstart & Hserve & _ & Hg & Hst & _ & _ & Hnm & Hsts & _).
  - apply (bool_decide_unpack _). vm_compute. exact I.
  - reflexivity.
  - reflexivity.
  - reflexivity.
  - intros i n Hi Hn. destruct i as [|i]; [|lia]. injection Hn as <-.
    exists okHandler. by split.
  - fold orch0 in Hstart, Hserve. exists w2, g.
    assert (a = 0) as -> by (vm_compute in Hstart; by injection Hstart).
    assert (w1 = world1) as -> by (unfold world1; by rewrite Hstart).
    split; [exact (Hserve 3 ltac:(simpl; lia))|]. split; [exact Hg|]. split; [exact Hst|].
    assert (Hl : length (Saga_Steps g) = 3)
      by (apply (f_equal length) in Hnm; by rewrite length_fmap in Hnm).
    destruct (Saga_Steps g) as [|s0 [|s1 [|s2 [|s3 rest]]]]; try discriminate Hl.
    cbn [fmap list_fmap].
    by rewrite (Hsts 0 s0 eq_refl), (Hsts 1 s1 eq_refl), (Hsts 2 s2 eq_refl).
Defined.

(** ** Recovery and execution *)

Section Again.
Variable wall : nat → Z.
Variable visit : list (string * StepPtr) → list (string * StepPtr).
Variable hs : gmap string StepHandler.


End Again.


(** ** The order of the steps *)

Section Order.
Variable wall : nat → Z.
Variable visit : list (string * StepPtr) → list (string * StepPtr).
Variable hs : gmap string StepHandler.

End Order.


(** ** The indexes of the storage *)

Lemma indexed_heap h h' d t t' :
  (∀ a g, sagaObjs h !! a = Some g → ∃ g', sagaObjs h' !! a = Some g' ∧ Saga_ID g' = Saga_ID g) →
  (∀ p s, deref h p = Some s → ∃ s', deref h' p = Some s' ∧ Step_ID s' = Step_ID s) →
  indexed (mkMachine h d t) → indexed (mkMachine h' d t').
Proof.
  intros Hsagas Hsteps [I1 I2]. split; cbn [heap db] in *.
  - intros id a Ha. destruct (I1 id a Ha) as (g & Hg & Hid).
    destruct (Hsagas a g Hg) as (g' & Hg' & Hid'). exists g'. split; [done | congruence].
  - intros id p Hp. destruct (I2 id p Hp) as (s & Hs & Hid).
    destruct (Hsteps p s Hs) as (s' & Hs' & Hid'). exists s'. split; [done | congruence].
Qed.

Lemma indexed_storeSaga h a g g' d t t' :
  sagaObjs h !! a = Some g →
  Saga_ID g' = Saga_ID g →
  (∀ i s, Saga_Steps g !! i = Some s →
          ∃ s', Saga_Steps g' !! i = Some s' ∧ Step_ID s' = Step_ID s) →
  indexed (mkMachine h d t) → indexed (mkMachine (storeSaga h a g') d t').
Proof.
  intros Hg Hid Hsteps. apply indexed_heap.
  - intros a0 g0 H0. cbn [storeSaga sagaObjs].
    destruct (decide (a = a0)) as [<-|Hne].
    + rewrite lookup_insert_eq. exists g'. split; [done | congruence].
    + rewrite lookup_insert_ne by done. eauto.
  - intros [a0 i|c] s Hs; cbn [deref storeSaga sagaObjs stepCells] in *; [|eauto].
    destruct (decide (a = a0)) as [<-|Hne].
    + rewrite lookup_insert_eq. rewrite Hg in Hs. by apply Hsteps.
    + rewrite lookup_insert_ne by done. eauto.
Qed.

Lemma indexed_storeStep h p s s' d t t' :
  deref h p = Some s →
  Step_ID s' = Step_ID s →
  indexed (mkMachine h d t) → indexed (mkMachine (storeStep h p s') d t').
Proof.
  intros Hp Hid. destruct p as [a i|c].
  - cbn [deref] in Hp. destruct (sagaObjs h !! a) as [g|] eqn:Hg; [|done].
    rewrite (storeStep_InSaga _ _ _ _ _ Hg).
    apply (indexed_storeSaga h a g); [done | done |].
    intros j sj Hj. cbn [Saga_Steps set_Saga_Steps].
    destruct (decide (i = j)) as [<-|Hne].
    + rewrite list_lookup_insert_eq by (by eapply lookup_lt_Some).
      exists s'. split; [done | congruence].
    + rewrite list_lookup_insert_ne by done. eauto.
  - apply indexed_heap; [eauto|].
    intros [a i|c'] sq Hq; cbn [deref storeStep sagaObjs stepCells] in *; [eauto|].
    destruct (decide (c = c')) as [<-|Hne].
    + rewrite lookup_insert_eq. exists s'. split; [done | congruence].
    + rewrite lookup_insert_ne by done. eauto.
Qed.

Lemma indexed_ticks h d t t' : indexed (mkMachine h d t) → indexed (mkMachine h d t').
Proof. apply indexed_heap; eauto. Qed.

Section Sound.
Context {St : Type}.
Variable proj : St → Machine MemDB.

Lemma sound_ret {A} (a : A) : sound proj (ret a).
Proof. by intros s. Qed.

Lemma sound_panic {A} msg : sound proj (@panic St A msg).
Proof. by intros s. Qed.

Lemma sound_bind {A B} (c : Run St A) (k : A → Run St B) :
  sound proj c → (∀ a, sound proj (k a)) → sound proj (bind c k).
Proof.
  intros Hc Hk s Hs. unfold bind. specialize (Hc s Hs).
  destruct (c s) as [s' [a|msg]]; [|exact Hc]. by apply Hk.
Qed.

Lemma sound_when b (c : Run St unit) : sound proj c → sound proj (when b c).
Proof. intros Hc. destruct b; [exact Hc | apply sound_ret]. Qed.

Lemma sound_forEach {A} (l : list A) (body : A → Run St unit) :
  (∀ x, sound proj (body x)) → sound proj (forEach l body).
Proof.
  intros Hbody. induction l as [|x l IH]; [apply sound_ret|].
  apply sound_bind; [apply Hbody | intros _; exact IH].
Qed.
End Sound.

Section SoundMachine.
Lemma sound_onMachine {A} (c : Run (Machine MemDB) A) :
  sound id c → sound (@machine MemDB) (onMachine c).
Proof.
  intros Hc w Hw. unfold onMachine. specialize (Hc (machine w) Hw).
  by destruct (c (machine w)).
Qed.

Lemma sound_timeNow wall : sound id (@timeNow MemDB wall).
Proof. intros [h d t]. apply indexed_ticks. Qed.

Lemma sound_loadSaga a : sound id (@loadSaga MemDB a).
Proof. intros m Hm. unfold loadSaga. by destruct (_ !! _). Qed.

Lemma sound_loadStep p : sound id (@loadStep MemDB p).
Proof. intros m Hm. unfold loadStep. by destruct (deref _ _). Qed.

Lemma sound_getDB : sound id (@getDB MemDB).
Proof. by intros m Hm. Qed.

Lemma sound_modifySaga a f :
  (∀ g, Saga_ID (f g) = Saga_ID g) →
  (∀ g i s, Saga_Steps g !! i = Some s →
            ∃ s', Saga_Steps (f g) !! i = Some s' ∧ Step_ID s' = Step_ID s) →
  sound id (@modifySaga MemDB a f).
Proof.
  intros Hid Hsteps [h d t] Hm. unfold modifySaga. cbn [heap db ticks id].
  destruct (sagaObjs h !! a) as [g|] eqn:Hg; [|exact Hm].
  cbn [fst]. apply (indexed_storeSaga h a g _ d t t); [exact Hg | apply Hid | apply Hsteps | exact Hm].
Qed.

Lemma sound_modifyStep p f :
  (∀ s, Step_ID (f s) = Step_ID s) → sound id (@modifyStep MemDB p f).
Proof.
  intros Hid [h d t] Hm. unfold modifyStep. cbn [heap db ticks id].
  destruct (deref h p) as [s|] eqn:Hs; [|exact Hm].
  cbn [fst]. apply (indexed_storeStep h p s _ d t t); [exact Hs | apply Hid | exact Hm].
Qed.

Lemma sound_newSaga g : sound id (@newSaga MemDB g).
Proof.
  intros [h d t] Hm. unfold newSaga. cbn [heap db ticks id fst].
  set (a := fresh (dom (sagaObjs h))).
  assert (Hfresh : sagaObjs h !! a = None) by apply not_elem_of_dom, is_fresh.
  revert Hm. apply indexed_heap.
  - intros a0 g0 H0. cbn [storeSaga sagaObjs].
    rewrite lookup_insert_ne by (intros ->; congruence). eauto.
  - intros [a0 i|c] s Hs; cbn [deref storeSaga sagaObjs stepCells] in *; [|eauto].
    rewrite lookup_insert_ne; [eauto|]. intros <-. by rewrite Hfresh in Hs.
Qed.

Lemma sound_newStep s : sound id (@newStep MemDB s).
Proof.
  intros [h d t] Hm. unfold newStep. cbn [heap db ticks id fst].
  set (c := fresh (dom (stepCells h))).
  assert (Hfresh : stepCells h !! c = None) by apply not_elem_of_dom, is_fresh.
  revert Hm. apply indexed_heap; [eauto|].
  intros [a i|c'] sq Hq; cbn [deref storeStep sagaObjs stepCells] in *; [eauto|].
  rewrite lookup_insert_ne; [eauto|]. intros <-. by rewrite Hfresh in Hq.
Qed.

(** [m.steps[step.ID] = step] *)
Lemma sound_index_step {A} p (k : Step → Run (Machine MemDB) A) :
  (∀ s, sound id (k s)) →
  sound id (let* s := loadStep p in
            let* _ := modifyDB (λ m, mkMemDB (sagas m) (<[Step_ID s := p]> (steps m))) in
            k s).
Proof.
  intros Hk [h d t] Hm. unfold bind at 1. unfold loadStep. cbn [heap].
  destruct (deref h p) as [s|] eqn:Hs; [|exact Hm].
  unfold bind at 1. unfold modifyDB. cbn [heap db ticks]. apply Hk.
  destruct Hm as [I1 I2]. split; cbn [heap db sagas steps id] in *; [exact I1|].
  intros id' q Hq. destruct (decide (Step_ID s = id')) as [<-|Hne].
  - rewrite lookup_insert_eq in Hq. injection Hq as <-. eauto.
  - rewrite lookup_insert_ne in Hq by done. eauto.
Qed.

(** [m.sagas[saga.ID] = saga] *)
Lemma sound_index_saga {A} a (k : Saga → Run (Machine MemDB) A) :
  (∀ g, sound id (k g)) →
  sound id (let* g := loadSaga a in
            let* _ := modifyDB (λ m, mkMemDB (<[Saga_ID g := a]> (sagas m)) (steps m)) in
            k g).
Proof.
  intros Hk [h d t] Hm. unfold bind at 1. unfold loadSaga. cbn [heap].
  destruct (sagaObjs h !! a) as [g|] eqn:Hg; [|exact Hm].
  unfold bind at 1. unfold modifyDB. cbn [heap db ticks]. apply Hk.
  destruct Hm as [I1 I2]. split; cbn [heap db sagas steps id] in *; [|exact I2].
  intros id' a' Ha'. destruct (decide (Saga_ID g = id')) as [<-|Hne].
  - rewrite lookup_insert_eq in Ha'. injection Ha' as <-. eauto.
  - rewrite lookup_insert_ne in Ha' by done. eauto.
Qed.

Lemma sound_Publish topic msg : sound (@machine MemDB) (Publish topic msg).
Proof. by intros w Hw. Qed.

Lemma sound_uuidNew uuid : sound (@machine MemDB) (uuidNew uuid).
Proof. by intros w Hw. Qed.

Lemma sound_index l i : sound (@machine MemDB) (index l i).
Proof. unfold index. destruct (l !! i); [apply sound_ret | apply sound_panic]. Qed.
End SoundMachine.

Create HintDb sound.

#[local] Hint Resolve sound_timeNow sound_loadSaga sound_loadStep sound_getDB
  sound_newSaga sound_newStep sound_Publish sound_uuidNew sound_index : sound.

Ltac sound_tac :=
  repeat first
    [ progress intros
    | progress cbv zeta
    | apply sound_ret | apply sound_panic
    | solve [auto 1 with sound nocore]
    | apply sound_modifyStep; intros ?; reflexivity
    | apply sound_modifySaga; [intros ?; reflexivity | intros ? ? ? ?; eauto]
    | apply sound_onMachine
    | apply sound_index_step
    | apply sound_index_saga
    | apply sound_bind
    | apply sound_when
    | apply sound_forEach
    | match goal with
      | |- sound _ (match ?x with _ => _ end) => destruct x
      | |- sound _ (if ?x then _ else _) => destruct x
      end ].

Section SoundMemoryStorage.
Variable wall : nat → Z.
Variable visit : list (string * StepPtr) → list (string * StepPtr).

Lemma sound_saveStep a i : sound id (saveStep wall a i).
Proof.
  unfold saveStep. cbv zeta.
  apply sound_bind; [apply sound_loadStep|]. intros s.
  apply sound_bind; [sound_tac|]. intros _.
  apply sound_bind; [apply sound_timeNow|]. intros now.
  apply sound_bind; [sound_tac|]. intros _.
  intros [h d t] Hm. unfold bind, loadStep, modifyDB. cbn [heap db ticks].
  destruct (deref h (InSaga a i)) as [s'|] eqn:Hs; [|exact Hm].
  destruct Hm as [I1 I2]. split; cbn [heap db sagas steps id fst] in *; [exact I1|].
  intros id' q Hq. destruct (decide (Step_ID s' = id')) as [<-|Hne].
  - rewrite lookup_insert_eq in Hq. injection Hq as <-. eauto.
  - rewrite lookup_insert_ne in Hq by done. eauto.
Qed.

Lemma sound_SaveSaga a : sound id (MemoryStorage_SaveSaga wall a).
Proof.
  unfold MemoryStorage_SaveSaga.
  apply sound_bind; [apply sound_timeNow|]. intros now.
  apply sound_bind; [sound_tac|]. intros _.
  apply sound_bind; [apply sound_loadSaga|]. intros g.
  apply sound_bind; [sound_tac|]. intros _.
  apply sound_index_saga. intros g'.
  apply sound_bind; [|intros; apply sound_ret].
  apply sound_forEach. intros i. apply sound_saveStep.
Qed.

Lemma sound_copyIntoSaga a p idxs : sound id (copyIntoSaga a p idxs).
Proof.
  induction idxs as [|i idxs IH]; cbn [copyIntoSaga]; [apply sound_ret|].
  intros [h d t] Hm. unfold bind at 1. unfold loadStep at 1. cbn [heap].
  destruct (deref h (InSaga a i)) as [si|] eqn:Hsi; [|exact Hm].
  unfold bind at 1. unfold loadStep at 1. cbn [heap].
  destruct (deref h p) as [s|] eqn:Hs; [|exact Hm].
  destruct (decide (Step_ID si = Step_ID s)) as [Heq|Hne]; [|by apply IH].
  unfold modifyStep. cbn [heap db ticks]. rewrite Hsi. cbn [fst id].
  apply (indexed_storeStep h (InSaga a i) si _ d t t); [exact Hsi | congruence | exact Hm].
Qed.

Lemma sound_UpdateStep p : sound id (MemoryStorage_UpdateStep wall p).
Proof.
  unfold MemoryStorage_UpdateStep.
  apply sound_bind; [apply sound_timeNow|]. intros now.
  apply sound_bind; [sound_tac|]. intros _.
  apply sound_index_step. intros s.
  apply sound_bind; [apply sound_getDB|]. intros m.
  apply sound_bind; [|intros; apply sound_ret].
  destruct (sagas m !! Step_SagaID s) as [saga|]; [|apply sound_ret].
  apply sound_bind; [apply sound_loadSaga|]. intros g.
  apply sound_bind; [apply sound_copyIntoSaga|]. intros _.
  sound_tac.
Qed.

Lemma sound_GetStep i : sound id (MemoryStorage_GetStep i).
Proof. unfold MemoryStorage_GetStep. sound_tac. Qed.

Lemma sound_GetSaga i : sound id (MemoryStorage_GetSaga i).
Proof. unfold MemoryStorage_GetSaga. sound_tac. Qed.

Lemma sound_stuckLoop now timeout entries :
  ∀ stuck, sound id (stuckLoop now timeout entries stuck).
Proof.
  induction entries as [|[i p] entries IH]; intros stuck; cbn [stuckLoop]; sound_tac.
Qed.

Lemma sound_GetStuckSteps timeout :
  sound id (MemoryStorage_GetStuckSteps wall visit timeout).
Proof. unfold MemoryStorage_GetStuckSteps. sound_tac. apply sound_stuckLoop. Qed.
End SoundMemoryStorage.

#[local] Hint Resolve sound_SaveSaga sound_UpdateStep sound_GetStep sound_GetSaga
  sound_GetStuckSteps : sound.

Section SoundOrchestrator.
Variable wall : nat → Z.
Variable uuid : nat → string.
Variable visit : list (string * StepPtr) → list (string * StepPtr).
Variable hs : gmap string StepHandler.
Let o := mkOrchestrator (MemoryStorage wall visit) hs.

Lemma sound_appendStep sagaID (saga : nat) stepName :
  sound (@machine MemDB) (appendStep wall uuid sagaID saga stepName).
Proof.
  unfold appendStep. sound_tac.
  cbn [Saga_Steps set_Saga_Steps].
  match goal with H : Saga_Steps _ !! _ = Some ?s |- _ =>
    exists s; split; [by apply lookup_app_l_Some | done]
  end.
Qed.

Lemma sound_StartSaga (o' : Orchestrator MemDB) name names data :
  storage o' = MemoryStorage wall visit →
  sound (@machine MemDB) (StartSaga wall uuid o' name names data).
Proof.
  intros Hst. unfold StartSaga. rewrite Hst. on_memory.
  pose proof sound_appendStep as Happ. sound_tac.
Qed.

Lemma sound_compensateFrom saga n : sound (@machine MemDB) (compensateFrom saga n).
Proof. induction n as [|n IH]; cbn [compensateFrom]; sound_tac. Qed.

Lemma sound_startCompensation saga : sound (@machine MemDB) (startCompensation o saga).
Proof.
  unfold startCompensation. subst o. on_memory. sound_tac.
  apply sound_compensateFrom.
Qed.

Lemma sound_continueOrComplete saga : sound (@machine MemDB) (continueOrComplete o saga).
Proof. unfold continueOrComplete. subst o. on_memory. sound_tac. Qed.

Lemma sound_writeBack saga execData :
  sound (@machine MemDB) (@writeBack MemDB saga execData).
Proof. unfold writeBack. sound_tac. Qed.

Lemma sound_ExecuteStep stepID : sound (@machine MemDB) (ExecuteStep wall o stepID).
Proof.
  unfold ExecuteStep.
  pose proof sound_startCompensation as Hfail.
  pose proof sound_continueOrComplete as Hnext.
  pose proof sound_writeBack as Hback.
  subst o. on_memory. sound_tac.
Qed.

Lemma sound_CompensateStep stepID : sound (@machine MemDB) (CompensateStep o stepID).
Proof. unfold CompensateStep. subst o. on_memory. sound_tac. Qed.

Lemma sound_dispatch msg : sound (@machine MemDB) (dispatch wall o msg).
Proof.
  unfold dispatch.
  destruct (decide _);
    [apply sound_bind; [apply sound_ExecuteStep | intros; apply sound_ret]|].
  destruct (decide _);
    [apply sound_bind; [apply sound_CompensateStep | intros; apply sound_ret]|].
  apply sound_ret.
Qed.

Lemma sound_Builder_Execute b : sound (@machine MemDB) (Builder_Execute wall uuid b o).
Proof.
  unfold Builder_Execute.
  destruct (decide (length (b_steps b) = 0)); [apply sound_ret|].
  cbv zeta. apply sound_bind; [|intros; apply sound_ret].
  apply sound_StartSaga. by rewrite storage_registered.
Qed.

Lemma sound_recoverStuckSteps every timeout active :
  sound (@machine MemDB)
    (recoverStuckSteps (mkRecoveryManager (MemoryStorage wall visit) every timeout active)).
Proof.
  unfold recoverStuckSteps, recoverStep.
  cbn [rm_storage stepTimeout GetStuckSteps UpdateStep MemoryStorage]. sound_tac.
Qed.
End SoundOrchestrator.

Lemma operation_sound wall uuid w w' :
  operation wall uuid w w' → indexed (machine w) → indexed (machine w').
Proof.
  intros Hop. destruct Hop.
  - by apply (sound_StartSaga wall uuid visit).
  - apply (sound_ExecuteStep wall visit hs).
  - apply (sound_CompensateStep wall visit hs).
  - apply (sound_dispatch wall visit hs).
  - apply (sound_Builder_Execute wall uuid visit hs).
  - apply (sound_recoverStuckSteps wall visit).
Qed.

(** X19: in every state reached from the empty storage by operations of
    orchestrators, builders and recovery managers, whatever the handlers, the
    clock and the identifiers drawn, the indexes of the in-memory storage are
    consistent: [GetSaga] and [GetStep] either report that nothing is stored
    under the identifier or return a live object that carries that identifier;
    in particular every pointer held by the indexes is live. *)
Theorem a_lookup_returns_what_was_filed_under_the_identifier wall uuid (w : World MemDB) :
  reachable wall uuid w →
  (∀ id,
     (MemoryStorage_GetSaga id (machine w) = (machine w, Return (inl "saga not found"))
      ∧ sagas (db (machine w)) !! id = None)
     ∨ ∃ a g, MemoryStorage_GetSaga id (machine w) = (machine w, Return (inr a))
              ∧ sagaObjs (heap (machine w)) !! a = Some g ∧ Saga_ID g = id)
  ∧ (∀ id,
       (MemoryStorage_GetStep id (machine w) = (machine w, Return (inl "step not found"))
        ∧ steps (db (machine w)) !! id = None)
       ∨ ∃ p s, MemoryStorage_GetStep id (machine w) = (machine w, Return (inr p))
                ∧ deref (heap (machine w)) p = Some s ∧ Step_ID s = id)
  ∧ map_Forall (λ _ p, is_Some (deref (heap (machine w)) p)) (steps (db (machine w)))
  ∧ sagasLive (machine w).
Proof.
  intros Hreach.
  assert (Hinv : indexed (machine w)).
  { unfold reachable in Hreach. revert w Hreach.
    apply (rtc_ind_r (λ w, indexed (machine w))).
    - split; intros id x Hx; cbn in Hx; by rewrite lookup_empty in Hx.
    - intros w w' _ Hop IH. by eapply operation_sound. }
  destruct Hinv as [I1 I2]. split; [|split; [|split]].
  - intros id. destruct (sagas (db (machine w)) !! id) as [a|] eqn:Ha.
    + right. destruct (I1 id a Ha) as (g & Hg & Hid). exists a, g.
      split; [by apply GetSaga_run | done].
    + left. split; [|done]. unfold MemoryStorage_GetSaga, bind, getDB. by rewrite Ha.
  - intros id. destruct (steps (db (machine w)) !! id) as [p|] eqn:Hp.
    + right. destruct (I2 id p Hp) as (s & Hs & Hid). exists p, s.
      split; [by apply GetStep_run | done].
    + left. split; [|done]. unfold MemoryStorage_GetStep, bind, getDB. by rewrite Hp.
  - intros id p Hp. destruct (I2 id p Hp) as (s & Hs & _). eauto.
  - intros id a Ha. destruct (I1 id a Ha) as (g & Hg & _). eauto.
Qed.

Lemma a_lookup_returns_what_was_filed_under_the_identifier_witness :
  ∃ p s, MemoryStorage_GetStep "id2" (machine world3)
         = (machine world3, Return (inr p))
         ∧ deref (heap (machine world3)) p = Some s ∧ Step_ID s = "id2".
Proof.
  assert (Hreach : reachable wall0 uuid0 world3).
  { unfold reachable.
    eapply rtc_l; [exact (op_StartSaga wall0 uuid0 visit0 handlers0 "order"
                            ["a"; "b"; "c"] (Some ∅) emptyWorld)|].
    eapply rtc_l; [exact (op_ExecuteStep wall0 uuid0 visit0 handlers0 "id1" world1)|].
    eapply rtc_l; [exact (op_ExecuteStep wall0 uuid0 visit0 handlers0 "id2" world2)|].
    apply rtc_refl. }
  destruct (a_lookup_returns_what_was_filed_under_the_identifier wall0 uuid0 world3 Hreach)
    as (_ & Hstep & _).
  destruct (Hstep "id2") as [[_ Hnone]|Hsome]; [|exact Hsome].
  vm_compute in Hnone. discriminate Hnone.
Defined.
